(** * Matchmaking service: queue, matcher tick and ready check

    A shallow embedding of [MatchmakingService] (matchmaking.service.ts).
    The service is a single-threaded object whose public methods, timer
    callbacks and promise continuations run one after the other; each of
    them is a function on an explicit [World], and everything the service
    asks of its collaborators (socket emissions, repository writes, the
    game-service call) is appended to the world's [trace].  The one thing
    it reads from them, the answer of [penaltyRepository.getActivePenalty]
    in [addPlayer], is a parameter ([Env]) and leaves no trace.

    Conventions of the embedding:
    - JavaScript numbers are integers ([Z]): elo is an integer, and with
      an integral [EXPANSION_STEP] every quantity the matcher compares is
      an integer, on which double arithmetic is exact;
    - [Date.now()] is an argument [now] of each handler (the clock does
      not move inside a synchronous stretch of code);
    - [randomUUID()] is a supply of fresh identifiers, a counter;
    - of the console output only the error reports written by the catch
      handlers are kept ([ConsoleError]); [console.info], [console.debug]
      and [console.warn] lines are not part of the model;
    - the game client answers with a [CreateGameResponse] and never
      rejects, as its contract says. *)

From Stdlib Require Import ZArith List String Bool Lia Permutation Arith Sorted.
Import ListNotations.

Local Open Scope string_scope.
Local Open Scope list_scope.
Local Open Scope Z_scope.

(** ** Data model (types.ts as used by the service) *)

(** Match identifiers are the strings drawn from [randomUUID()]; they are
    opaque, and a draw is modelled by the ordinal of the call. *)
Definition MatchId := nat.

Record QueuedPlayer := mkQueuedPlayer {
  userId : string;
  socketId : string;
  elo : Z;
  joinTime : Z;
  rangeFactor : Z;
  priority : bool
}.

Inductive Status := PENDING | ACCEPTED | DECLINED.

(** The anonymous [{userId, socketId, elo, status}] of a [PendingMatch]. *)
Record Participant := mkParticipant {
  p_userId : string;
  p_socketId : string;
  p_elo : Z;
  status : Status
}.

Record PendingMatch := mkPendingMatch {
  matchId : MatchId;
  expiresAt : Z;
  player1 : Participant;
  player2 : Participant;
  timeoutId : option MatchId
}.

Record Penalty := mkPenalty { expires_at : string }.

(** [CreateGameResponseDto]: the discriminated result of the game client. *)
Inductive CreateGameResponse :=
| GameCreated (gameId : MatchId) (message : string)
| GameRefused (error : string) (message : string).

(** Tunable constants of constants.ts, which is not part of the sources:
    they are a parameter of the matcher.  [recommended] holds the values
    the specification recommends. *)
Record Constants := mkConstants {
  BASE_TOLERANCE : Z;
  EXPANSION_INTERVAL_MS : Z;
  EXPANSION_STEP : Z
}.

Definition recommended : Constants :=
  {| BASE_TOLERANCE := 50; EXPANSION_INTERVAL_MS := 10000; EXPANSION_STEP := 1 |}.

Definition MATCH_ACCEPT_TIMEOUT_MS : Z := 15000.
Definition PENALTY_DURATION_SECONDS : Z := 300.

(** Modelled from the spec: [createQueuedPlayer] of types.ts is missing
    from the sources; the specification has it build a player with
    [joinTime = now] and [rangeFactor = 1.0]. *)
Definition createQueuedPlayer (now : Z) (u s : string) (e : Z) (prio : bool)
  : QueuedPlayer :=
  {| userId := u; socketId := s; elo := e; joinTime := now;
     rangeFactor := 1; priority := prio |}.

(** ** Observable effects *)

Inductive Payload :=
| queue_stats (size pending : nat)
| queue_joined (user : string) (user_elo : Z) (timestamp : Z) (prio : bool)
| match_proposal (mid : MatchId) (expires : Z) (opponentElo : Z)
| match_confirmed (gameId : MatchId) (player1Id player2Id : string)
| match_failed (mid : MatchId) (reason errorCode message : string)
| match_cancelled (reason : string) (mid : MatchId).

Inductive Effect :=
| EmitTo (socket : string) (p : Payload)      (* server.to(socket).emit *)
| EmitAll (p : Payload)                       (* server.emit *)
| Call_addPenalty (user : string) (durationSeconds : Z) (reason : string)
| Call_createSessionLog (id : MatchId) (player1Id player2Id : string)
    (log_status : string) (startedAt : Z)
| Call_createGame (gameId : MatchId) (player1Id player2Id : string)
| ConsoleError (line : string).

(** The injected collaborators, as far as the service reads them: the
    answer of [penaltyRepository.getActivePenalty] and whether a
    repository write throws.  An [Env] is their behaviour for the time of
    one handler; every event carries its own, so that the stores may
    change in any way between two events. *)
Record Env := mkEnv {
  getActivePenalty : string -> option Penalty;
  addPenalty_throws : string -> bool;
  createSessionLog_throws : bool
}.

(** ** The state of the service

    [activeQueue] and [pendingMatches] are JavaScript [Map]s, whose
    iteration order is insertion order: they are lists in that order,
    keyed by the [userId] (resp. [matchId]) of their values, which is the
    key the service stores every value under.  [timers] holds the armed
    [setTimeout] alarms of the ready check, named by the [matchId] their
    callback closes over.  [awaiting] holds the activations of
    [finalizeMatch] suspended at [await createGame(...)], and [jobs] the
    rejection handlers ([.catch]) queued as promise jobs. *)
Record World := mkWorld {
  server : bool;
  activeQueue : list QueuedPlayer;
  activeSockets : list string;
  pendingMatches : list PendingMatch;
  timers : list MatchId;
  nextUuid : nat;
  awaiting : list PendingMatch;
  jobs : list Effect;
  trace : list Effect
}.

Definition initial : World :=
  {| server := false; activeQueue := []; activeSockets := [];
     pendingMatches := []; timers := []; nextUuid := 0%nat;
     awaiting := []; jobs := []; trace := [] |}.

Definition with_server (b : bool) (w : World) : World :=
  mkWorld b (activeQueue w) (activeSockets w) (pendingMatches w) (timers w)
          (nextUuid w) (awaiting w) (jobs w) (trace w).
Definition with_activeQueue (q : list QueuedPlayer) (w : World) : World :=
  mkWorld (server w) q (activeSockets w) (pendingMatches w) (timers w)
          (nextUuid w) (awaiting w) (jobs w) (trace w).
Definition with_activeSockets (s : list string) (w : World) : World :=
  mkWorld (server w) (activeQueue w) s (pendingMatches w) (timers w)
          (nextUuid w) (awaiting w) (jobs w) (trace w).
Definition with_pendingMatches (p : list PendingMatch) (w : World) : World :=
  mkWorld (server w) (activeQueue w) (activeSockets w) p (timers w)
          (nextUuid w) (awaiting w) (jobs w) (trace w).
Definition with_timers (t : list MatchId) (w : World) : World :=
  mkWorld (server w) (activeQueue w) (activeSockets w) (pendingMatches w) t
          (nextUuid w) (awaiting w) (jobs w) (trace w).
Definition with_nextUuid (n : nat) (w : World) : World :=
  mkWorld (server w) (activeQueue w) (activeSockets w) (pendingMatches w)
          (timers w) n (awaiting w) (jobs w) (trace w).
Definition with_awaiting (a : list PendingMatch) (w : World) : World :=
  mkWorld (server w) (activeQueue w) (activeSockets w) (pendingMatches w)
          (timers w) (nextUuid w) a (jobs w) (trace w).
Definition with_jobs (j : list Effect) (w : World) : World :=
  mkWorld (server w) (activeQueue w) (activeSockets w) (pendingMatches w)
          (timers w) (nextUuid w) (awaiting w) j (trace w).
Definition with_trace (t : list Effect) (w : World) : World :=
  mkWorld (server w) (activeQueue w) (activeSockets w) (pendingMatches w)
          (timers w) (nextUuid w) (awaiting w) (jobs w) t.

(** Performing an effect, and sending through the server when there is one
    ([if (this.server) ...]). *)
Definition perform (e : Effect) (w : World) : World :=
  with_trace (trace w ++ [e]) w.

Definition emit (e : Effect) (w : World) : World :=
  with_trace (if server w then trace w ++ [e] else trace w) w.

(** A rejected promise with a [.catch] handler: the handler is a promise
    job, run when the current callback has returned. *)
Definition enqueue (e : Effect) (w : World) : World :=
  with_jobs (jobs w ++ [e]) w.

Definition drain (w : World) : World :=
  with_jobs [] (with_trace (trace w ++ jobs w) w).

(** ** [Map] and [Set] operations *)

Definition set_has (x : string) (s : list string) : bool :=
  existsb (String.eqb x) s.
Definition set_add (x : string) (s : list string) : list string :=
  if set_has x s then s else s ++ [x].
Definition set_delete (x : string) (s : list string) : list string :=
  filter (fun y => negb (String.eqb x y)) s.

Definition queue_has (u : string) (q : list QueuedPlayer) : bool :=
  existsb (fun p => String.eqb u (userId p)) q.
Definition queue_get (u : string) (q : list QueuedPlayer) : option QueuedPlayer :=
  find (fun p => String.eqb u (userId p)) q.
Definition queue_delete (u : string) (q : list QueuedPlayer) : list QueuedPlayer :=
  filter (fun p => negb (String.eqb u (userId p))) q.
(** [Map.prototype.set]: a present key keeps its position. *)
Definition queue_replace (p : QueuedPlayer) (q : list QueuedPlayer) : list QueuedPlayer :=
  map (fun x => if String.eqb (userId p) (userId x) then p else x) q.
Definition queue_set (p : QueuedPlayer) (q : list QueuedPlayer) : list QueuedPlayer :=
  if queue_has (userId p) q then queue_replace p q else q ++ [p].

Definition pending_get (mid : MatchId) (l : list PendingMatch) : option PendingMatch :=
  find (fun m => Nat.eqb mid (matchId m)) l.
Definition pending_delete (mid : MatchId) (l : list PendingMatch) : list PendingMatch :=
  filter (fun m => negb (Nat.eqb mid (matchId m))) l.
Definition pending_replace (m : PendingMatch) (l : list PendingMatch) : list PendingMatch :=
  map (fun x => if Nat.eqb (matchId m) (matchId x) then m else x) l.
Definition pending_set (m : PendingMatch) (l : list PendingMatch) : list PendingMatch :=
  if existsb (fun x => Nat.eqb (matchId m) (matchId x)) l
  then pending_replace m l else l ++ [m].

Definition clearTimeout (t : MatchId) (w : World) : World :=
  with_timers (filter (fun x => negb (Nat.eqb t x)) (timers w)) w.
Definition setTimeout (t : MatchId) (w : World) : World :=
  with_timers (timers w ++ [t]) w.

(** ** Queue state: addPlayer, removePlayer *)

Definition getQueueStats (w : World) : nat * nat :=
  (List.length (activeQueue w), List.length (pendingMatches w)).

Definition emitQueueStats (w : World) : World :=
  emit (EmitAll (queue_stats (fst (getQueueStats w)) (snd (getQueueStats w)))) w.

Definition isUserInPendingMatch (u : string) (w : World) : bool :=
  existsb (fun m => String.eqb (p_userId (player1 m)) u
                    || String.eqb (p_userId (player2 m)) u)
          (pendingMatches w).

(** How a call of an [async] method ends for its caller: it returned, it
    threw (the promise is rejected with [Error(message)]), or it is still
    waiting for the game service. *)
Inductive Outcome :=
| Returned
| Threw (message : string)
| Suspended.

Definition addPlayer (env : Env) (now : Z) (u s : string) (e : Z) (prio : bool)
  (w : World) : Outcome * World :=
  match getActivePenalty env u with
  | Some penalty =>
      (Threw (String.append "You are banned until " (expires_at penalty)), w)
  | None =>
      if queue_has u (activeQueue w) then (Threw "User already in queue", w)
      else if isUserInPendingMatch u w then
        (Threw "User already in a pending match", w)
      else if set_has s (activeSockets w) then (Threw "Socket already active", w)
      else
        let player := createQueuedPlayer now u s e prio in
        let w1 := with_activeQueue (queue_set player (activeQueue w)) w in
        let w2 := with_activeSockets (set_add s (activeSockets w1)) w1 in
        (Returned, emitQueueStats w2)
  end.

Definition removePlayer (identifier : string) (w : World) : World :=
  let targetId :=
    if queue_has identifier (activeQueue w) then identifier
    else match find (fun p => String.eqb (socketId p) identifier) (activeQueue w) with
         | Some p => userId p
         | None => identifier
         end in
  match queue_get targetId (activeQueue w) with
  | Some player =>
      let w1 := with_activeSockets (set_delete (socketId player) (activeSockets w)) w in
      let w2 := with_activeQueue (queue_delete targetId (activeQueue w1)) w1 in
      emitQueueStats w2
  | None => w
  end.

(** ** Ready check: accept, decline, timeout *)

Definition status_eqb (a b : Status) : bool :=
  match a, b with
  | PENDING, PENDING | ACCEPTED, ACCEPTED | DECLINED, DECLINED => true
  | _, _ => false
  end.

Definition with_status (st : Status) (p : Participant) : Participant :=
  mkParticipant (p_userId p) (p_socketId p) (p_elo p) st.
Definition with_player1 (p : Participant) (m : PendingMatch) : PendingMatch :=
  mkPendingMatch (matchId m) (expiresAt m) p (player2 m) (timeoutId m).
Definition with_player2 (p : Participant) (m : PendingMatch) : PendingMatch :=
  mkPendingMatch (matchId m) (expiresAt m) (player1 m) p (timeoutId m).

(** [this.addPlayer(p.userId, p.socketId, p.elo, true).catch(...)]:
    [addPlayer] has no [await], so it runs to its end (or to its [throw])
    inside the call; a rejection only queues the handler, which reports on
    the console. *)
Definition requeue (env : Env) (now : Z) (line : string) (p : Participant)
  (w : World) : World :=
  match addPlayer env now (p_userId p) (p_socketId p) (p_elo p) true w with
  | (Threw _, w1) => enqueue (ConsoleError (String.append line (p_userId p))) w1
  | (_, w1) => w1
  end.

Definition handleGameCreationSuccess (m : PendingMatch) (gameId : MatchId)
  (w : World) : World :=
  if negb (server w) then w
  else
    let payload := match_confirmed gameId (p_userId (player1 m)) (p_userId (player2 m)) in
    let w1 := perform (EmitTo (p_socketId (player1 m)) payload) w in
    perform (EmitTo (p_socketId (player2 m)) payload) w1.

(** The body of [for (const player of players)] in
    [handleGameCreationFailure]. *)
Definition requeue_after_failure (env : Env) (now : Z) (w : World)
  (player : Participant) : World :=
  let w' := requeue env now
    "[MatchmakingService] [handleGameCreationFailure] Failed to re-queue user "
    player w in
  emit (EmitTo (p_socketId player)
          (queue_joined (p_userId player) (p_elo player) now true)) w'.

Definition handleGameCreationFailure (env : Env) (now : Z) (m : PendingMatch)
  (errorCode errorMessage : string) (w : World) : World :=
  let failurePayload :=
    match_failed (matchId m) "game_creation_failed" errorCode errorMessage in
  let w1 := emit (EmitTo (p_socketId (player1 m)) failurePayload) w in
  let w2 := emit (EmitTo (p_socketId (player2 m)) failurePayload) w1 in
  fold_left (requeue_after_failure env now) [player1 m; player2 m] w2.

(** [finalizeMatch] up to its [await]: the timer is cleared, the match is
    taken out of [pendingMatches], the session log is attempted (a throw
    is reported and dropped) and [createGame] is called; the activation
    then waits for the reply. *)
Definition finalizeMatch (env : Env) (now : Z) (m : PendingMatch) (w : World)
  : World :=
  let w1 := match timeoutId m with Some t => clearTimeout t w | None => w end in
  let w2 := with_pendingMatches (pending_delete (matchId m) (pendingMatches w1)) w1 in
  let w3 := perform (Call_createSessionLog (matchId m) (p_userId (player1 m))
                       (p_userId (player2 m)) "STARTED" now) w2 in
  let w4 := if createSessionLog_throws env
            then perform (ConsoleError
                   "[MatchmakingService] [finalizeMatch] Failed to create session log") w3
            else w3 in
  let w5 := perform (Call_createGame (matchId m) (p_userId (player1 m))
                       (p_userId (player2 m))) w4 in
  with_awaiting (awaiting w5 ++ [m]) w5.

(** [finalizeMatch] from the reply of the game service on. *)
Definition finalizeMatch_resume (env : Env) (now : Z) (m : PendingMatch)
  (gameCreationResult : CreateGameResponse) (w : World) : World :=
  let w1 :=
    match gameCreationResult with
    | GameCreated gameId _ => handleGameCreationSuccess m gameId w
    | GameRefused error message => handleGameCreationFailure env now m error message w
    end in
  emitQueueStats w1.

Definition acceptMatch (env : Env) (now : Z) (u : string) (mid : MatchId)
  (w : World) : Outcome * World :=
  match pending_get mid (pendingMatches w) with
  | None => (Threw "Match not found or expired", w)
  | Some m =>
      let accept_as (playerRef : Participant)
                    (store : Participant -> PendingMatch -> PendingMatch) :=
        if negb (status_eqb (status playerRef) PENDING) then (Returned, w)
        else
          (* playerRef.status = 'ACCEPTED' on the object held by the map *)
          let m' := store (with_status ACCEPTED playerRef) m in
          let w1 := with_pendingMatches (pending_replace m' (pendingMatches w)) w in
          if status_eqb (status (player1 m')) ACCEPTED
             && status_eqb (status (player2 m')) ACCEPTED
          then (Suspended, finalizeMatch env now m' w1)
          else (Returned, w1) in
      if String.eqb (p_userId (player1 m)) u then accept_as (player1 m) with_player1
      else if String.eqb (p_userId (player2 m)) u then accept_as (player2 m) with_player2
      else (Threw "User is not a participant in this match", w)
  end.

(** The body of [players.forEach((p) => ...)] in [cancelMatch]. *)
Definition cancel_participant (env : Env) (now : Z) (mid : MatchId)
  (guiltySet : list string) (reason : string) (w : World) (p : Participant)
  : World :=
  if set_has (p_userId p) guiltySet then
    let w' := perform (Call_addPenalty (p_userId p) PENALTY_DURATION_SECONDS
                         (String.append "Matchmaking abuse: " reason)) w in
    let w'' := if addPenalty_throws env (p_userId p)
               then perform (ConsoleError (String.append
                      "[MatchmakingService] [cancelMatch] Failed to apply penalty to "
                      (p_userId p))) w'
               else w' in
    emit (EmitTo (p_socketId p) (match_cancelled "penalty_applied" mid)) w''
  else
    let w' := requeue env now
      "[MatchmakingService] [cancelMatch] Failed to re-queue user " p w in
    let w'' := emit (EmitTo (p_socketId p) (match_cancelled "opponent_declined" mid)) w' in
    emit (EmitTo (p_socketId p) (queue_joined (p_userId p) (p_elo p) now true)) w''.

Definition cancelMatch (env : Env) (now : Z) (m : PendingMatch)
  (faultyUserIds : list string) (reason : string) (w : World) : World :=
  let w1 := match timeoutId m with Some t => clearTimeout t w | None => w end in
  let w2 := with_pendingMatches (pending_delete (matchId m) (pendingMatches w1)) w1 in
  let guiltySet := fold_left (fun s u => set_add u s) faultyUserIds [] in
  let w3 := fold_left (cancel_participant env now (matchId m) guiltySet reason)
              [player1 m; player2 m] w2 in
  emitQueueStats w3.

Definition declineMatch (env : Env) (now : Z) (u : string) (mid : MatchId)
  (w : World) : Outcome * World :=
  match pending_get mid (pendingMatches w) with
  | None => (Threw "Match not found or expired", w)
  | Some m =>
      if negb (String.eqb (p_userId (player1 m)) u)
         && negb (String.eqb (p_userId (player2 m)) u)
      then (Threw "User is not a participant in this match", w)
      else (Returned, cancelMatch env now m [u] "declined" w)
  end.

Definition handleMatchTimeout (env : Env) (now : Z) (mid : MatchId) (w : World)
  : World :=
  match pending_get mid (pendingMatches w) with
  | None => w
  | Some m =>
      let faultyUsers :=
        (if status_eqb (status (player1 m)) PENDING then [p_userId (player1 m)] else [])
        ++ (if status_eqb (status (player2 m)) PENDING then [p_userId (player2 m)] else []) in
      cancelMatch env now m faultyUsers "timeout" w
  end.

(** ** The matcher tick *)

Definition handleMatchFound (now : Z) (p1 p2 : QueuedPlayer) (w : World) : World :=
  let mid := nextUuid w in
  let w0 := with_nextUuid (S mid) w in
  let expires := now + MATCH_ACCEPT_TIMEOUT_MS in
  let w1 := with_activeQueue (queue_delete (userId p1) (activeQueue w0)) w0 in
  let w2 := with_activeSockets (set_delete (socketId p1) (activeSockets w1)) w1 in
  let w3 := with_activeQueue (queue_delete (userId p2) (activeQueue w2)) w2 in
  let w4 := with_activeSockets (set_delete (socketId p2) (activeSockets w3)) w3 in
  let pendingMatch :=
    {| matchId := mid; expiresAt := expires;
       player1 := mkParticipant (userId p1) (socketId p1) (elo p1) PENDING;
       player2 := mkParticipant (userId p2) (socketId p2) (elo p2) PENDING;
       timeoutId := Some mid |} in
  let w5 := setTimeout mid w4 in
  let w6 := with_pendingMatches (pending_set pendingMatch (pendingMatches w5)) w5 in
  let w7 := emit (EmitTo (socketId p1) (match_proposal mid expires (elo p2))) w6 in
  let w8 := emit (EmitTo (socketId p2) (match_proposal mid expires (elo p1))) w7 in
  emitQueueStats w8.

(** The comparator of [candidates.sort]. *)
Definition compare_candidates (a b : QueuedPlayer) : Z :=
  if priority a && negb (priority b) then -1
  else if negb (priority a) && priority b then 1
  else elo a - elo b.

(** [Array.prototype.sort] is stable and the comparator is a total
    preorder, so the sorted array is the stable sort of the snapshot:
    an element goes in front of the first one it does not come after. *)
Fixpoint sort_insert (x : QueuedPlayer) (l : list QueuedPlayer) : list QueuedPlayer :=
  match l with
  | [] => [x]
  | y :: l' => if compare_candidates x y <=? 0 then x :: l else y :: sort_insert x l'
  end.

Definition sort_candidates (l : list QueuedPlayer) : list QueuedPlayer :=
  fold_right sort_insert [] l.

Definition with_rangeFactor (r : Z) (p : QueuedPlayer) : QueuedPlayer :=
  mkQueuedPlayer (userId p) (socketId p) (elo p) (joinTime p) r (priority p).

Section Matcher.

Variable cfg : Constants.

(** Range expansion of the active player for this tick. *)
Definition expand (now : Z) (playerA : QueuedPlayer) : QueuedPlayer :=
  let waitTime := now - joinTime playerA in
  if waitTime >? EXPANSION_INTERVAL_MS cfg * rangeFactor playerA
  then with_rangeFactor (rangeFactor playerA + EXPANSION_STEP cfg) playerA
  else playerA.

Definition toleranceA (playerA : QueuedPlayer) : Z :=
  let priorityBonus := if priority playerA then 2 else 1 in
  BASE_TOLERANCE cfg * rangeFactor playerA * priorityBonus.

Definition toleranceB (playerB : QueuedPlayer) : Z :=
  BASE_TOLERANCE cfg * rangeFactor playerB.

Definition compatible (playerA playerB : QueuedPlayer) : bool :=
  let eloDiff := Z.abs (elo playerB - elo playerA) in
  (eloDiff <=? toleranceA playerA) && (eloDiff <=? toleranceB playerB).

(** The inner loop, [for (j = i + 1; ...)], over [candidates[i+1..]].
    (The array is dense: the guards against an [undefined] slot never
    fire, here and in the outer loop.) *)
Fixpoint scan (playerA : QueuedPlayer) (later : list QueuedPlayer)
  (matchedIds : list string) : option QueuedPlayer :=
  match later with
  | [] => None
  | playerB :: later' =>
      if set_has (userId playerB) matchedIds then scan playerA later' matchedIds
      else if compatible playerA playerB then Some playerB
      else scan playerA later' matchedIds
  end.

(** The outer loop, [for (i = 0; ...)], over [candidates[i..]].  The
    array holds the very objects of [activeQueue]: the expansion written
    to [playerA.rangeFactor] is a write to the queue entry.  The array
    element itself is not read again after its own turn (the inner loops
    of later turns start past it), so the array can stay a snapshot. *)
Fixpoint pairing (now : Z) (candidates : list QueuedPlayer)
  (matchedIds : list string) (w : World) : World :=
  match candidates with
  | [] => w
  | playerA0 :: later =>
      if set_has (userId playerA0) matchedIds then pairing now later matchedIds w
      else
        let playerA := expand now playerA0 in
        let w1 := with_activeQueue (queue_replace playerA (activeQueue w)) w in
        match scan playerA later matchedIds with
        | Some playerB =>
            let matchedIds' :=
              set_add (userId playerB) (set_add (userId playerA) matchedIds) in
            pairing now later matchedIds' (handleMatchFound now playerA playerB w1)
        | None => pairing now later matchedIds w1
        end
  end.

Definition matchmakingLoop (now : Z) (w : World) : World :=
  if (List.length (activeQueue w) <? 2)%nat then w
  else pairing now (sort_candidates (activeQueue w)) [] w.

(** ** Events

    What can happen to the service: a call of a public method, an alarm
    going off, a tick of the interval, the reply of the game service.
    Each runs to its end, then the queued promise jobs run. *)
Inductive Event :=
| SetServer
| AddPlayer (env : Env) (now : Z) (u s : string) (e : Z) (prio : bool)
| RemovePlayer (identifier : string)
| AcceptMatch (env : Env) (now : Z) (u : string) (mid : MatchId)
| DeclineMatch (env : Env) (now : Z) (u : string) (mid : MatchId)
| TimerFires (env : Env) (now : Z) (mid : MatchId)
| Tick (now : Z)
| GameReply (env : Env) (now : Z) (mid : MatchId) (r : CreateGameResponse).

Definition handle (ev : Event) (w : World) : World :=
  match ev with
  | SetServer => with_server true w
  | AddPlayer env now u s e prio => snd (addPlayer env now u s e prio w)
  | RemovePlayer identifier => removePlayer identifier w
  | AcceptMatch env now u mid => snd (acceptMatch env now u mid w)
  | DeclineMatch env now u mid => snd (declineMatch env now u mid w)
  | TimerFires env now mid =>
      if existsb (Nat.eqb mid) (timers w)
      then handleMatchTimeout env now mid (clearTimeout mid w)
      else w
  | Tick now => matchmakingLoop now w
  | GameReply env now mid r =>
      match pending_get mid (awaiting w) with
      | Some m =>
          finalizeMatch_resume env now m r
            (with_awaiting (pending_delete mid (awaiting w)) w)
      | None => w
      end
  end.

Definition step (w : World) (ev : Event) : World := drain (handle ev w).

Definition run (evs : list Event) (w : World) : World := fold_left step evs w.

End Matcher.

(** ** Derived notions used in the statements *)

Definition participants (m : PendingMatch) : list string :=
  [p_userId (player1 m); p_userId (player2 m)].

Definition pendingUsers (l : list PendingMatch) : list string :=
  flat_map participants l.

Definition waitingUsers (w : World) : list string := map userId (activeQueue w).

(** The error kinds of the specification, read off the messages. *)
Definition Banned (msg : string) : Prop :=
  exists until, msg = String.append "You are banned until " until.
Definition AlreadyQueued (msg : string) : Prop :=
  msg = "User already in queue" \/ msg = "User already in a pending match".
Definition SocketBusy (msg : string) : Prop := msg = "Socket already active".
Definition MatchNotFound (msg : string) : Prop := msg = "Match not found or expired".

(** [r] is a failure of kind [K] that left the world [w] as it was. *)
Definition fails_with (K : string -> Prop) (r : Outcome * World) (w : World) : Prop :=
  exists msg, r = (Threw msg, w) /\ K msg.

(** * Invariants, specifications and scenarios *)

(** A pending match is open: nobody has declined, at most one of the two
    has accepted (mutual acceptance leaves [pendingMatches] in the same
    call), the two came from the queue under different sockets, and its
    alarm is the one armed when it was created. *)
Definition open_match (m : PendingMatch) : Prop :=
  (status (player1 m) = PENDING \/ status (player1 m) = ACCEPTED)
  /\ (status (player2 m) = PENDING \/ status (player2 m) = ACCEPTED)
  /\ (status (player1 m) = PENDING \/ status (player2 m) = PENDING)
  /\ p_socketId (player1 m) <> p_socketId (player2 m)
  /\ timeoutId m = Some (matchId m).

Record Inv (w : World) : Prop := mkInv {
  inv_users : NoDup (waitingUsers w ++ pendingUsers (pendingMatches w));
  inv_sockets : NoDup (map socketId (activeQueue w));
  inv_active : forall s, In s (activeSockets w) <-> In s (map socketId (activeQueue w));
  inv_ids : NoDup (map matchId (pendingMatches w));
  inv_fresh : Forall (fun m => (matchId m < nextUuid w)%nat) (pendingMatches w);
  inv_awaiting : Forall (fun m => (matchId m < nextUuid w)%nat) (awaiting w);
  inv_apart : forall m a, In m (pendingMatches w) -> In a (awaiting w) ->
                          matchId m <> matchId a;
  inv_open : Forall open_match (pendingMatches w)
}.

(** Two worlds with the same service state (they may differ in what has
    been emitted and in the queued promise jobs). *)
Definition same_state (w w' : World) : Prop :=
  server w' = server w
  /\ activeQueue w' = activeQueue w
  /\ activeSockets w' = activeSockets w
  /\ pendingMatches w' = pendingMatches w
  /\ timers w' = timers w
  /\ nextUuid w' = nextUuid w
  /\ awaiting w' = awaiting w.

(** A candidate not yet matched in this tick is still in the queue, under
    the socket recorded in the snapshot. *)
Definition live (w : World) (matchedIds : list string) (c : QueuedPlayer) : Prop :=
  ~ In (userId c) matchedIds ->
  exists q, queue_get (userId c) (activeQueue w) = Some q /\ socketId q = socketId c.

Definition unique_users (w : World) : Prop :=
  NoDup (waitingUsers w ++ pendingUsers (pendingMatches w)).



Definition is_stats (e : Effect) : Prop := exists a b, e = EmitAll (queue_stats a b).

Definition penalty_reason (reason : string) : string :=
  String.append "Matchmaking abuse: " reason.

Definition penalty_report (u : string) : Effect :=
  ConsoleError
    (String.append "[MatchmakingService] [cancelMatch] Failed to apply penalty to " u).

(** The effects of [cancelMatch] on a guilty participant... *)
Definition penalty_effects (env : Env) (mid : MatchId) (reason : string)
  (p : Participant) : list Effect :=
  [Call_addPenalty (p_userId p) 300 (penalty_reason reason)]
  ++ (if addPenalty_throws env (p_userId p) then [penalty_report (p_userId p)] else [])
  ++ [EmitTo (p_socketId p) (match_cancelled "penalty_applied" mid)].

(** ... and the notifications to an innocent one. *)
Definition innocent_effects (now : Z) (mid : MatchId) (p : Participant) : list Effect :=
  [EmitTo (p_socketId p) (match_cancelled "opponent_declined" mid);
   EmitTo (p_socketId p) (queue_joined (p_userId p) (p_elo p) now true)].

(** The outcome of Cancel(match, faulty, reason), from world [w] to world
    [w'], [new] being what was emitted and called in between.  A
    participant who is not faulty is notified in any case, and is in the
    queue again when [addPlayer] admits them: no active penalty, and a
    socket that is not active. *)
Definition cancel_outcome (env : Env) (now : Z) (m : PendingMatch)
  (faulty : list string) (reason : string) (w w' : World) : Prop :=
  (forall t, timeoutId m = Some t -> ~ In t (timers w'))
  /\ ~ In (matchId m) (map matchId (pendingMatches w'))
  /\ exists new,
       trace w' = trace w ++ new
       /\ forall p, In p [player1 m; player2 m] ->
            (In (p_userId p) faulty ->
               In (Call_addPenalty (p_userId p) 300 (penalty_reason reason)) new
               /\ In (EmitTo (p_socketId p)
                        (match_cancelled "penalty_applied" (matchId m))) new
               /\ ~ In (p_userId p) (waitingUsers w'))
            /\ (~ In (p_userId p) faulty ->
               In (EmitTo (p_socketId p)
                     (match_cancelled "opponent_declined" (matchId m))) new
               /\ In (EmitTo (p_socketId p)
                        (queue_joined (p_userId p) (p_elo p) now true)) new
               /\ (forall d r, ~ In (Call_addPenalty (p_userId p) d r) new)
               /\ (getActivePenalty env (p_userId p) = None ->
                   ~ In (p_socketId p) (activeSockets w) ->
                   In (createQueuedPlayer now (p_userId p) (p_socketId p) (p_elo p) true)
                      (activeQueue w'))).

(** Collaborators that never object. *)
Definition env_free : Env :=
  {| getActivePenalty := fun _ => None;
     addPenalty_throws := fun _ => false;
     createSessionLog_throws := false |}.

(** A penalty store in which user "A" is banned. *)
Definition env_A_banned : Env :=
  {| getActivePenalty :=
       fun u => if String.eqb u "A" then Some (mkPenalty "2030-01-01") else None;
     addPenalty_throws := fun _ => false;
     createSessionLog_throws := false |}.

(** "A" (1500) and "B" (1520) join and one tick proposes match 0 to them. *)
Definition proposal_events : list Event :=
  [SetServer;
   AddPlayer env_free 0 "A" "sA" 1500 false;
   AddPlayer env_free 0 "B" "sB" 1520 false;
   Tick 1000].

(** Then socket "sA" is taken by another user before "B" declines. *)
Definition decline_with_socket_taken : list Event :=
  proposal_events
  ++ [AddPlayer env_free 1500 "C" "sA" 1400 false;
      DeclineMatch env_free 2000 "B" 0%nat].

(** Or both accept, and "A" is banned by the time the game service
    refuses. *)
Definition refusal_with_ban : list Event :=
  proposal_events
  ++ [AcceptMatch env_free 2000 "A" 0%nat;
      AcceptMatch env_free 2100 "B" 0%nat;
      GameReply env_A_banned 3000 0%nat
        (GameRefused "GAME_ALREADY_EXISTS" "Failed to reach Game Service - fallback response")].

(** The ready-check side of the state is untouched. *)
Definition keeps_matches (w w' : World) : Prop :=
  server w' = server w
  /\ pendingMatches w' = pendingMatches w
  /\ timers w' = timers w
  /\ nextUuid w' = nextUuid w
  /\ awaiting w' = awaiting w.

(** [mid] has been drawn and is no longer (or never was) pending. *)
Definition retired (mid : MatchId) (w : World) : Prop :=
  (mid < nextUuid w)%nat /\ pending_get mid (pendingMatches w) = None.

(** The match with both participants marked ACCEPTED. *)
Definition both_accepted (m : PendingMatch) : PendingMatch :=
  with_player2 (with_status ACCEPTED (player2 m))
    (with_player1 (with_status ACCEPTED (player1 m)) m).

(** A sequence of [acceptMatch(u, mid)] calls, each with the collaborators
    and the clock of its moment. *)
Definition accept_calls (mid : MatchId) (calls : list (Env * Z * string)) : list Event :=
  map (fun c => AcceptMatch (fst (fst c)) (snd (fst c)) (snd c) mid) calls.

Definition callers (calls : list (Env * Z * string)) : list string := map snd calls.

(** Participant [p] has accepted: it had before the calls, or one of the
    calls is its own. *)
Definition accepted_by (calls : list (Env * Z * string)) (p : Participant) : Prop :=
  status p = ACCEPTED \/ In (p_userId p) (callers calls).

Definition is_createGame (e : Effect) : bool :=
  match e with Call_createGame _ _ _ => true | _ => false end.

Definition is_sessionLog (e : Effect) : bool :=
  match e with Call_createSessionLog _ _ _ _ _ => true | _ => false end.

Definition is_confirmed (e : Effect) : bool :=
  match e with EmitTo _ (match_confirmed _ _ _) => true | _ => false end.

Definition session_report : Effect :=
  ConsoleError "[MatchmakingService] [finalizeMatch] Failed to create session log".

(** What [finalizeMatch] does before it suspends. *)
Definition finalize_effects (env : Env) (now : Z) (m : PendingMatch) : list Effect :=
  [Call_createSessionLog (matchId m) (p_userId (player1 m)) (p_userId (player2 m))
     "STARTED" now]
  ++ (if createSessionLog_throws env then [session_report] else [])
  ++ [Call_createGame (matchId m) (p_userId (player1 m)) (p_userId (player2 m))].

(** The composite order of the specification: priority players first,
    then ascending elo. *)
Definition precedes (a b : QueuedPlayer) : Prop :=
  (priority a = true /\ priority b = false)
  \/ (priority a = priority b /\ elo a <= elo b).

(** The pending matches created for a list of pairs, the first one under
    identifier [n]. *)
Fixpoint proposals (now : Z) (n : nat) (pairs : list (QueuedPlayer * QueuedPlayer))
  : list PendingMatch :=
  match pairs with
  | [] => []
  | (a, b) :: rest =>
      {| matchId := n; expiresAt := now + MATCH_ACCEPT_TIMEOUT_MS;
         player1 := mkParticipant (userId a) (socketId a) (elo a) PENDING;
         player2 := mkParticipant (userId b) (socketId b) (elo b) PENDING;
         timeoutId := Some n |} :: proposals now (S n) rest
  end.

Section FirstFit.

Variable cfg : Constants.
Variable now : Z.

(** The tolerance test in the words of the specification: the active
    side [a] has the priority bonus, the passive side [b] has none. *)
Definition within_tolerance (a b : QueuedPlayer) : Prop :=
  Z.abs (elo a - elo b)
  <= Z.min (BASE_TOLERANCE cfg * rangeFactor a * (if priority a then 2 else 1))
           (BASE_TOLERANCE cfg * rangeFactor b).

Definition eligible (matched : list string) (a b : QueuedPlayer) : Prop :=
  ~ In (userId b) matched /\ within_tolerance a b.

(** The pairing rule of the specification over the ordered candidates:
    a candidate already matched is skipped; otherwise its range is
    expanded and it takes the first later candidate that is eligible, if
    there is one. *)
Inductive first_fit :
  list QueuedPlayer -> list string -> list (QueuedPlayer * QueuedPlayer) -> Prop :=
| ff_done matched : first_fit [] matched []
| ff_skip a later matched pairs :
    In (userId a) matched ->
    first_fit later matched pairs ->
    first_fit (a :: later) matched pairs
| ff_pair a later matched matched' pairs before b after :
    ~ In (userId a) matched ->
    later = before ++ b :: after ->
    eligible matched (expand cfg now a) b ->
    (forall c, In c before -> ~ eligible matched (expand cfg now a) c) ->
    (forall x, In x matched' <-> x = userId a \/ x = userId b \/ In x matched) ->
    first_fit later matched' pairs ->
    first_fit (a :: later) matched ((expand cfg now a, b) :: pairs)
| ff_alone a later matched pairs :
    ~ In (userId a) matched ->
    (forall c, In c later -> ~ eligible matched (expand cfg now a) c) ->
    first_fit later matched pairs ->
    first_fit (a :: later) matched pairs.

End FirstFit.

(** ** The tick when the socket server can throw

    The tick once more, now with a socket server whose [emit] may throw.
    [faulty e = Some err] says that emitting [e] throws [Error(err)].
    Nothing on the way from [emit] to the interval callback catches: not
    [handleMatchFound], not [matchmakingLoop], not the arrow function
    given to [setInterval].  A run either completes normally or
    abruptly, in both cases in the world reached so far. *)
Inductive Completion :=
| Normal (w : World)
| Abrupt (error : string) (w : World).

Definition andThen (c : Completion) (k : World -> Completion) : Completion :=
  match c with
  | Normal w => k w
  | Abrupt err w => Abrupt err w
  end.

Definition emit_or_throw (faulty : Effect -> option string) (e : Effect) (w : World)
  : Completion :=
  if server w then
    match faulty e with
    | Some err => Abrupt err w
    | None => Normal (perform e w)
    end
  else Normal w.

Definition emitQueueStats_throwing (faulty : Effect -> option string) (w : World)
  : Completion :=
  emit_or_throw faulty
    (EmitAll (queue_stats (fst (getQueueStats w)) (snd (getQueueStats w)))) w.

Definition handleMatchFound_throwing (faulty : Effect -> option string) (now : Z)
  (p1 p2 : QueuedPlayer) (w : World) : Completion :=
  let mid := nextUuid w in
  let w0 := with_nextUuid (S mid) w in
  let expires := now + MATCH_ACCEPT_TIMEOUT_MS in
  let w1 := with_activeQueue (queue_delete (userId p1) (activeQueue w0)) w0 in
  let w2 := with_activeSockets (set_delete (socketId p1) (activeSockets w1)) w1 in
  let w3 := with_activeQueue (queue_delete (userId p2) (activeQueue w2)) w2 in
  let w4 := with_activeSockets (set_delete (socketId p2) (activeSockets w3)) w3 in
  let pendingMatch :=
    {| matchId := mid; expiresAt := expires;
       player1 := mkParticipant (userId p1) (socketId p1) (elo p1) PENDING;
       player2 := mkParticipant (userId p2) (socketId p2) (elo p2) PENDING;
       timeoutId := Some mid |} in
  let w5 := setTimeout mid w4 in
  let w6 := with_pendingMatches (pending_set pendingMatch (pendingMatches w5)) w5 in
  andThen (emit_or_throw faulty
             (EmitTo (socketId p1) (match_proposal mid expires (elo p2))) w6)
    (fun w7 =>
       andThen (emit_or_throw faulty
                  (EmitTo (socketId p2) (match_proposal mid expires (elo p1))) w7)
         (emitQueueStats_throwing faulty)).

Section ThrowingTick.

Variable cfg : Constants.
Variable faulty : Effect -> option string.

Fixpoint pairing_throwing (now : Z) (candidates : list QueuedPlayer)
  (matchedIds : list string) (w : World) : Completion :=
  match candidates with
  | [] => Normal w
  | playerA0 :: later =>
      if set_has (userId playerA0) matchedIds
      then pairing_throwing now later matchedIds w
      else
        let playerA := expand cfg now playerA0 in
        let w1 := with_activeQueue (queue_replace playerA (activeQueue w)) w in
        match scan cfg playerA later matchedIds with
        | Some playerB =>
            let matchedIds' :=
              set_add (userId playerB) (set_add (userId playerA) matchedIds) in
            andThen (handleMatchFound_throwing faulty now playerA playerB w1)
                    (pairing_throwing now later matchedIds')
        | None => pairing_throwing now later matchedIds w1
        end
  end.

Definition matchmakingLoop_throwing (now : Z) (w : World) : Completion :=
  if (List.length (activeQueue w) <? 2)%nat then Normal w
  else pairing_throwing now (sort_candidates (activeQueue w)) [] w.

(** [setInterval(() => this.matchmakingLoop(), TICK_RATE_MS)]: how one
    run of the callback completes, as the timer machinery of the runtime
    sees it. *)
Definition intervalCallback (now : Z) (w : World) : Completion :=
  matchmakingLoop_throwing now w.

End ThrowingTick.

Definition is_console (e : Effect) : bool :=
  match e with ConsoleError _ => true | _ => false end.

(** A server that throws on every match proposal. *)
Definition proposals_fail (e : Effect) : option string :=
  match e with
  | EmitTo _ (match_proposal _ _ _) => Some "transport closed"
  | _ => None
  end.

(** "A" (1500) and "B" (1520) are waiting, the server is attached. *)
Definition two_waiting : World :=
  {| server := true;
     activeQueue := [createQueuedPlayer 0 "A" "sA" 1500 false;
                     createQueuedPlayer 0 "B" "sB" 1520 false];
     activeSockets := ["sA"; "sB"];
     pendingMatches := []; timers := []; nextUuid := 0%nat;
     awaiting := []; jobs := [];
     trace := [EmitAll (queue_stats 1 0); EmitAll (queue_stats 2 0)] |}.

Definition world_of (c : Completion) : World :=
  match c with Normal w => w | Abrupt _ w => w end.

(** Match 0 has been proposed to "A" and "B". *)
Definition proposed : World := run recommended proposal_events initial.

Definition proposed_match : PendingMatch :=
  {| matchId := 0%nat; expiresAt := 16000;
     player1 := mkParticipant "A" "sA" 1500 PENDING;
     player2 := mkParticipant "B" "sB" 1520 PENDING;
     timeoutId := Some 0%nat |}.

(** "A" has accepted it. *)
Definition half_accepted : World :=
  run recommended (proposal_events ++ [AcceptMatch env_free 2000 "A" 0%nat]) initial.

(** Both have accepted it; the game service has not answered yet. *)
Definition awaiting_game : World :=
  run recommended
    (proposal_events ++ [AcceptMatch env_free 2000 "A" 0%nat;
                         AcceptMatch env_free 2100 "B" 0%nat]) initial.

(** Two waiting players, the socket of the second being spelt like the
    userId of the first. *)
Definition shared_name : World :=
  run recommended
    [AddPlayer env_free 0 "a" "s1" 1500 false;
     AddPlayer env_free 0 "b" "a" 1900 false] initial.

(** ** Module shutdown *)

(** [onModuleDestroy]: the loop over [pendingMatches.values()] that
    clears the alarm of every pending match.  (The interval of the tick,
    which it clears first, is not part of the [World]: ticks are events
    from outside.) *)
Definition onModuleDestroy (w : World) : World :=
  fold_left (fun w' m => match timeoutId m with
                         | Some t => clearTimeout t w'
                         | None => w'
                         end)
            (pendingMatches w) w.

(** ** Notions used in the statements about indices, effects and the tick *)

(** The secondary indices mirror the primary ones: the active sockets are
    the sockets of the waiting players, the armed alarms are those of the
    pending matches, both in insertion order. *)
Record Mirror (w : World) : Prop := mkMirror {
  mir_sockets : activeSockets w = map socketId (activeQueue w);
  mir_timers : timers w = map matchId (pendingMatches w)
}.

(** A call of an injected collaborator that the trace records: a penalty
    given to the penalty repository, a session log given to the match
    history repository, a game asked of the game client.  The query
    [penaltyRepository.getActivePenalty] of [addPlayer] is not an
    [Effect]: its answer is read from [Env]. *)
Definition is_call (e : Effect) : bool :=
  match e with
  | Call_addPenalty _ _ _ | Call_createSessionLog _ _ _ _ _ | Call_createGame _ _ _ => true
  | _ => false
  end.

(** A call that writes to a collaborator: [addPenalty] records a penalty,
    [createSessionLog] a session, [createGame] creates a game.  The one
    call that only reads, [penaltyRepository.getActivePenalty] in
    [addPlayer], leaves no trace; what it answers is [getActivePenalty] of
    the [Env] the handler runs with. *)
Definition is_write (e : Effect) : bool :=
  match e with
  | Call_addPenalty _ _ _ => true
  | Call_createSessionLog _ _ _ _ _ => true
  | Call_createGame _ _ _ => true
  | EmitTo _ _ | EmitAll _ | ConsoleError _ => false
  end.

(** Something sent through the socket server. *)
Definition is_emission (e : Effect) : bool :=
  match e with EmitTo _ _ | EmitAll _ => true | _ => false end.

(** From [w] to [w'] the effects selected by [f] are [l], in this order,
    and none of them waits among the promise jobs. *)
Definition selects (f : Effect -> bool) (w w' : World) (l : list Effect) : Prop :=
  filter f (trace w') = filter f (trace w) ++ l
  /\ filter f (jobs w') = filter f (jobs w).

(** The penalty recorded against a participant of a cancelled match. *)
Definition penalty_call (reason : string) (p : Participant) : Effect :=
  Call_addPenalty (p_userId p) PENALTY_DURATION_SECONDS (penalty_reason reason).

Definition silent_participant (p : Participant) : bool :=
  status_eqb (status p) PENDING.

(** What a tick sends for the matches it creates, in order: to each of
    the two sockets the proposal with the other player's elo, then the
    broadcast of the statistics, the queue being two players shorter and
    the ready checks one more than before. *)
Fixpoint tick_emissions (size pending : nat) (ms : list PendingMatch) : list Effect :=
  match ms with
  | [] => []
  | m :: rest =>
      [EmitTo (p_socketId (player1 m))
         (match_proposal (matchId m) (expiresAt m) (p_elo (player2 m)));
       EmitTo (p_socketId (player2 m))
         (match_proposal (matchId m) (expiresAt m) (p_elo (player1 m)));
       EmitAll (queue_stats (size - 2) (S pending))]
      ++ tick_emissions (size - 2) (S pending) rest
  end.

(** From [w] to [w'] the only change to the waiting indices is that some
    of the participants [ps] are back at the end of the queue, as
    priority players who joined at [now]. *)
Definition requeued (now : Z) (ps : list Participant) (w w' : World) : Prop :=
  exists back,
    activeQueue w' = activeQueue w ++ back
    /\ activeSockets w' = activeSockets w ++ map socketId back
    /\ Forall (fun q => exists p, In p ps
                 /\ q = createQueuedPlayer now (p_userId p) (p_socketId p) (p_elo p) true)
              back.

(** The record of a tick from [w0] to [w]: the matches [ms] it has
    created, the players it has taken out of the queue for them, and what
    it has sent; nothing else has moved. *)
Definition tick_record (w0 w : World) : Prop :=
  server w = server w0 /\ awaiting w = awaiting w0 /\ jobs w = jobs w0
  /\ exists ms,
       pendingMatches w = pendingMatches w0 ++ ms
       /\ (List.length (activeQueue w) + 2 * List.length ms
           = List.length (activeQueue w0))%nat
       /\ trace w = trace w0
            ++ (if server w0
                then tick_emissions (List.length (activeQueue w0))
                       (List.length (pendingMatches w0)) ms
                else []).

Definition innocent (faulty : list string) (p : Participant) : bool :=
  negb (set_has (p_userId p) faulty).

(** From [w] to [w'] the only change to the waiting indices is that some
    of the participants [ps] are back at the end of the queue, put there
    by [addPlayer(userId, socketId, elo, true)] at [now]: each of them had
    no active penalty when [addPlayer] asked the penalty store ([env]), a
    socket that was not active, and was not waiting. *)
Definition taken_back (env : Env) (now : Z) (ps : list Participant) (w w' : World)
  : Prop :=
  exists back,
    activeQueue w' = activeQueue w ++ back
    /\ activeSockets w' = activeSockets w ++ map socketId back
    /\ Forall (fun q => exists p, In p ps
                 /\ getActivePenalty env (p_userId p) = None
                 /\ ~ In (p_socketId p) (activeSockets w)
                 /\ ~ In (p_userId p) (waitingUsers w)
                 /\ q = createQueuedPlayer now (p_userId p) (p_socketId p) (p_elo p) true)
              back.

(** The participants of a ready check who had accepted it. *)
Definition has_accepted (p : Participant) : bool := status_eqb (status p) ACCEPTED.

(** Nothing has been sent between [w] and [w'], and no server is
    attached in [w']. *)
Definition quiet (w w' : World) : Prop :=
  server w' = false
  /\ filter is_emission (trace w') = filter is_emission (trace w)
  /\ filter is_emission (jobs w') = filter is_emission (jobs w).

(** The penalty store an event is handled with, for the events whose
    handler consults it. *)
Definition event_env (ev : Event) : option Env :=
  match ev with
  | AddPlayer env _ _ _ _ _ | AcceptMatch env _ _ _ | DeclineMatch env _ _ _
  | TimerFires env _ _ | GameReply env _ _ _ => Some env
  | SetServer | RemovePlayer _ | Tick _ => None
  end.

(** Whoever waits in [w'] was waiting in [w] or has no active penalty in
    the store [env]. *)
Definition lets_in (env : Env) (w w' : World) : Prop :=
  forall u, In u (waitingUsers w') ->
            In u (waitingUsers w) \/ getActivePenalty env u = None.

(** The entry [q] of the queue is the entry [q0] in everything but the
    range the tick expands: the same user, socket, elo, join time and
    priority flag. *)
Definition same_entry (q0 q : QueuedPlayer) : Prop :=
  userId q0 = userId q /\ socketId q0 = socketId q /\ elo q0 = elo q
  /\ joinTime q0 = joinTime q /\ priority q0 = priority q.

(** ** The gateway (matchmaking.gateway.ts)

    The message handlers of [MatchmakingGateway], which call the service
    on behalf of a socket.  A handler returns what it sends back on the
    socket itself ([socket.emit], [socket.disconnect]) together with the
    world the service is left in; these replies come after everything the
    service call has emitted. *)

(** [socket.data], the session written by [handleConnection]. *)
Record SocketData := mkSocketData {
  data_userId : option string;
  data_elo : option Z
}.

Record Socket := mkSocket {
  socket_id : string;
  data : SocketData
}.

(** A message body ([payload: unknown]), as far as truthiness and the two
    schemas tell bodies apart.  A string in UUID format is given by the
    match identifier it spells ([MatchId] stands for all such strings,
    issued or not); an object by its properties [elo] and [matchId],
    [js_undefined] when absent. *)
Inductive JsValue :=
| js_undefined
| js_null
| js_boolean (b : bool)
| js_integer (z : Z)
| js_nan
| js_fraction
| js_text (s : string)
| js_uuid (mid : MatchId)
| js_array
| js_object (elo_property matchId_property : JsValue).

Definition truthy (v : JsValue) : bool :=
  match v with
  | js_undefined | js_null | js_boolean false | js_integer 0 | js_nan
  | js_text EmptyString => false
  | _ => true
  end.

(** [payload || {}] *)
Definition or_empty_object (payload : JsValue) : JsValue :=
  if truthy payload then payload else js_object js_undefined js_undefined.

(** [validateJoinQueue], compiled from [JoinQueueSchema]: an object whose
    [elo], when present, is an integer not below 0.  The result is the
    validated [elo] property. *)
Definition validateJoinQueue (payloadData : JsValue) : option (option Z) :=
  match payloadData with
  | js_object js_undefined _ => Some None
  | js_object (js_integer z) _ => if 0 <=? z then Some (Some z) else None
  | _ => None
  end.

(** [validateMatchDecision], compiled from [MatchDecisionSchema]: an
    object with a [matchId] that is a string in UUID format. *)
Definition validateMatchDecision (payloadData : JsValue) : option MatchId :=
  match payloadData with
  | js_object _ (js_uuid mid) => Some mid
  | _ => None
  end.

(** What a handler does to the socket of the caller.  ([details] of the
    validation error is left out of [reply_error].) *)
Inductive Reply :=
| reply_error (message : string)
| reply_queue_joined (user : string) (user_elo : Z) (timestamp : Z)
| reply_queue_left (user : string) (timestamp : Z)
| reply_disconnect.

(** [if (userId)] on [socket.data.userId]: the string, unless it is
    undefined or empty. *)
Definition session_user (socket : Socket) : option string :=
  match data_userId (data socket) with
  | Some (String c s) => Some (String c s)
  | _ => None
  end.

Definition handleDisconnect (socket : Socket) (w : World) : World :=
  match session_user socket with
  | Some userId => removePlayer userId w
  | None => w
  end.

(** [now] is the clock during the call of [addPlayer], [later] the one
    read for the timestamp of [queue_joined]. *)
Definition handleJoinQueue (env : Env) (now later : Z) (socket : Socket)
  (payload : JsValue) (w : World) : list Reply * World :=
  match session_user socket, data_elo (data socket) with
  | Some userId, Some sessionElo =>
      match validateJoinQueue (or_empty_object payload) with
      | None => ([reply_error "Invalid payload"], w)
      | Some payload_elo =>
          let effectiveElo :=
            match payload_elo with Some e => e | None => sessionElo end in
          match addPlayer env now userId (socket_id socket) effectiveElo false w with
          | (Threw message, w') => ([reply_error message], w')
          | (_, w') => ([reply_queue_joined userId effectiveElo later], w')
          end
      end
  | _, _ => ([reply_disconnect], w)
  end.

Definition handleLeaveQueue (now : Z) (socket : Socket) (w : World)
  : list Reply * World :=
  match session_user socket with
  | Some userId => ([reply_queue_left userId now], removePlayer userId w)
  | None => ([], w)
  end.

Definition handleAcceptMatch (env : Env) (now : Z) (socket : Socket)
  (payload : JsValue) (w : World) : list Reply * World :=
  match session_user socket with
  | None => ([], w)
  | Some userId =>
      match validateMatchDecision (or_empty_object payload) with
      | None => ([reply_error "Invalid payload for accept_match"], w)
      | Some mid =>
          match acceptMatch env now userId mid w with
          | (Threw message, w') => ([reply_error message], w')
          | (_, w') => ([], w')
          end
      end
  end.

Definition handleDeclineMatch (env : Env) (now : Z) (socket : Socket)
  (payload : JsValue) (w : World) : list Reply * World :=
  match session_user socket with
  | None => ([], w)
  | Some userId =>
      match validateMatchDecision (or_empty_object payload) with
      | None => ([reply_error "Invalid payload for decline_match"], w)
      | Some mid =>
          match declineMatch env now userId mid w with
          | (Threw message, w') => ([reply_error message], w')
          | (_, w') => ([], w')
          end
      end
  end.

(** ** Validation of results (decorators/validate.decorator.ts)

    How the promise of an [async] method settles. *)
Inductive Settled (A : Type) :=
| Fulfilled (value : A)
| Rejected (message : string).

Arguments Fulfilled {A} value.
Arguments Rejected {A} message.

(** [ValidateResult(schema)] around the method [originalMethod] named
    [methodName]; [validate] is the function compiled from the schema
    (the cache of compiled schemas only saves the compilation). *)
Definition ValidateResult {A B : Type} (validate : B -> bool) (methodName : string)
  (originalMethod : A -> Settled B) (args : A) : Settled B :=
  match originalMethod args with
  | Fulfilled result =>
      if validate result then Fulfilled result
      else Rejected (String.append "Data validation failed for " methodName)
  | Rejected message => Rejected message
  end.

(** ** Further scenarios *)

(** "A" (1000) and "B" (3000) join before any server is attached... *)
Definition strangers_join : list Event :=
  [AddPlayer env_free 0 "A" "sA" 1000 false;
   AddPlayer env_free 0 "B" "sB" 3000 false].

(** ... and are too far apart to be matched by the tick at 20 s. *)
Definition strangers_wait : list Event := strangers_join ++ [Tick 20000].

(** * Basic facts about the containers *)

Lemma set_has_true x s : set_has x s = true <-> In x s.
Proof.
  unfold set_has. rewrite existsb_exists. split.
  - intros [y [Hy E]]. apply String.eqb_eq in E. now subst.
  - intros H. exists x. split; [assumption | apply String.eqb_refl].
Qed.

Lemma set_has_false x s : set_has x s = false <-> ~ In x s.
Proof.
  rewrite <- set_has_true. destruct (set_has x s); split; congruence.
Qed.

Lemma queue_has_true u q : queue_has u q = true <-> In u (map userId q).
Proof.
  unfold queue_has. rewrite existsb_exists, in_map_iff. split.
  - intros [p [Hp E]]. apply String.eqb_eq in E. exists p. now split.
  - intros [p [E Hp]]. exists p. split; [assumption|]. subst. apply String.eqb_refl.
Qed.

Lemma queue_has_false u q : queue_has u q = false <-> ~ In u (map userId q).
Proof.
  rewrite <- queue_has_true. destruct (queue_has u q); split; congruence.
Qed.

Lemma isUserInPendingMatch_true u w :
  isUserInPendingMatch u w = true <-> In u (pendingUsers (pendingMatches w)).
Proof.
  unfold isUserInPendingMatch, pendingUsers. rewrite existsb_exists, in_flat_map.
  split; intros [m [Hm H]]; exists m; split; try assumption.
  - apply orb_true_iff in H. simpl.
    destruct H as [H|H]; apply String.eqb_eq in H; auto.
  - apply orb_true_iff. simpl in H.
    destruct H as [H|[H|[]]]; subst; rewrite String.eqb_refl; auto.
Qed.

Lemma isUserInPendingMatch_false u w :
  isUserInPendingMatch u w = false <-> ~ In u (pendingUsers (pendingMatches w)).
Proof.
  rewrite <- isUserInPendingMatch_true.
  destruct (isUserInPendingMatch u w); split; congruence.
Qed.

(** * addPlayer *)

Lemma addPlayer_cases env now u s e prio w :
  (exists msg, addPlayer env now u s e prio w = (Threw msg, w))
  \/ (getActivePenalty env u = None
      /\ ~ In u (waitingUsers w)
      /\ ~ In u (pendingUsers (pendingMatches w))
      /\ ~ In s (activeSockets w)
      /\ addPlayer env now u s e prio w =
         (Returned,
          emitQueueStats
            (with_activeSockets (activeSockets w ++ [s])
               (with_activeQueue
                  (activeQueue w ++ [createQueuedPlayer now u s e prio]) w)))).
Proof.
  unfold addPlayer.
  destruct (getActivePenalty env u) as [pen|]; [left; eauto|].
  destruct (queue_has u (activeQueue w)) eqn:Hq; [left; eauto|].
  destruct (isUserInPendingMatch u w) eqn:Hp; [left; eauto|].
  destruct (set_has s (activeSockets w)) eqn:Hs; [left; eauto|].
  right. apply queue_has_false in Hq. apply isUserInPendingMatch_false in Hp.
  pose proof Hs as Hs'. apply set_has_false in Hs'.
  repeat split; try assumption.
  unfold queue_set, set_add. simpl.
  apply queue_has_false in Hq. rewrite Hq. simpl. rewrite Hs. reflexivity.
Qed.

(** C6, as amended.  [addPlayer] tests its guards in the order penalty,
    duplicate user, busy socket, and the first guard that fails decides
    the error: an active penalty gives [Banned]; a user in the waiting
    index or in a pending match makes it fail, with [AlreadyQueued] unless
    the penalty guard fired first; an active socket makes it fail, with
    [SocketBusy] unless an earlier guard fired.  Whenever it fails the
    world is left exactly as it was, so no index is modified and a banned
    user is not let into the waiting index. *)
Theorem addPlayer_guards env now u s e prio w :
  let r := addPlayer env now u s e prio w in
  (getActivePenalty env u <> None -> fails_with Banned r w)
  /\ (In u (waitingUsers w) \/ In u (pendingUsers (pendingMatches w)) ->
      fails_with (fun msg => Banned msg \/ AlreadyQueued msg) r w
      /\ (getActivePenalty env u = None -> fails_with AlreadyQueued r w))
  /\ (In s (activeSockets w) ->
      fails_with (fun msg => Banned msg \/ AlreadyQueued msg \/ SocketBusy msg) r w
      /\ (getActivePenalty env u = None -> ~ In u (waitingUsers w) ->
          ~ In u (pendingUsers (pendingMatches w)) -> fails_with SocketBusy r w))
  /\ (forall msg w', r = (Threw msg, w') -> w' = w)
  /\ (getActivePenalty env u <> None ->
      activeQueue (snd r) = activeQueue w
      /\ activeSockets (snd r) = activeSockets w
      /\ pendingMatches (snd r) = pendingMatches w).
Proof.
  cbv zeta. unfold fails_with, addPlayer, waitingUsers.
  destruct (getActivePenalty env u) as [pen|] eqn:Hpen.
  - repeat split; intros; try congruence;
      try (eexists; split; [reflexivity|]; unfold Banned; eauto).
  - destruct (queue_has u (activeQueue w)) eqn:Hq.
    { apply queue_has_true in Hq.
      repeat split; intros; try congruence; try contradiction;
        try (eexists; split; [reflexivity|]; unfold AlreadyQueued; auto). }
    apply queue_has_false in Hq.
    destruct (isUserInPendingMatch u w) eqn:Hp.
    { apply isUserInPendingMatch_true in Hp.
      repeat split; intros; try congruence; try contradiction;
        try (eexists; split; [reflexivity|]; unfold AlreadyQueued; auto). }
    apply isUserInPendingMatch_false in Hp.
    destruct (set_has s (activeSockets w)) eqn:Hs.
    { apply set_has_true in Hs.
      repeat split; intros; try congruence; try tauto;
        try (eexists; split; [reflexivity|]; unfold SocketBusy; auto). }
    apply set_has_false in Hs.
    repeat split; intros; try congruence; try tauto.
Qed.

(** * The state invariant *)

Lemma same_state_refl w : same_state w w.
Proof. repeat split. Qed.

Lemma same_state_trans w1 w2 w3 :
  same_state w1 w2 -> same_state w2 w3 -> same_state w1 w3.
Proof.
  unfold same_state. intros (A1&A2&A3&A4&A5&A6&A7) (B1&B2&B3&B4&B5&B6&B7).
  repeat split; congruence.
Qed.

Lemma same_state_perform e w : same_state w (perform e w).
Proof. repeat split. Qed.

Lemma same_state_emit e w : same_state w (emit e w).
Proof. repeat split. Qed.

Lemma same_state_enqueue e w : same_state w (enqueue e w).
Proof. repeat split. Qed.

Lemma same_state_drain w : same_state w (drain w).
Proof. repeat split. Qed.

Lemma same_state_emitQueueStats w : same_state w (emitQueueStats w).
Proof. apply same_state_emit. Qed.

Lemma Inv_indices w w' :
  activeQueue w' = activeQueue w ->
  activeSockets w' = activeSockets w ->
  pendingMatches w' = pendingMatches w ->
  nextUuid w' = nextUuid w ->
  awaiting w' = awaiting w ->
  Inv w -> Inv w'.
Proof.
  intros A2 A3 A4 A6 A7 [H1 H2 H3 H4 H5 H6 H7 H8].
  constructor; unfold waitingUsers in *; rewrite ?A2, ?A3, ?A4, ?A6, ?A7; assumption.
Qed.

Lemma Inv_same_state w w' : same_state w w' -> Inv w -> Inv w'.
Proof.
  intros (A1&A2&A3&A4&A5&A6&A7). now apply Inv_indices.
Qed.

Lemma NoDup_app_iff {A} (l1 l2 : list A) :
  NoDup (l1 ++ l2) <->
  NoDup l1 /\ NoDup l2 /\ (forall a, In a l1 -> ~ In a l2).
Proof.
  split.
  - intros H. split; [eapply NoDup_app_remove_r; eauto|].
    split; [eapply NoDup_app_remove_l; eauto|].
    induction l1 as [|x l1 IH]; simpl in *; [tauto|].
    inversion H; subst. intros a [->|Ha].
    + intros Hin. apply H2. apply in_or_app. now right.
    + now apply IH.
  - intros (H1 & H2 & H3). now apply NoDup_app.
Qed.

Lemma NoDup_map_inj {A B} (f : A -> B) l x y :
  NoDup (map f l) -> In x l -> In y l -> f x = f y -> x = y.
Proof.
  induction l as [|a l IH]; simpl; [tauto|].
  intros H Hx Hy E. inversion H; subst.
  destruct Hx as [->|Hx], Hy as [->|Hy]; auto.
  - exfalso. apply H2. rewrite E. now apply in_map.
  - exfalso. apply H2. rewrite <- E. now apply in_map.
Qed.

Lemma map_userId_queue_delete u q :
  map userId (queue_delete u q) = filter (fun x => negb (String.eqb u x)) (map userId q).
Proof.
  unfold queue_delete. induction q as [|p q IH]; simpl; [reflexivity|].
  destruct (String.eqb u (userId p)); simpl; now rewrite IH.
Qed.

Lemma In_queue_delete u q x :
  In x (queue_delete u q) <-> In x q /\ userId x <> u.
Proof.
  unfold queue_delete. rewrite filter_In, negb_true_iff.
  split; intros [H1 H2]; split; auto.
  - intros E. subst. now rewrite String.eqb_refl in H2.
  - apply String.eqb_neq. congruence.
Qed.

Lemma queue_get_some u q p :
  queue_get u q = Some p -> In p q /\ userId p = u.
Proof.
  unfold queue_get. intros H. apply find_some in H. destruct H as [H1 H2].
  apply String.eqb_eq in H2. auto.
Qed.

Lemma queue_get_none u q : queue_get u q = None <-> ~ In u (map userId q).
Proof.
  unfold queue_get. split.
  - intros H Hin. apply in_map_iff in Hin. destruct Hin as [p [E Hp]].
    pose proof (find_none _ _ H p Hp) as F. simpl in F.
    subst. now rewrite String.eqb_refl in F.
  - intros H. destruct (find _ q) as [p|] eqn:F; [|reflexivity].
    apply find_some in F. destruct F as [F1 F2]. apply String.eqb_eq in F2.
    exfalso. apply H. subst. now apply in_map.
Qed.

Lemma queue_get_in u q :
  In u (map userId q) -> exists p, queue_get u q = Some p.
Proof.
  intros H. destruct (queue_get u q) as [p|] eqn:E; [eauto|].
  apply queue_get_none in E. contradiction.
Qed.

Lemma In_sockets_queue_delete u q p s :
  NoDup (map userId q) -> NoDup (map socketId q) ->
  In p q -> userId p = u ->
  (In s (map socketId (queue_delete u q)) <->
   In s (map socketId q) /\ s <> socketId p).
Proof.
  intros Hu Hs Hp E. rewrite !in_map_iff. split.
  - intros [x [Ex Hx]]. apply In_queue_delete in Hx. destruct Hx as [Hx Hne].
    split; [eauto|]. intros E'. apply Hne.
    assert (x = p) by (apply (NoDup_map_inj socketId q); auto; congruence).
    now subst.
  - intros [[x [Ex Hx]] Hne]. exists x. split; [assumption|].
    apply In_queue_delete. split; [assumption|]. intros E'.
    assert (x = p) by (apply (NoDup_map_inj userId q); auto; congruence).
    subst. congruence.
Qed.

Lemma In_set_delete x s y : In y (set_delete x s) <-> In y s /\ y <> x.
Proof.
  unfold set_delete. rewrite filter_In, negb_true_iff. split; intros [H1 H2]; split; auto.
  - intros E. subst. now rewrite String.eqb_refl in H2.
  - apply String.eqb_neq. congruence.
Qed.

Lemma NoDup_map_filter {A B} (f : A -> B) g l :
  NoDup (map f l) -> NoDup (map f (filter g l)).
Proof.
  induction l as [|a l IH]; simpl; [auto|]. intros H. inversion H; subst.
  destruct (g a); simpl; auto. constructor; auto.
  intros Hin. apply H2. apply in_map_iff in Hin. destruct Hin as [x [E Hx]].
  apply filter_In in Hx. rewrite <- E. apply in_map. tauto.
Qed.

Lemma In_pendingUsers u l :
  In u (pendingUsers l) <-> exists m, In m l /\ In u (participants m).
Proof. unfold pendingUsers. apply in_flat_map. Qed.

Lemma NoDup_flat_map_filter {A B} (f : A -> list B) g l :
  NoDup (flat_map f l) -> NoDup (flat_map f (filter g l)).
Proof.
  induction l as [|a l IH]; simpl; [auto|]. intros H.
  apply NoDup_app_iff in H. destruct H as (H1 & H2 & H3).
  destruct (g a); simpl; auto.
  apply NoDup_app_iff. repeat split; auto.
  intros x Hx Hin. apply (H3 x Hx).
  apply in_flat_map in Hin. destruct Hin as [y [Hy Hxy]].
  apply filter_In in Hy. apply in_flat_map. exists y. tauto.
Qed.

Lemma In_flat_map_filter {A B} (f : A -> list B) g l x :
  In x (flat_map f (filter g l)) -> In x (flat_map f l).
Proof.
  rewrite !in_flat_map. intros [y [Hy Hxy]]. apply filter_In in Hy. exists y. tauto.
Qed.

(** ** How the invariant moves with the indices *)

Lemma Inv_player_added w w' p :
  Inv w ->
  ~ In (userId p) (waitingUsers w) ->
  ~ In (userId p) (pendingUsers (pendingMatches w)) ->
  ~ In (socketId p) (activeSockets w) ->
  activeQueue w' = activeQueue w ++ [p] ->
  activeSockets w' = activeSockets w ++ [socketId p] ->
  pendingMatches w' = pendingMatches w ->
  nextUuid w' = nextUuid w ->
  awaiting w' = awaiting w ->
  Inv w'.
Proof.
  intros [H1 H2 H3 H4 H5 H6 H7 H8] Hq Hp Hs Eq Es Ep En Ea.
  unfold waitingUsers in *.
  constructor; unfold waitingUsers; rewrite ?Eq, ?Es, ?Ep, ?En, ?Ea; auto.
  - rewrite map_app. simpl. rewrite <- app_assoc. simpl.
    apply NoDup_app_iff in H1. destruct H1 as (U1 & U2 & U3).
    apply NoDup_app_iff. repeat split; auto.
    + constructor; auto.
    + intros a Ha [E|Hin]; [subst; contradiction|]. now apply (U3 a).
  - rewrite map_app. simpl. apply NoDup_app_iff. repeat split; auto.
    + constructor; [tauto|constructor].
    + intros a Ha [E|[]]. subst. apply Hs. now apply H3.
  - intros s. rewrite map_app, !in_app_iff, H3. reflexivity.
Qed.

Lemma Inv_player_removed w w' u p :
  Inv w ->
  queue_get u (activeQueue w) = Some p ->
  activeQueue w' = queue_delete u (activeQueue w) ->
  activeSockets w' = set_delete (socketId p) (activeSockets w) ->
  pendingMatches w' = pendingMatches w ->
  nextUuid w' = nextUuid w ->
  awaiting w' = awaiting w ->
  Inv w'.
Proof.
  intros [H1 H2 H3 H4 H5 H6 H7 H8] Hg Eq Es Ep En Ea.
  apply queue_get_some in Hg. destruct Hg as [Hin Hu].
  unfold waitingUsers in *.
  assert (Hnu : NoDup (map userId (activeQueue w)))
    by (eapply NoDup_app_remove_r; eauto).
  constructor; unfold waitingUsers; rewrite ?Eq, ?Es, ?Ep, ?En, ?Ea; auto.
  - apply NoDup_app_iff in H1. destruct H1 as (U1 & U2 & U3).
    apply NoDup_app_iff. repeat split; auto.
    + unfold queue_delete. now apply NoDup_map_filter.
    + intros a Ha. apply U3. apply in_map_iff in Ha. destruct Ha as [x [E Hx]].
      apply In_queue_delete in Hx. rewrite <- E. apply in_map. tauto.
  - unfold queue_delete. now apply NoDup_map_filter.
  - intros s. rewrite In_set_delete, H3.
    symmetry. now apply In_sockets_queue_delete.
Qed.

Lemma In_pending_delete mid l m :
  In m (pending_delete mid l) <-> In m l /\ matchId m <> mid.
Proof.
  unfold pending_delete. rewrite filter_In, negb_true_iff, Nat.eqb_neq.
  split; intros [A B]; split; auto.
Qed.

Lemma Inv_pending_removed w w' mid aw :
  Inv w ->
  activeQueue w' = activeQueue w ->
  activeSockets w' = activeSockets w ->
  pendingMatches w' = pending_delete mid (pendingMatches w) ->
  nextUuid w' = nextUuid w ->
  awaiting w' = awaiting w ++ aw ->
  Forall (fun a => matchId a = mid /\ (mid < nextUuid w)%nat) aw ->
  Inv w'.
Proof.
  intros [H1 H2 H3 H4 H5 H6 H7 H8] Eq Es Ep En Ea Haw.
  unfold waitingUsers in *.
  constructor; unfold waitingUsers; rewrite ?Eq, ?Es, ?Ep, ?En, ?Ea; auto.
  - apply NoDup_app_iff in H1. destruct H1 as (U1 & U2 & U3).
    apply NoDup_app_iff. repeat split; auto.
    + unfold pendingUsers, pending_delete. now apply NoDup_flat_map_filter.
    + intros a Ha Hin. apply (U3 a Ha).
      unfold pendingUsers, pending_delete in Hin.
      now apply In_flat_map_filter in Hin.
  - unfold pending_delete. now apply NoDup_map_filter.
  - rewrite Forall_forall in *. intros m Hm.
    apply In_pending_delete in Hm. apply H5. tauto.
  - apply Forall_app. split; [assumption|].
    rewrite Forall_forall in *. intros a Ha. destruct (Haw a Ha). lia.
  - intros m a Hm Ha. apply In_pending_delete in Hm. destruct Hm as [Hm Hne].
    apply in_app_iff in Ha. destruct Ha as [Ha|Ha]; [now apply H7|].
    rewrite Forall_forall in Haw. destruct (Haw a Ha). congruence.
  - rewrite Forall_forall in *. intros m Hm.
    apply In_pending_delete in Hm. apply H8. tauto.
Qed.

(** ** Every handler keeps the invariant *)

Lemma Inv_initial : Inv initial.
Proof.
  constructor; simpl; try constructor; try tauto.
Qed.

Lemma Inv_addPlayer env now u s e prio w :
  Inv w -> Inv (snd (addPlayer env now u s e prio w)).
Proof.
  intros H.
  destruct (addPlayer_cases env now u s e prio w)
    as [[msg E] | (_ & Hq & Hp & Hs & E)]; rewrite E; simpl; [assumption|].
  eapply (Inv_player_added w _ (createQueuedPlayer now u s e prio)); eauto.
Qed.

Lemma Inv_removePlayer identifier w : Inv w -> Inv (removePlayer identifier w).
Proof.
  intros H. unfold removePlayer.
  match goal with |- context [queue_get ?t _] => set (targetId := t) end.
  destruct (queue_get targetId (activeQueue w)) as [player|] eqn:G; [|assumption].
  eapply (Inv_player_removed w _ targetId player); eauto.
Qed.

Lemma Inv_requeue env now line p w : Inv w -> Inv (requeue env now line p w).
Proof.
  intros H. unfold requeue.
  pose proof (Inv_addPlayer env now (p_userId p) (p_socketId p) (p_elo p) true w H) as Ha.
  destruct (addPlayer env now (p_userId p) (p_socketId p) (p_elo p) true w)
    as [[| msg |] w1]; simpl in Ha; try assumption.
  eapply Inv_same_state; [apply same_state_enqueue | assumption].
Qed.

Lemma Inv_emit e w : Inv w -> Inv (emit e w).
Proof. apply Inv_same_state, same_state_emit. Qed.

Lemma Inv_perform e w : Inv w -> Inv (perform e w).
Proof. apply Inv_same_state, same_state_perform. Qed.

Lemma Inv_emitQueueStats w : Inv w -> Inv (emitQueueStats w).
Proof. apply Inv_same_state, same_state_emitQueueStats. Qed.

Lemma Inv_drain w : Inv w -> Inv (drain w).
Proof. apply Inv_same_state, same_state_drain. Qed.

Lemma Inv_clearTimeout t w : Inv w -> Inv (clearTimeout t w).
Proof. now apply Inv_indices. Qed.

Lemma fold_left_Inv {A} (f : World -> A -> World) l w :
  (forall w a, Inv w -> Inv (f w a)) -> Inv w -> Inv (fold_left f l w).
Proof.
  intros Hf. revert w. induction l as [|a l IH]; simpl; auto.
Qed.

Lemma Inv_detach m w :
  Inv w ->
  Inv (with_pendingMatches
         (pending_delete (matchId m)
            (pendingMatches
               (match timeoutId m with Some t => clearTimeout t w | None => w end)))
         (match timeoutId m with Some t => clearTimeout t w | None => w end)).
Proof.
  intros H.
  eapply (Inv_pending_removed w _ (matchId m) []); eauto;
    destruct (timeoutId m); simpl; auto using app_nil_r.
Qed.

Lemma Inv_cancelMatch env now m faulty reason w :
  Inv w -> Inv (cancelMatch env now m faulty reason w).
Proof.
  intros H. unfold cancelMatch.
  apply Inv_emitQueueStats. apply fold_left_Inv; [|now apply Inv_detach].
  clear. intros w p H. unfold cancel_participant.
  destruct (set_has (p_userId p) _).
  - apply Inv_emit. destruct (addPenalty_throws env (p_userId p));
      repeat apply Inv_perform; assumption.
  - repeat apply Inv_emit. now apply Inv_requeue.
Qed.

Lemma Inv_declineMatch env now u mid w :
  Inv w -> Inv (snd (declineMatch env now u mid w)).
Proof.
  intros H. unfold declineMatch.
  destruct (pending_get mid (pendingMatches w)) as [m|]; [|assumption].
  destruct (_ && _); simpl; [assumption|]. now apply Inv_cancelMatch.
Qed.

Lemma Inv_handleMatchTimeout env now mid w :
  Inv w -> Inv (handleMatchTimeout env now mid w).
Proof.
  intros H. unfold handleMatchTimeout.
  destruct (pending_get mid (pendingMatches w)) as [m|]; [|assumption].
  now apply Inv_cancelMatch.
Qed.

Lemma Inv_handleGameCreationFailure env now m code msg w :
  Inv w -> Inv (handleGameCreationFailure env now m code msg w).
Proof.
  intros H. unfold handleGameCreationFailure.
  apply fold_left_Inv; [|now repeat apply Inv_emit].
  clear. intros w p H. apply Inv_emit. now apply Inv_requeue.
Qed.

Lemma Inv_handleGameCreationSuccess m g w :
  Inv w -> Inv (handleGameCreationSuccess m g w).
Proof.
  intros H. unfold handleGameCreationSuccess.
  destruct (negb (server w)); [assumption|]. now repeat apply Inv_perform.
Qed.

Lemma Inv_finalizeMatch_resume env now m r w :
  Inv w -> Inv (finalizeMatch_resume env now m r w).
Proof.
  intros H. unfold finalizeMatch_resume. apply Inv_emitQueueStats.
  destruct r; [now apply Inv_handleGameCreationSuccess
              | now apply Inv_handleGameCreationFailure].
Qed.

Lemma Inv_reply_taken mid w :
  Inv w -> Inv (with_awaiting (pending_delete mid (awaiting w)) w).
Proof.
  intros [H1 H2 H3 H4 H5 H6 H7 H8]. constructor; simpl; auto.
  - rewrite Forall_forall in *. intros a Ha. apply In_pending_delete in Ha.
    apply H6. tauto.
  - intros m a Hm Ha. apply In_pending_delete in Ha. apply H7; tauto.
Qed.

Lemma pending_get_some mid l m :
  pending_get mid l = Some m -> In m l /\ matchId m = mid.
Proof.
  unfold pending_get. intros H. apply find_some in H. destruct H as [H1 H2].
  apply Nat.eqb_eq in H2. auto.
Qed.

Lemma pending_get_none mid l :
  pending_get mid l = None <-> ~ In mid (map matchId l).
Proof.
  unfold pending_get. split.
  - intros H Hin. apply in_map_iff in Hin. destruct Hin as [m [E Hm]].
    pose proof (find_none _ _ H m Hm) as F. simpl in F.
    subst. now rewrite Nat.eqb_refl in F.
  - intros H. destruct (find _ l) as [m|] eqn:F; [|reflexivity].
    apply find_some in F. destruct F as [F1 F2]. apply Nat.eqb_eq in F2.
    exfalso. apply H. subst. now apply in_map.
Qed.

Lemma pending_delete_replace m' l :
  pending_delete (matchId m') (pending_replace m' l) = pending_delete (matchId m') l.
Proof.
  unfold pending_delete, pending_replace.
  induction l as [|x l IH]; simpl; [reflexivity|].
  destruct (Nat.eqb (matchId m') (matchId x)) eqn:E; simpl.
  - rewrite Nat.eqb_refl. simpl. apply IH.
  - rewrite E. simpl. now rewrite IH.
Qed.

Lemma map_matchId_pending_replace m' l :
  map matchId (pending_replace m' l) = map matchId l.
Proof.
  unfold pending_replace. induction l as [|x l IH]; simpl; [reflexivity|].
  rewrite IH. destruct (Nat.eqb (matchId m') (matchId x)) eqn:E; [|reflexivity].
  apply Nat.eqb_eq in E. now rewrite E.
Qed.

Lemma In_pending_replace m' l x :
  In x (pending_replace m' l) ->
  x = m' \/ (In x l /\ matchId x <> matchId m').
Proof.
  unfold pending_replace. rewrite in_map_iff. intros [y [E Hy]].
  destruct (Nat.eqb (matchId m') (matchId y)) eqn:F; [left; auto|].
  right. subst. apply Nat.eqb_neq in F. auto.
Qed.

Lemma pendingUsers_pending_replace m m' l :
  NoDup (map matchId l) -> In m l -> matchId m' = matchId m ->
  participants m' = participants m ->
  pendingUsers (pending_replace m' l) = pendingUsers l.
Proof.
  intros Hnd Hm Eid Ep. unfold pendingUsers, pending_replace.
  rewrite !flat_map_concat_map, map_map. f_equal.
  apply map_ext_in. intros x Hx.
  destruct (Nat.eqb (matchId m') (matchId x)) eqn:F; [|reflexivity].
  apply Nat.eqb_eq in F.
  assert (x = m) by (apply (NoDup_map_inj matchId l); auto; congruence).
  now subst.
Qed.

Lemma Inv_pending_replaced w w' m m' :
  Inv w ->
  In m (pendingMatches w) -> matchId m' = matchId m ->
  participants m' = participants m -> open_match m' ->
  activeQueue w' = activeQueue w ->
  activeSockets w' = activeSockets w ->
  pendingMatches w' = pending_replace m' (pendingMatches w) ->
  nextUuid w' = nextUuid w ->
  awaiting w' = awaiting w ->
  Inv w'.
Proof.
  intros [H1 H2 H3 H4 H5 H6 H7 H8] Hm Eid Epart Hopen Eq Es Ep En Ea.
  unfold waitingUsers in *.
  constructor; unfold waitingUsers; rewrite ?Eq, ?Es, ?Ep, ?En, ?Ea; auto.
  - now rewrite (pendingUsers_pending_replace m m').
  - now rewrite map_matchId_pending_replace.
  - rewrite Forall_forall in *. intros x Hx.
    apply In_pending_replace in Hx. destruct Hx as [->|[Hx _]]; auto.
    rewrite Eid. auto.
  - intros x a Hx Ha. apply In_pending_replace in Hx.
    destruct Hx as [->|[Hx _]]; auto. rewrite Eid. auto.
  - rewrite Forall_forall in *. intros x Hx.
    apply In_pending_replace in Hx. destruct Hx as [->|[Hx _]]; auto.
Qed.

Lemma finalizeMatch_fields env now m w :
  let w' := finalizeMatch env now m w in
  server w' = server w
  /\ activeQueue w' = activeQueue w
  /\ activeSockets w' = activeSockets w
  /\ pendingMatches w' = pending_delete (matchId m) (pendingMatches w)
  /\ nextUuid w' = nextUuid w
  /\ awaiting w' = awaiting w ++ [m]
  /\ jobs w' = jobs w
  /\ (forall t, In t (timers w') -> In t (timers w) /\ timeoutId m <> Some t).
Proof.
  unfold finalizeMatch.
  destruct (timeoutId m) as [t0|]; destruct (createSessionLog_throws env); simpl;
    repeat split; auto; try congruence;
    try (apply filter_In in H; tauto);
    try (intros E; apply filter_In in H; destruct H as [_ H];
         inversion E; subst; rewrite Nat.eqb_refl in H; discriminate).
Qed.

Lemma status_eqb_eq a b : status_eqb a b = true <-> a = b.
Proof. destruct a, b; simpl; split; congruence. Qed.

Lemma Inv_acceptMatch env now u mid w :
  Inv w -> Inv (snd (acceptMatch env now u mid w)).
Proof.
  intros H. unfold acceptMatch.
  destruct (pending_get mid (pendingMatches w)) as [m|] eqn:G; [|assumption].
  apply pending_get_some in G. destruct G as [Hm Hid].
  assert (Hopen : open_match m).
  { destruct H. rewrite Forall_forall in inv_open0. auto. }
  destruct Hopen as (O1 & O2 & O3 & O4 & O5).
  assert (Hwf : (matchId m < nextUuid w)%nat).
  { destruct H. rewrite Forall_forall in inv_fresh0. auto. }
  cbv zeta.
  destruct (String.eqb (p_userId (player1 m)) u);
    [|destruct (String.eqb (p_userId (player2 m)) u); [|assumption]].
  - destruct (status (player1 m)) eqn:S1; simpl; try assumption.
    destruct (status (player2 m)) eqn:S2; simpl.
    + eapply (Inv_pending_replaced w _ m
                (with_player1 (with_status ACCEPTED (player1 m)) m));
        eauto; try reflexivity.
      unfold open_match; simpl. rewrite S2. auto.
    + set (m' := with_player1 (with_status ACCEPTED (player1 m)) m).
      set (w1 := with_pendingMatches (pending_replace m' (pendingMatches w)) w).
      destruct (finalizeMatch_fields env now m' w1) as (_ & F2 & F3 & F4 & F5 & F6 & _).
      eapply (Inv_pending_removed w _ (matchId m) [m']); eauto.
      rewrite F4. apply (pending_delete_replace m').
    + destruct O2; discriminate.
  - destruct (status (player2 m)) eqn:S2; simpl; try assumption.
    destruct (status (player1 m)) eqn:S1; simpl.
    + eapply (Inv_pending_replaced w _ m
                (with_player2 (with_status ACCEPTED (player2 m)) m));
        eauto; try reflexivity.
      unfold open_match; simpl. rewrite S1. auto.
    + set (m' := with_player2 (with_status ACCEPTED (player2 m)) m).
      set (w1 := with_pendingMatches (pending_replace m' (pendingMatches w)) w).
      destruct (finalizeMatch_fields env now m' w1) as (_ & F2 & F3 & F4 & F5 & F6 & _).
      eapply (Inv_pending_removed w _ (matchId m) [m']); eauto.
      rewrite F4. apply (pending_delete_replace m').
    + destruct O1; discriminate.
Qed.

Lemma queue_get_delete_neq u v q :
  u <> v -> queue_get u (queue_delete v q) = queue_get u q.
Proof.
  intros Hne. unfold queue_get, queue_delete.
  induction q as [|p q IH]; simpl; [reflexivity|].
  destruct (String.eqb v (userId p)) eqn:E; simpl.
  - apply String.eqb_eq in E. subst.
    assert (F : String.eqb u (userId p) = false) by now apply String.eqb_neq.
    now rewrite F.
  - destruct (String.eqb u (userId p)); auto.
Qed.

Lemma not_In_queue_delete u q : ~ In u (map userId (queue_delete u q)).
Proof.
  rewrite in_map_iff. intros [p [E Hp]]. apply In_queue_delete in Hp. tauto.
Qed.

Lemma In_users_queue_delete u v q :
  In u (map userId (queue_delete v q)) -> In u (map userId q) /\ u <> v.
Proof.
  rewrite !in_map_iff. intros [p [E Hp]]. apply In_queue_delete in Hp.
  split; [exists p; tauto | subst; tauto].
Qed.

Lemma Inv_pending_added w w' pm :
  Inv w ->
  matchId pm = nextUuid w ->
  status (player1 pm) = PENDING -> status (player2 pm) = PENDING ->
  p_userId (player1 pm) <> p_userId (player2 pm) ->
  p_socketId (player1 pm) <> p_socketId (player2 pm) ->
  timeoutId pm = Some (matchId pm) ->
  (forall u, In u (participants pm) ->
             ~ In u (waitingUsers w) /\ ~ In u (pendingUsers (pendingMatches w))) ->
  activeQueue w' = activeQueue w ->
  activeSockets w' = activeSockets w ->
  pendingMatches w' = pending_set pm (pendingMatches w) ->
  nextUuid w' = S (nextUuid w) ->
  awaiting w' = awaiting w ->
  Inv w'.
Proof.
  intros [H1 H2 H3 H4 H5 H6 H7 H8] Eid S1 S2 Hne Hsk Htm Hnew Eq Es Ep En Ea.
  assert (Hfresh : forall x, In x (pendingMatches w) -> matchId x <> matchId pm).
  { intros x Hx. rewrite Forall_forall in H5. specialize (H5 x Hx). lia. }
  assert (Eset : pending_set pm (pendingMatches w) = pendingMatches w ++ [pm]).
  { unfold pending_set.
    destruct (existsb _ (pendingMatches w)) eqn:E; [|reflexivity].
    apply existsb_exists in E. destruct E as [x [Hx E]].
    apply Nat.eqb_eq in E. exfalso. apply (Hfresh x Hx). congruence. }
  rewrite Eset in Ep.
  unfold waitingUsers in *.
  constructor; unfold waitingUsers; rewrite ?Eq, ?Es, ?Ep, ?En, ?Ea; auto.
  - unfold pendingUsers. rewrite flat_map_app.
    fold (pendingUsers (pendingMatches w)). rewrite app_assoc.
    change (flat_map participants [pm]) with (participants pm ++ []).
    rewrite app_nil_r. unfold participants at 1.
    apply NoDup_app_iff. repeat split; auto.
    + constructor; [simpl; intuition congruence|]. constructor; [simpl; tauto|constructor].
    + intros a Ha Hin. apply in_app_iff in Ha.
      destruct (Hnew a Hin) as [N1 N2]. tauto.
  - rewrite map_app. simpl. apply NoDup_app_iff. repeat split; auto.
    + constructor; [simpl; tauto|constructor].
    + intros a Ha [E|[]]. apply in_map_iff in Ha. destruct Ha as [x [Ex Hx]].
      apply (Hfresh x Hx). congruence.
  - apply Forall_app. split.
    + eapply Forall_impl; [|exact H5]. simpl. intros; lia.
    + constructor; [lia|constructor].
  - eapply Forall_impl; [|exact H6]. simpl. intros; lia.
  - intros m a Hm Ha. apply in_app_iff in Hm. destruct Hm as [Hm|[<-|[]]]; auto.
    rewrite Forall_forall in H6. specialize (H6 a Ha). lia.
  - apply Forall_app. split; [assumption|]. constructor; [|constructor].
    unfold open_match. rewrite S1, S2. auto.
Qed.

Lemma Inv_handleMatchFound now p1 p2 q1 q2 w :
  Inv w ->
  queue_get (userId p1) (activeQueue w) = Some q1 -> socketId q1 = socketId p1 ->
  queue_get (userId p2) (activeQueue w) = Some q2 -> socketId q2 = socketId p2 ->
  userId p1 <> userId p2 ->
  Inv (handleMatchFound now p1 p2 w).
Proof.
  intros H G1 E1 G2 E2 Hne.
  set (wa := with_activeSockets (set_delete (socketId p1) (activeSockets w))
               (with_activeQueue (queue_delete (userId p1) (activeQueue w)) w)).
  assert (Ha : Inv wa).
  { eapply (Inv_player_removed w wa (userId p1) q1); eauto.
    simpl. now rewrite E1. }
  set (wb := with_activeSockets (set_delete (socketId p2) (activeSockets wa))
               (with_activeQueue (queue_delete (userId p2) (activeQueue wa)) wa)).
  assert (Hb : Inv wb).
  { eapply (Inv_player_removed wa wb (userId p2) q2); eauto.
    - simpl. rewrite queue_get_delete_neq; auto.
    - simpl. now rewrite E2. }
  pose proof (inv_users w H) as Hu. apply NoDup_app_iff in Hu.
  destruct Hu as (_ & _ & Hdisj).
  apply queue_get_some in G1, G2. destruct G1 as [I1 U1], G2 as [I2 U2].
  eapply (Inv_pending_added wb _
            {| matchId := nextUuid w; expiresAt := now + MATCH_ACCEPT_TIMEOUT_MS;
               player1 := mkParticipant (userId p1) (socketId p1) (elo p1) PENDING;
               player2 := mkParticipant (userId p2) (socketId p2) (elo p2) PENDING;
               timeoutId := Some (nextUuid w) |}); eauto; try reflexivity.
  { simpl. intros Es. apply Hne.
    assert (q1 = q2)
      by (apply (NoDup_map_inj socketId (activeQueue w));
          auto using inv_sockets; congruence).
    congruence. }
  simpl. intros u [<-|[<-|[]]]; split.
  - unfold waitingUsers, wb, wa. simpl. intros Hin.
    apply In_users_queue_delete in Hin. destruct Hin as [Hin _].
    now apply not_In_queue_delete in Hin.
  - apply Hdisj. unfold waitingUsers. rewrite <- U1. now apply in_map.
  - unfold waitingUsers, wb, wa. simpl. apply not_In_queue_delete.
  - apply Hdisj. unfold waitingUsers. rewrite <- U2. now apply in_map.
Qed.

Lemma In_set_add x y s : In x (set_add y s) <-> x = y \/ In x s.
Proof.
  unfold set_add. destruct (set_has y s) eqn:E.
  - apply set_has_true in E. split; [auto|]. intros [->|H]; auto.
  - rewrite in_app_iff. simpl. intuition.
Qed.

Lemma map_userId_queue_replace p q :
  map userId (queue_replace p q) = map userId q.
Proof.
  unfold queue_replace. rewrite map_map. apply map_ext. intros x.
  destruct (String.eqb (userId p) (userId x)) eqn:E; [|reflexivity].
  now apply String.eqb_eq in E.
Qed.

Lemma map_socketId_queue_replace p q :
  (forall x, In x q -> userId x = userId p -> socketId x = socketId p) ->
  map socketId (queue_replace p q) = map socketId q.
Proof.
  intros H. unfold queue_replace. rewrite map_map. apply map_ext_in. intros x Hx.
  destruct (String.eqb (userId p) (userId x)) eqn:E; [|reflexivity].
  apply String.eqb_eq in E. symmetry. auto.
Qed.

Lemma queue_get_replace u p q :
  queue_get u (queue_replace p q) =
  match queue_get u q with
  | Some x => Some (if String.eqb (userId p) (userId x) then p else x)
  | None => None
  end.
Proof.
  unfold queue_get, queue_replace. induction q as [|x q IH]; simpl; [reflexivity|].
  destruct (String.eqb (userId p) (userId x)) eqn:E.
  - apply String.eqb_eq in E. rewrite <- E.
    destruct (String.eqb u (userId p)); [|exact IH].
    now rewrite E, String.eqb_refl.
  - destruct (String.eqb u (userId x)); [|exact IH]. now rewrite E.
Qed.

Lemma Inv_queue_replaced p w :
  Inv w ->
  (forall x, In x (activeQueue w) -> userId x = userId p -> socketId x = socketId p) ->
  Inv (with_activeQueue (queue_replace p (activeQueue w)) w).
Proof.
  intros [H1 H2 H3 H4 H5 H6 H7 H8] Hs. unfold waitingUsers in *.
  constructor; unfold waitingUsers; simpl;
    rewrite ?map_userId_queue_replace, ?map_socketId_queue_replace; auto.
Qed.

Section MatcherFacts.

Variable cfg : Constants.

Lemma userId_expand now p : userId (expand cfg now p) = userId p.
Proof. unfold expand. destruct (_ >? _); reflexivity. Qed.

Lemma socketId_expand now p : socketId (expand cfg now p) = socketId p.
Proof. unfold expand. destruct (_ >? _); reflexivity. Qed.

Lemma elo_expand now p : elo (expand cfg now p) = elo p.
Proof. unfold expand. destruct (_ >? _); reflexivity. Qed.

Lemma priority_expand now p : priority (expand cfg now p) = priority p.
Proof. unfold expand. destruct (_ >? _); reflexivity. Qed.

Lemma scan_some playerA later matchedIds playerB :
  scan cfg playerA later matchedIds = Some playerB ->
  In playerB later /\ ~ In (userId playerB) matchedIds
  /\ compatible cfg playerA playerB = true.
Proof.
  induction later as [|c later IH]; simpl; [discriminate|].
  destruct (set_has (userId c) matchedIds) eqn:Hm.
  - intros H. destruct (IH H) as (A & B & C). auto.
  - destruct (compatible cfg playerA c) eqn:Hc.
    + intros E. inversion E; subst. apply set_has_false in Hm. auto.
    + intros H. destruct (IH H) as (A & B & C). auto.
Qed.

Lemma activeQueue_handleMatchFound now p1 p2 w :
  activeQueue (handleMatchFound now p1 p2 w) =
  queue_delete (userId p2) (queue_delete (userId p1) (activeQueue w)).
Proof. reflexivity. Qed.

Lemma Inv_pairing now candidates : forall matchedIds w,
  Inv w ->
  NoDup (map userId candidates) ->
  Forall (live w matchedIds) candidates ->
  Inv (pairing cfg now candidates matchedIds w).
Proof.
  induction candidates as [|a0 later IH]; intros matchedIds w HI Hnd Hlive;
    simpl; [assumption|].
  inversion Hnd as [|? ? Hnotin Hnd']; subst.
  inversion Hlive as [|? ? Ha0 Hlater]; subst.
  destruct (set_has (userId a0) matchedIds) eqn:Hm; [now apply IH|].
  apply set_has_false in Hm. destruct (Ha0 Hm) as [qa [Gq Sq]].
  set (a := expand cfg now a0).
  assert (Ua : userId a = userId a0) by apply userId_expand.
  assert (Sa : socketId a = socketId a0) by apply socketId_expand.
  set (w1 := with_activeQueue (queue_replace a (activeQueue w)) w).
  assert (HI1 : Inv w1).
  { apply Inv_queue_replaced; [assumption|]. intros x Hx Ux.
    pose proof (inv_users w HI) as Hu. apply NoDup_app_remove_r in Hu.
    apply queue_get_some in Gq. destruct Gq as [Iq Uq].
    assert (x = qa) by (apply (NoDup_map_inj userId (activeQueue w)); auto; congruence).
    subst. congruence. }
  assert (Hlive1 : Forall (live w1 matchedIds) later).
  { rewrite Forall_forall in *. intros c Hc Hnm.
    destruct (Hlater c Hc Hnm) as [q [G S]].
    unfold w1. simpl. rewrite queue_get_replace, G.
    eexists. split; [reflexivity|].
    destruct (String.eqb (userId a) (userId q)) eqn:E; [|assumption].
    apply String.eqb_eq in E. apply queue_get_some in G. destruct G as [_ G].
    exfalso. apply Hnotin. rewrite <- Ua, E, G. now apply in_map. }
  destruct (scan cfg a later matchedIds) as [b|] eqn:Hscan; [|now apply IH].
  apply scan_some in Hscan. destruct Hscan as (Hb & Hbm & _).
  assert (Hab : userId a <> userId b).
  { intros E. apply Hnotin. rewrite <- Ua, E. now apply in_map. }
  assert (Ga : exists q, queue_get (userId a) (activeQueue w1) = Some q
                         /\ socketId q = socketId a).
  { unfold w1. simpl. rewrite queue_get_replace, Ua, Gq.
    eexists. split; [reflexivity|].
    apply queue_get_some in Gq. destruct Gq as [_ Uq].
    rewrite Uq, String.eqb_refl. reflexivity. }
  destruct Ga as [qa' [Ga Sa']].
  rewrite Forall_forall in Hlive1.
  destruct (Hlive1 b Hb Hbm) as [qb [Gb Sb]].
  apply IH; [eapply Inv_handleMatchFound; eauto | assumption |].
  rewrite Forall_forall. intros c Hc Hnm.
  assert (Hc1 : ~ In (userId c) matchedIds).
  { intros F. apply Hnm. apply In_set_add. right. apply In_set_add. now right. }
  assert (Hca : userId c <> userId a).
  { intros F. apply Hnm. apply In_set_add. right. apply In_set_add. now left. }
  assert (Hcb : userId c <> userId b).
  { intros F. apply Hnm. apply In_set_add. now left. }
  destruct (Hlive1 c Hc Hc1) as [q [G S]].
  exists q. split; [|assumption].
  rewrite activeQueue_handleMatchFound, !queue_get_delete_neq; auto.
Qed.

Lemma sort_insert_perm x l : Permutation (x :: l) (sort_insert x l).
Proof.
  induction l as [|y l IH]; simpl; [apply Permutation_refl|].
  destruct (compare_candidates x y <=? 0); [apply Permutation_refl|].
  eapply Permutation_trans; [apply perm_swap|]. now apply perm_skip.
Qed.

Lemma sort_candidates_perm l : Permutation l (sort_candidates l).
Proof.
  induction l as [|x l IH]; simpl; [apply perm_nil|].
  eapply Permutation_trans; [|apply sort_insert_perm]. now apply perm_skip.
Qed.

Lemma queue_get_member q c :
  NoDup (map userId q) -> In c q -> queue_get (userId c) q = Some c.
Proof.
  intros Hnd Hc.
  destruct (queue_get_in (userId c) q) as [x G]; [now apply in_map|].
  rewrite G. f_equal. apply queue_get_some in G. destruct G as [Hx E].
  apply (NoDup_map_inj userId q); auto.
Qed.

Lemma Inv_matchmakingLoop now w : Inv w -> Inv (matchmakingLoop cfg now w).
Proof.
  intros H. unfold matchmakingLoop.
  destruct (List.length (activeQueue w) <? 2)%nat; [assumption|].
  pose proof (inv_users w H) as Hu. apply NoDup_app_remove_r in Hu.
  unfold waitingUsers in Hu.
  apply Inv_pairing; [assumption| |].
  - eapply Permutation_NoDup; [|exact Hu].
    apply Permutation_map, sort_candidates_perm.
  - rewrite Forall_forall. intros c Hc _.
    exists c. split; [|reflexivity]. apply queue_get_member; [assumption|].
    eapply Permutation_in; [|exact Hc].
    apply Permutation_sym, sort_candidates_perm.
Qed.

Lemma Inv_handle ev w : Inv w -> Inv (handle cfg ev w).
Proof.
  intros H. destruct ev; simpl.
  - now apply (Inv_indices w).
  - now apply Inv_addPlayer.
  - now apply Inv_removePlayer.
  - now apply Inv_acceptMatch.
  - now apply Inv_declineMatch.
  - destruct (existsb _ _); [|assumption].
    now apply Inv_handleMatchTimeout, Inv_clearTimeout.
  - now apply Inv_matchmakingLoop.
  - destruct (pending_get mid (awaiting w)); [|assumption].
    now apply Inv_finalizeMatch_resume, Inv_reply_taken.
Qed.

Lemma Inv_step w ev : Inv w -> Inv (step cfg w ev).
Proof. intros H. unfold step. now apply Inv_drain, Inv_handle. Qed.

Lemma Inv_run evs : forall w, Inv w -> Inv (run cfg evs w).
Proof.
  induction evs as [|ev evs IH]; simpl; [auto|].
  intros w H. apply IH. now apply Inv_step.
Qed.

(** Every state the service can reach satisfies the invariant. *)
Lemma Inv_reachable evs : Inv (run cfg evs initial).
Proof. apply Inv_run, Inv_initial. Qed.

End MatcherFacts.

(** * C2: no user is in two places *)

(** C2. After any sequence of events from the initial state (calls of
    addPlayer, removePlayer, acceptMatch and declineMatch with any
    arguments, alarms, ticks and game-service replies, re-queues
    included), the list of the waiting userIds followed by the
    participants of all pending matches has no repetition; in particular
    after a tick no userId is both waiting and in a pending match. *)
Theorem users_never_duplicated (cfg : Constants) (evs : list Event) :
  unique_users (run cfg evs initial)
  /\ (forall ev, unique_users (step cfg (run cfg evs initial) ev))
  /\ (forall now u,
        let w := step cfg (run cfg evs initial) (Tick now) in
        ~ (In u (waitingUsers w) /\ In u (pendingUsers (pendingMatches w)))).
Proof.
  assert (H : Inv (run cfg evs initial)) by apply Inv_run, Inv_initial.
  split; [apply (inv_users _ H)|].
  split; [intros ev; apply inv_users; now apply Inv_step|].
  intros now u w [Hw Hp].
  assert (Hu : unique_users w) by (apply inv_users; now apply Inv_step).
  apply NoDup_app_iff in Hu. destruct Hu as (_ & _ & Hd). now apply (Hd u).
Qed.

(** * C8: removePlayer *)





Lemma addPlayer_succeeds env now u s e prio w :
  getActivePenalty env u = None ->
  ~ In u (waitingUsers w) ->
  ~ In u (pendingUsers (pendingMatches w)) ->
  ~ In s (activeSockets w) ->
  addPlayer env now u s e prio w =
  (Returned,
   emitQueueStats
     (with_activeSockets (activeSockets w ++ [s])
        (with_activeQueue (activeQueue w ++ [createQueuedPlayer now u s e prio]) w))).
Proof.
  intros Hpen Hq Hp Hs.
  destruct (addPlayer_cases env now u s e prio w) as [[msg E]|(_&_&_&_&E)];
    [|exact E].
  exfalso. revert E. unfold addPlayer. rewrite Hpen.
  apply queue_has_false in Hq. rewrite Hq.
  apply isUserInPendingMatch_false in Hp. rewrite Hp.
  apply set_has_false in Hs. rewrite Hs. discriminate.
Qed.



Lemma queue_get_appended u q p :
  ~ In u (map userId q) -> userId p = u -> queue_get u (q ++ [p]) = Some p.
Proof.
  intros Hq E. unfold queue_get. induction q as [|x q IH]; simpl.
  - subst. now rewrite String.eqb_refl.
  - simpl in Hq. destruct (String.eqb u (userId x)) eqn:F.
    + apply String.eqb_eq in F. exfalso. apply Hq. now left.
    + apply IH. tauto.
Qed.




(** * Re-queueing and cancellation *)

Lemma requeue_cases env now line p w :
  (exists msg,
     addPlayer env now (p_userId p) (p_socketId p) (p_elo p) true w = (Threw msg, w)
     /\ requeue env now line p w
        = enqueue (ConsoleError (String.append line (p_userId p))) w)
  \/ (getActivePenalty env (p_userId p) = None
      /\ ~ In (p_userId p) (waitingUsers w)
      /\ ~ In (p_userId p) (pendingUsers (pendingMatches w))
      /\ ~ In (p_socketId p) (activeSockets w)
      /\ requeue env now line p w =
         emitQueueStats
           (with_activeSockets (activeSockets w ++ [p_socketId p])
              (with_activeQueue
                 (activeQueue w
                  ++ [createQueuedPlayer now (p_userId p) (p_socketId p) (p_elo p) true])
                 w))).
Proof.
  unfold requeue.
  destruct (addPlayer_cases env now (p_userId p) (p_socketId p) (p_elo p) true w)
    as [[msg E]|(A & B & C & D & E)]; rewrite E.
  - left. exists msg. auto.
  - right. auto.
Qed.

(** What [requeue] does to the world: either the player joins the end of
    the queue (and the statistics are broadcast), or nothing changes but a
    queued console report. *)
Lemma requeue_spec env now line p w :
  server w = true ->
  let w' := requeue env now line p w in
  server w' = true
  /\ pendingMatches w' = pendingMatches w
  /\ timers w' = timers w
  /\ nextUuid w' = nextUuid w
  /\ awaiting w' = awaiting w
  /\ ((getActivePenalty env (p_userId p) = None
       /\ ~ In (p_userId p) (waitingUsers w)
       /\ ~ In (p_userId p) (pendingUsers (pendingMatches w))
       /\ ~ In (p_socketId p) (activeSockets w)
       /\ activeQueue w' = activeQueue w
            ++ [createQueuedPlayer now (p_userId p) (p_socketId p) (p_elo p) true]
       /\ activeSockets w' = activeSockets w ++ [p_socketId p]
       /\ jobs w' = jobs w
       /\ exists a b, trace w' = trace w ++ [EmitAll (queue_stats a b)])
      \/ ((exists msg,
             addPlayer env now (p_userId p) (p_socketId p) (p_elo p) true w
             = (Threw msg, w))
          /\ activeQueue w' = activeQueue w
          /\ activeSockets w' = activeSockets w
          /\ jobs w' = jobs w ++ [ConsoleError (String.append line (p_userId p))]
          /\ trace w' = trace w)).
Proof.
  intros Hs. cbv zeta.
  destruct (requeue_cases env now line p w)
    as [[msg [E R]]|(A & B & C & D & R)]; rewrite R.
  - repeat split; auto. right. repeat split; eauto.
  - repeat split; auto. left. repeat split; auto.
    unfold emitQueueStats, emit. simpl. rewrite Hs. eauto.
Qed.

Lemma In_guiltySet u l : forall acc,
  In u (fold_left (fun s v => set_add v s) l acc) <-> In u l \/ In u acc.
Proof.
  induction l as [|x l IH]; intros acc; simpl; [tauto|].
  rewrite IH, In_set_add. intuition.
Qed.

Lemma cancel_participant_guilty env now mid guilty reason w p :
  server w = true ->
  set_has (p_userId p) guilty = true ->
  let w' := cancel_participant env now mid guilty reason w p in
  same_state w w'
  /\ jobs w' = jobs w
  /\ trace w' = trace w ++ penalty_effects env mid reason p.
Proof.
  intros Hs Hg. cbv zeta. unfold cancel_participant, penalty_effects. rewrite Hg.
  destruct (addPenalty_throws env (p_userId p)); unfold emit; simpl; rewrite Hs;
    repeat split; rewrite <- ?app_assoc; reflexivity.
Qed.

Lemma cancel_participant_innocent env now mid guilty reason w p :
  server w = true ->
  set_has (p_userId p) guilty = false ->
  let w' := cancel_participant env now mid guilty reason w p in
  server w' = true
  /\ pendingMatches w' = pendingMatches w
  /\ timers w' = timers w
  /\ nextUuid w' = nextUuid w
  /\ awaiting w' = awaiting w
  /\ ((getActivePenalty env (p_userId p) = None
       /\ ~ In (p_userId p) (waitingUsers w)
       /\ ~ In (p_userId p) (pendingUsers (pendingMatches w))
       /\ ~ In (p_socketId p) (activeSockets w)
       /\ activeQueue w' = activeQueue w
            ++ [createQueuedPlayer now (p_userId p) (p_socketId p) (p_elo p) true]
       /\ activeSockets w' = activeSockets w ++ [p_socketId p]
       /\ jobs w' = jobs w
       /\ exists a b, trace w' = trace w ++ [EmitAll (queue_stats a b)]
                                  ++ innocent_effects now mid p)
      \/ ((exists msg,
             addPlayer env now (p_userId p) (p_socketId p) (p_elo p) true w
             = (Threw msg, w))
          /\ activeQueue w' = activeQueue w
          /\ activeSockets w' = activeSockets w
          /\ jobs w' = jobs w ++ [ConsoleError (String.append
               "[MatchmakingService] [cancelMatch] Failed to re-queue user "
               (p_userId p))]
          /\ trace w' = trace w ++ innocent_effects now mid p)).
Proof.
  intros Hs Hg. cbv zeta. unfold cancel_participant. rewrite Hg.
  destruct (requeue_spec env now
              "[MatchmakingService] [cancelMatch] Failed to re-queue user " p w Hs)
    as (R1 & R2 & R3 & R4 & R5 & R6).
  set (w1 := requeue env now _ p w) in *.
  unfold emit. simpl. rewrite R1. repeat split; auto.
  destruct R6 as [(A & B & C & D & E & F & G & a & b & T)
                 |(A & E & F & G & T)]; [left|right]; repeat split; auto.
  - exists a, b. rewrite T, <- !app_assoc. reflexivity.
  - rewrite T, <- !app_assoc. reflexivity.
Qed.

Lemma NoDup_flat_map_unique {A B} (f : A -> list B) l a b x :
  NoDup (flat_map f l) -> In a l -> In b l -> In x (f a) -> In x (f b) -> a = b.
Proof.
  induction l as [|c l IH]; simpl; [tauto|].
  intros Hnd Ha Hb Hxa Hxb. apply NoDup_app_iff in Hnd.
  destruct Hnd as (N1 & N2 & N3).
  destruct Ha as [->|Ha], Hb as [->|Hb]; auto.
  - exfalso. apply (N3 x Hxa). apply in_flat_map. eauto.
  - exfalso. apply (N3 x Hxb). apply in_flat_map. eauto.
Qed.

Lemma Inv_participant_not_waiting w m u :
  Inv w -> In m (pendingMatches w) -> In u (participants m) ->
  ~ In u (waitingUsers w).
Proof.
  intros H Hm Hu Hw. pose proof (inv_users w H) as N.
  apply NoDup_app_iff in N. destruct N as (_ & _ & N).
  apply (N u Hw). apply In_pendingUsers. eauto.
Qed.

Lemma Inv_participant_not_elsewhere w m u :
  Inv w -> In m (pendingMatches w) -> In u (participants m) ->
  ~ In u (pendingUsers (pending_delete (matchId m) (pendingMatches w))).
Proof.
  intros H Hm Hu Hin. pose proof (inv_users w H) as N.
  apply NoDup_app_remove_l in N.
  apply In_pendingUsers in Hin. destruct Hin as [m2 [Hm2 Hu2]].
  apply In_pending_delete in Hm2. destruct Hm2 as [Hm2 Hne].
  apply Hne. f_equal.
  apply (NoDup_flat_map_unique participants (pendingMatches w) m2 m u); auto.
Qed.

Lemma Inv_participants_distinct w m :
  Inv w -> In m (pendingMatches w) ->
  p_userId (player1 m) <> p_userId (player2 m)
  /\ p_socketId (player1 m) <> p_socketId (player2 m).
Proof.
  intros H Hm. split.
  - pose proof (inv_users w H) as N. apply NoDup_app_remove_l in N.
    unfold pendingUsers in N. apply in_split in Hm. destruct Hm as (l1 & l2 & E).
    rewrite E, flat_map_app in N. apply NoDup_app_remove_l in N. simpl in N.
    inversion N as [|? ? N1 _]. intros E'. apply N1. rewrite E'. simpl. auto.
  - pose proof (inv_open w H) as O. rewrite Forall_forall in O.
    destruct (O m Hm) as (_ & _ & _ & S & _). exact S.
Qed.

(** One participant of a cancelled match has been dealt with. *)
Lemma cancel_participant_summary env now mid guilty reason w p :
  server w = true ->
  let w' := cancel_participant env now mid guilty reason w p in
  server w' = true
  /\ pendingMatches w' = pendingMatches w
  /\ timers w' = timers w
  /\ exists new,
       trace w' = trace w ++ new
       /\ (forall e, In e new ->
             is_stats e
             \/ (set_has (p_userId p) guilty = true
                 /\ In e (penalty_effects env mid reason p))
             \/ (set_has (p_userId p) guilty = false
                 /\ In e (innocent_effects now mid p)))
       /\ (set_has (p_userId p) guilty = true ->
             incl (penalty_effects env mid reason p) new
             /\ activeQueue w' = activeQueue w
             /\ activeSockets w' = activeSockets w)
       /\ (set_has (p_userId p) guilty = false ->
             incl (innocent_effects now mid p) new
             /\ ((activeQueue w' = activeQueue w
                    ++ [createQueuedPlayer now (p_userId p) (p_socketId p) (p_elo p) true]
                  /\ activeSockets w' = activeSockets w ++ [p_socketId p])
                 \/ (activeQueue w' = activeQueue w
                     /\ activeSockets w' = activeSockets w
                     /\ exists msg,
                          addPlayer env now (p_userId p) (p_socketId p) (p_elo p) true w
                          = (Threw msg, w)))).
Proof.
  intros Hs. cbv zeta.
  destruct (set_has (p_userId p) guilty) eqn:Hg.
  - destruct (cancel_participant_guilty env now mid guilty reason w p Hs Hg)
      as ((S1 & S2 & S3 & S4 & S5 & S6 & S7) & J & T).
    repeat split; try congruence.
    exists (penalty_effects env mid reason p).
    repeat split; auto; try discriminate; try apply incl_refl.
  - destruct (cancel_participant_innocent env now mid guilty reason w p Hs Hg)
      as (S1 & S2 & S3 & S4 & S5 & Hc).
    repeat split; auto.
    destruct Hc as [(A & B & C & D & E & F & G & a & b & T) | (A & E & F & G & T)].
    + exists ([EmitAll (queue_stats a b)] ++ innocent_effects now mid p).
      split; [now rewrite T|].
      split; [|split; [discriminate|]].
      * intros e [<-|He]; [left; unfold is_stats; eauto | right; right; auto].
      * intros _. split; [|left; auto].
        intros e He. apply in_or_app. now right.
    + exists (innocent_effects now mid p).
      repeat split; auto; try discriminate; try apply incl_refl.
Qed.

Lemma In_penalty_effects env mid reason p e :
  In e (penalty_effects env mid reason p) ->
  e = Call_addPenalty (p_userId p) 300 (penalty_reason reason)
  \/ e = penalty_report (p_userId p)
  \/ e = EmitTo (p_socketId p) (match_cancelled "penalty_applied" mid).
Proof.
  unfold penalty_effects. destruct (addPenalty_throws env (p_userId p)); simpl;
    intuition.
Qed.

Lemma cancelMatch_outcome env now m faulty reason w :
  Inv w -> In m (pendingMatches w) -> server w = true ->
  cancel_outcome env now m faulty reason w (cancelMatch env now m faulty reason w).
Proof.
  intros HI Hm Hs. unfold cancel_outcome, cancelMatch.
  set (guilty := fold_left (fun s u => set_add u s) faulty []).
  set (w1 := match timeoutId m with Some t => clearTimeout t w | None => w end).
  set (w2 := with_pendingMatches (pending_delete (matchId m) (pendingMatches w1)) w1).
  assert (Hg : forall u, set_has u guilty = true <-> In u faulty).
  { intros u. rewrite set_has_true. unfold guilty. rewrite In_guiltySet. simpl. tauto. }
  assert (W2 : server w2 = true /\ activeQueue w2 = activeQueue w
               /\ activeSockets w2 = activeSockets w
               /\ pendingMatches w2 = pending_delete (matchId m) (pendingMatches w)
               /\ trace w2 = trace w
               /\ (forall t, timeoutId m = Some t -> ~ In t (timers w2))).
  { unfold w2, w1. destruct (timeoutId m) as [t0|]; simpl; repeat split; auto;
      try discriminate.
    intros t E Hin. inversion E; subst. apply filter_In in Hin.
    destruct Hin as [_ Hin]. rewrite Nat.eqb_refl in Hin. discriminate. }
  destruct W2 as (Ws & Wq & Wk & Wp & Wt & Wtm).
  simpl fold_left.
  destruct (cancel_participant_summary env now (matchId m) guilty reason w2
              (player1 m) Ws) as (As & Ap & Atm & new1 & At & Acl & Ag & Ai).
  set (wa := cancel_participant env now (matchId m) guilty reason w2 (player1 m)) in *.
  destruct (cancel_participant_summary env now (matchId m) guilty reason wa
              (player2 m) As) as (Bs & Bp & Btm & new2 & Bt & Bcl & Bg & Bi).
  set (wb := cancel_participant env now (matchId m) guilty reason wa (player2 m)) in *.
  destruct (Inv_participants_distinct w m HI Hm) as [Hud Hsd].
  assert (N1 : ~ In (p_userId (player1 m)) (waitingUsers w))
    by (apply (Inv_participant_not_waiting w m); simpl; auto).
  assert (N2 : ~ In (p_userId (player2 m)) (waitingUsers w))
    by (apply (Inv_participant_not_waiting w m); simpl; auto).
  assert (E1 : ~ In (p_userId (player1 m)) (pendingUsers (pendingMatches w2)))
    by (rewrite Wp; apply (Inv_participant_not_elsewhere w m); simpl; auto).
  assert (E2 : ~ In (p_userId (player2 m)) (pendingUsers (pendingMatches w2)))
    by (rewrite Wp; apply (Inv_participant_not_elsewhere w m); simpl; auto).
  (* the queue after each participant *)
  assert (Qa : forall u, In u (waitingUsers wa) ->
                 In u (waitingUsers w)
                 \/ (u = p_userId (player1 m)
                     /\ set_has (p_userId (player1 m)) guilty = false)).
  { intros u. unfold waitingUsers.
    destruct (set_has (p_userId (player1 m)) guilty) eqn:G1.
    - destruct (Ag eq_refl) as (_ & Q & _). rewrite Q, Wq. auto.
    - destruct (Ai eq_refl) as (_ & [[Q _]|[Q _]]); rewrite Q, Wq; auto.
      rewrite map_app, in_app_iff. simpl. intuition. }
  assert (Qb : forall u, In u (waitingUsers wb) ->
                 In u (waitingUsers wa)
                 \/ (u = p_userId (player2 m)
                     /\ set_has (p_userId (player2 m)) guilty = false)).
  { intros u. unfold waitingUsers.
    destruct (set_has (p_userId (player2 m)) guilty) eqn:G2.
    - destruct (Bg eq_refl) as (_ & Q & _). rewrite Q. auto.
    - destruct (Bi eq_refl) as (_ & [[Q _]|[Q _]]); rewrite Q; auto.
      rewrite map_app, in_app_iff. simpl. intuition. }
  assert (Sa : forall s, In s (activeSockets wa) ->
                 In s (activeSockets w) \/ s = p_socketId (player1 m)).
  { intros s.
    destruct (set_has (p_userId (player1 m)) guilty) eqn:G1.
    - destruct (Ag eq_refl) as (_ & _ & Q). rewrite Q, Wk. auto.
    - destruct (Ai eq_refl) as (_ & [[_ Q]|[_ [Q _]]]); rewrite Q, Wk; auto.
      rewrite in_app_iff. simpl. intuition. }
  assert (Qab : forall x, In x (activeQueue wa) -> In x (activeQueue wb)).
  { intros x.
    destruct (set_has (p_userId (player2 m)) guilty) eqn:G2.
    - destruct (Bg eq_refl) as (_ & Q & _). now rewrite Q.
    - destruct (Bi eq_refl) as (_ & [[Q _]|[Q _]]); rewrite Q; auto.
      rewrite in_app_iff. auto. }
  split; [intros t Et; simpl; rewrite Btm, Atm; now apply Wtm|].
  split.
  { simpl. rewrite Bp, Ap, Wp. rewrite in_map_iff. intros [x [Ex Hx]].
    apply In_pending_delete in Hx. tauto. }
  exists (new1 ++ new2 ++ [EmitAll (queue_stats (List.length (activeQueue wb))
                                      (List.length (pendingMatches wb)))]).
  split.
  { unfold emitQueueStats, emit. simpl. rewrite Bs, Bt, At, Wt.
    now rewrite <- !app_assoc. }
  assert (Hnew : forall e,
            In e (new1 ++ new2 ++ [EmitAll (queue_stats (List.length (activeQueue wb))
                                              (List.length (pendingMatches wb)))]) ->
            is_stats e
            \/ (exists q, In q [player1 m; player2 m]
                          /\ set_has (p_userId q) guilty = true
                          /\ In e (penalty_effects env (matchId m) reason q))
            \/ (exists q, In q [player1 m; player2 m]
                          /\ In e (innocent_effects now (matchId m) q))).
  { intros e He. rewrite !in_app_iff in He. destruct He as [He|[He|[<-|[]]]].
    - destruct (Acl e He) as [?|[[? ?]|[? ?]]]; auto.
      + right; left. exists (player1 m). simpl. auto.
      + right; right. exists (player1 m). simpl. auto.
    - destruct (Bcl e He) as [?|[[? ?]|[? ?]]]; auto.
      + right; left. exists (player2 m). simpl. auto.
      + right; right. exists (player2 m). simpl. auto.
    - left. unfold is_stats. eauto. }
  assert (Hnopen : forall p d r,
            set_has (p_userId p) guilty = false ->
            ~ In (Call_addPenalty (p_userId p) d r)
                 (new1 ++ new2 ++ [EmitAll (queue_stats (List.length (activeQueue wb))
                                              (List.length (pendingMatches wb)))])).
  { intros p d r Gp He. apply Hnew in He.
    destruct He as [[a [b E]]|[[q [_ [Gq E]]]|[q [_ E]]]].
    - discriminate.
    - apply In_penalty_effects in E. unfold penalty_report in E.
      destruct E as [E|[E|E]]; try discriminate. inversion E. congruence.
    - simpl in E. destruct E as [E|[E|[]]]; discriminate. }
  intros p Hp. simpl in Hp. destruct Hp as [<-|[<-|[]]]; split.
  - intros Hf. apply Hg in Hf. destruct (Ag Hf) as (I & _ & _).
    assert (Ipen : incl (penalty_effects env (matchId m) reason (player1 m))
                        (new1 ++ new2 ++ [EmitAll (queue_stats
                           (List.length (activeQueue wb))
                           (List.length (pendingMatches wb)))])).
    { intros e He. apply in_or_app. left. auto. }
    split; [apply Ipen; unfold penalty_effects; simpl; auto|].
    split; [apply Ipen; unfold penalty_effects; rewrite !in_app_iff; simpl; auto|].
    change (waitingUsers (emitQueueStats wb)) with (waitingUsers wb).
    intros Hin. apply Qb in Hin. destruct Hin as [Hin|[E G]]; [|congruence].
    apply Qa in Hin. destruct Hin as [Hin|[_ G]]; [contradiction|congruence].
  - intros Hf. assert (G1 : set_has (p_userId (player1 m)) guilty = false).
    { destruct (set_has (p_userId (player1 m)) guilty) eqn:G; [|reflexivity].
      apply Hg in G. contradiction. }
    destruct (Ai G1) as (I & Hq).
    split; [apply in_or_app; left; apply I; simpl; auto|].
    split; [apply in_or_app; left; apply I; simpl; auto|].
    split; [intros d r; now apply Hnopen|].
    intros Hpen Hsock.
    change (activeQueue (emitQueueStats wb)) with (activeQueue wb).
    apply Qab. destruct Hq as [[Q _]|(_ & _ & msg & F)].
    + rewrite Q. apply in_or_app. right. now left.
    + rewrite addPlayer_succeeds in F; try discriminate; auto.
      * unfold waitingUsers. now rewrite Wq.
      * now rewrite Wk.
  - intros Hf. apply Hg in Hf. destruct (Bg Hf) as (I & _ & _).
    assert (Ipen : incl (penalty_effects env (matchId m) reason (player2 m))
                        (new1 ++ new2 ++ [EmitAll (queue_stats
                           (List.length (activeQueue wb))
                           (List.length (pendingMatches wb)))])).
    { intros e He. apply in_or_app. right. apply in_or_app. left. auto. }
    split; [apply Ipen; unfold penalty_effects; simpl; auto|].
    split; [apply Ipen; unfold penalty_effects; rewrite !in_app_iff; simpl; auto|].
    change (waitingUsers (emitQueueStats wb)) with (waitingUsers wb).
    intros Hin. apply Qb in Hin. destruct Hin as [Hin|[E G]]; [|congruence].
    apply Qa in Hin. destruct Hin as [Hin|[E _]]; [contradiction|congruence].
  - intros Hf. assert (G2 : set_has (p_userId (player2 m)) guilty = false).
    { destruct (set_has (p_userId (player2 m)) guilty) eqn:G; [|reflexivity].
      apply Hg in G. contradiction. }
    destruct (Bi G2) as (I & Hq).
    split; [apply in_or_app; right; apply in_or_app; left; apply I; simpl; auto|].
    split; [apply in_or_app; right; apply in_or_app; left; apply I; simpl; auto|].
    split; [intros d r; now apply Hnopen|].
    intros Hpen Hsock.
    change (activeQueue (emitQueueStats wb)) with (activeQueue wb).
    destruct Hq as [[Q _]|(_ & _ & msg & F)].
    + rewrite Q. apply in_or_app. right. now left.
    + rewrite addPlayer_succeeds in F; try discriminate; auto.
      * intros Hin. apply Qa in Hin. destruct Hin as [Hin|[E _]]; [contradiction|].
        congruence.
      * now rewrite Ap.
      * intros Hin. apply Sa in Hin. destruct Hin as [Hin|E]; [contradiction|].
        congruence.
Qed.

(** C5, as amended.  Let [m] be a pending match of a state satisfying the
    invariant, with the server attached.  A decline by either participant [u] runs
    Cancel with faulty = {u} and reason "declined"; the expiry callback
    runs Cancel with faulty = the participants whose status is still
    PENDING and reason "timeout".  Cancel clears the timer, removes the
    match, and for each participant: if faulty, calls
    addPenalty(userId, 300, "Matchmaking abuse: <reason>"), emits
    match_cancelled{penalty_applied} and leaves them out of the queue; if
    not, emits match_cancelled{opponent_declined} and
    queue_joined{priority:true} and calls no addPenalty for them; such a
    participant is in the queue again, with priority=true, when
    [addPlayer] admits them, that is when they have no active penalty and
    their socket is not active.  All of this holds whatever the penalty
    store does ([env] is arbitrary: addPenalty may throw for one
    participant, the other is processed all the same). *)
Theorem cancel_policy env now w m
  (HI : Inv w)
  (Hm : pending_get (matchId m) (pendingMatches w) = Some m)
  (Hs : server w = true) :
  (forall u, In u (participants m) ->
     declineMatch env now u (matchId m) w
     = (Returned, cancelMatch env now m [u] "declined" w)
     /\ cancel_outcome env now m [u] "declined" w
          (cancelMatch env now m [u] "declined" w))
  /\ (exists faulty,
        (forall u, In u faulty <->
                   exists p, In p [player1 m; player2 m]
                             /\ p_userId p = u /\ status p = PENDING)
        /\ handleMatchTimeout env now (matchId m) w
           = cancelMatch env now m faulty "timeout" w
        /\ cancel_outcome env now m faulty "timeout" w
             (handleMatchTimeout env now (matchId m) w)).
Proof.
  pose proof Hm as Hin. apply pending_get_some in Hin. destruct Hin as [Hin _].
  split.
  - intros u Hu. split; [|now apply cancelMatch_outcome].
    unfold declineMatch. rewrite Hm.
    simpl in Hu. destruct Hu as [<-|[<-|[]]].
    + now rewrite String.eqb_refl.
    + rewrite String.eqb_refl, andb_false_r. reflexivity.
  - unfold handleMatchTimeout. rewrite Hm.
    eexists. split; [|split; [reflexivity|now apply cancelMatch_outcome]].
    intros u. rewrite in_app_iff. split.
    + intros [H|H].
      * destruct (status_eqb (status (player1 m)) PENDING) eqn:E; [|contradiction].
        apply status_eqb_eq in E. destruct H as [<-|[]].
        exists (player1 m). simpl. auto.
      * destruct (status_eqb (status (player2 m)) PENDING) eqn:E; [|contradiction].
        apply status_eqb_eq in E. destruct H as [<-|[]].
        exists (player2 m). simpl. auto.
    + intros [p [Hp [<- St]]]. apply status_eqb_eq in St.
      simpl in Hp. destruct Hp as [<-|[<-|[]]]; rewrite St; simpl; auto.
Qed.

(** * C7: the game service refuses *)

Lemma requeue_after_failure_spec env now w p :
  server w = true ->
  let w' := requeue_after_failure env now w p in
  server w' = true
  /\ pendingMatches w' = pendingMatches w
  /\ exists new,
       trace w' = trace w ++ new
       /\ In (EmitTo (p_socketId p)
                (queue_joined (p_userId p) (p_elo p) now true)) new
       /\ ((activeQueue w' = activeQueue w
              ++ [createQueuedPlayer now (p_userId p) (p_socketId p) (p_elo p) true]
            /\ activeSockets w' = activeSockets w ++ [p_socketId p])
           \/ (activeQueue w' = activeQueue w
               /\ activeSockets w' = activeSockets w
               /\ jobs w' = jobs w ++ [ConsoleError (String.append
                    "[MatchmakingService] [handleGameCreationFailure] Failed to re-queue user "
                    (p_userId p))]
               /\ exists msg,
                    addPlayer env now (p_userId p) (p_socketId p) (p_elo p) true w
                    = (Threw msg, w))).
Proof.
  intros Hs. cbv zeta. unfold requeue_after_failure.
  destruct (requeue_spec env now
    "[MatchmakingService] [handleGameCreationFailure] Failed to re-queue user "
    p w Hs) as (R1 & R2 & R3 & R4 & R5 & R6).
  set (w1 := requeue env now _ p w) in *.
  unfold emit. simpl. rewrite R1. repeat split; auto.
  destruct R6 as [(A & B & C & D & E & F & G & a & b & T) | (A & E & F & G & T)].
  - eexists. split; [rewrite T, <- app_assoc; reflexivity|].
    split; [simpl; auto|]. left. auto.
  - eexists. split; [rewrite T; reflexivity|].
    split; [simpl; auto|]. right. auto.
Qed.

(** C7. When the reply of the game service is {success:false, error,
    message}, the continuation of [finalizeMatch] (server attached) emits
    match_failed{matchId, "game_creation_failed", error, message} to the
    sockets of both participants and queue_joined{priority:true} to each,
    and queues each participant again with priority=true: each is
    accepted by [addPlayer] on its own merits (not banned, not already
    waiting or pending, socket free), whether or not the other one was. *)
Theorem game_refused_requeues env now m code message w (Hs : server w = true) :
  let w' := finalizeMatch_resume env now m (GameRefused code message) w in
  let prio_player p :=
    createQueuedPlayer now (p_userId p) (p_socketId p) (p_elo p) true in
  let admissible p :=
    getActivePenalty env (p_userId p) = None
    /\ ~ In (p_userId p) (waitingUsers w)
    /\ ~ In (p_userId p) (pendingUsers (pendingMatches w))
    /\ ~ In (p_socketId p) (activeSockets w) in
  exists new,
    trace w' = trace w ++ new
    /\ (forall p, In p [player1 m; player2 m] ->
          In (EmitTo (p_socketId p)
                (match_failed (matchId m) "game_creation_failed" code message)) new
          /\ In (EmitTo (p_socketId p)
                   (queue_joined (p_userId p) (p_elo p) now true)) new)
    /\ (admissible (player1 m) -> In (prio_player (player1 m)) (activeQueue w'))
    /\ (admissible (player2 m) ->
        p_userId (player2 m) <> p_userId (player1 m) ->
        p_socketId (player2 m) <> p_socketId (player1 m) ->
        In (prio_player (player2 m)) (activeQueue w')).
Proof.
  cbv zeta. unfold finalizeMatch_resume, handleGameCreationFailure.
  set (fp := match_failed (matchId m) "game_creation_failed" code message).
  set (w1 := emit (EmitTo (p_socketId (player1 m)) fp) w).
  set (w2 := emit (EmitTo (p_socketId (player2 m)) fp) w1).
  assert (W2 : server w2 = true /\ activeQueue w2 = activeQueue w
               /\ activeSockets w2 = activeSockets w
               /\ pendingMatches w2 = pendingMatches w
               /\ trace w2 = trace w ++ [EmitTo (p_socketId (player1 m)) fp;
                                         EmitTo (p_socketId (player2 m)) fp]).
  { unfold w2, w1, emit. simpl. rewrite Hs.
    repeat split; auto. now rewrite <- app_assoc. }
  destruct W2 as (Ws & Wq & Wk & Wp & Wt).
  simpl fold_left.
  destruct (requeue_after_failure_spec env now w2 (player1 m) Ws)
    as (As & Ap & new1 & At & Aj & Aq).
  set (wa := requeue_after_failure env now w2 (player1 m)) in *.
  destruct (requeue_after_failure_spec env now wa (player2 m) As)
    as (Bs & Bp & new2 & Bt & Bj & Bq).
  set (wb := requeue_after_failure env now wa (player2 m)) in *.
  exists ([EmitTo (p_socketId (player1 m)) fp; EmitTo (p_socketId (player2 m)) fp]
          ++ new1 ++ new2
          ++ [EmitAll (queue_stats (List.length (activeQueue wb))
                         (List.length (pendingMatches wb)))]).
  split.
  { unfold emitQueueStats, emit, getQueueStats.
    cbn [trace with_trace fst snd]. rewrite Bs, Bt, At, Wt.
    now rewrite <- !app_assoc. }
  split.
  { intros p Hp. simpl in Hp. destruct Hp as [<-|[<-|[]]].
    - split; [simpl; auto|]. rewrite !in_app_iff. auto.
    - split; [simpl; auto|]. rewrite !in_app_iff. auto. }
  change (activeQueue (emitQueueStats wb)) with (activeQueue wb).
  split.
  - intros (P & Q & R & S).
    assert (Ia : In (createQueuedPlayer now (p_userId (player1 m))
                       (p_socketId (player1 m)) (p_elo (player1 m)) true)
                    (activeQueue wa)).
    { destruct Aq as [[E _]|(_ & _ & _ & msg & F)].
      - rewrite E. apply in_or_app. right. now left.
      - rewrite addPlayer_succeeds in F; try discriminate; auto. }
    destruct Bq as [[E _]|[E _]]; rewrite E; auto. apply in_or_app. auto.
  - intros (P & Q & R & S) Hu Hk.
    destruct Bq as [[E _]|(_ & _ & _ & msg & F)].
    + rewrite E. apply in_or_app. right. now left.
    + rewrite addPlayer_succeeds in F; try discriminate; auto.
      * unfold waitingUsers.
        destruct Aq as [[E _]|[E _]]; rewrite E, Wq; auto.
        rewrite map_app, in_app_iff. simpl. intuition.
      * now rewrite Ap, Wp.
      * destruct Aq as [[_ E]|[_ [E _]]]; rewrite E, Wk; auto.
        rewrite in_app_iff. simpl. intuition.
Qed.

(** * C10: queue_joined without a queue entry *)

(** C10. On both re-queue paths, with the server attached, the
    queue_joined{priority:true} event goes to the participant's socket
    whatever [addPlayer] answered; when [addPlayer] rejected, the waiting
    index is as it was and the error only becomes a console report.
    There are executions of either path at the end of which the client
    has been sent queue_joined{priority:true}, the rejection has been
    reported on the console, and the player is not in the waiting
    index. *)
Theorem queue_joined_despite_rejection :
  (forall env now mid guilty reason w p,
     server w = true -> set_has (p_userId p) guilty = false ->
     let w' := cancel_participant env now mid guilty reason w p in
     In (EmitTo (p_socketId p) (queue_joined (p_userId p) (p_elo p) now true))
        (trace w')
     /\ (forall msg,
           addPlayer env now (p_userId p) (p_socketId p) (p_elo p) true w
           = (Threw msg, w) ->
           activeQueue w' = activeQueue w
           /\ In (ConsoleError (String.append
                    "[MatchmakingService] [cancelMatch] Failed to re-queue user "
                    (p_userId p))) (jobs w')))
  /\ (forall env now w p,
        server w = true ->
        let w' := requeue_after_failure env now w p in
        In (EmitTo (p_socketId p) (queue_joined (p_userId p) (p_elo p) now true))
           (trace w')
        /\ (forall msg,
              addPlayer env now (p_userId p) (p_socketId p) (p_elo p) true w
              = (Threw msg, w) ->
              activeQueue w' = activeQueue w
              /\ In (ConsoleError (String.append
                       "[MatchmakingService] [handleGameCreationFailure] Failed to re-queue user "
                       (p_userId p))) (jobs w')))
  /\ (let w := run recommended decline_with_socket_taken initial in
      In (EmitTo "sA" (queue_joined "A" 1500 2000 true)) (trace w)
      /\ In (ConsoleError "[MatchmakingService] [cancelMatch] Failed to re-queue user A")
            (trace w)
      /\ ~ In "A" (waitingUsers w))
  /\ (let w := run recommended refusal_with_ban initial in
      In (EmitTo "sA" (queue_joined "A" 1500 3000 true)) (trace w)
      /\ In (ConsoleError
               "[MatchmakingService] [handleGameCreationFailure] Failed to re-queue user A")
            (trace w)
      /\ ~ In "A" (waitingUsers w)).
Proof.
  split; [|split; [|split]].
  - intros env now mid guilty reason w p Hs Hg. cbv zeta.
    destruct (cancel_participant_innocent env now mid guilty reason w p Hs Hg)
      as (_ & _ & _ & _ & _ & Hc).
    destruct Hc as [(A & B & C & D & E & F & G & a & b & T) | (A & E & F & G & T)].
    + split.
      * rewrite T, !in_app_iff. simpl. auto.
      * intros msg Hm. rewrite addPlayer_succeeds in Hm; auto. discriminate.
    + split.
      * rewrite T, in_app_iff. simpl. auto.
      * intros msg _. split; [assumption|]. rewrite G, in_app_iff. simpl. auto.
  - intros env now w p Hs. cbv zeta.
    destruct (requeue_after_failure_spec env now w p Hs)
      as (_ & _ & new & T & J & Hc).
    split; [rewrite T, in_app_iff; auto|].
    intros msg Hm. destruct Hc as [[E _]|(E & _ & G & _)].
    + destruct (requeue_cases env now
        "[MatchmakingService] [handleGameCreationFailure] Failed to re-queue user "
        p w) as [[msg' [_ R]]|(A & B & C & D & _)].
      * unfold requeue_after_failure in E. rewrite R in E. simpl in E.
        exfalso. apply (f_equal (@List.length _)) in E.
        rewrite length_app in E. simpl in E. lia.
      * rewrite addPlayer_succeeds in Hm; auto. discriminate.
    + split; [assumption|]. rewrite G, in_app_iff. simpl. auto.
  - vm_compute. repeat split; try tauto.
    intros [H|[]]. discriminate.
  - vm_compute. repeat split; try tauto.
    intros [H|[]]. discriminate.
Qed.

(** * C4: a finalized match is out of reach of decline *)

Lemma keeps_matches_refl w : keeps_matches w w.
Proof. repeat split. Qed.

Lemma keeps_matches_trans w1 w2 w3 :
  keeps_matches w1 w2 -> keeps_matches w2 w3 -> keeps_matches w1 w3.
Proof.
  unfold keeps_matches. intros (A1&A2&A3&A4&A5) (B1&B2&B3&B4&B5).
  repeat split; congruence.
Qed.

Lemma keeps_matches_addPlayer env now u s e prio w :
  keeps_matches w (snd (addPlayer env now u s e prio w)).
Proof.
  destruct (addPlayer_cases env now u s e prio w) as [[msg E]|(_&_&_&_&E)];
    rewrite E; repeat split.
Qed.

Lemma keeps_matches_requeue env now line p w :
  keeps_matches w (requeue env now line p w).
Proof.
  unfold requeue.
  pose proof (keeps_matches_addPlayer env now (p_userId p) (p_socketId p) (p_elo p) true w) as K.
  destruct (addPlayer env now (p_userId p) (p_socketId p) (p_elo p) true w)
    as [[| msg |] w1]; simpl in K; exact K.
Qed.

Lemma keeps_matches_emit e w w' : keeps_matches w w' -> keeps_matches w (emit e w').
Proof. intros K. eapply keeps_matches_trans; [exact K|]. repeat split. Qed.

Lemma keeps_matches_perform e w w' : keeps_matches w w' -> keeps_matches w (perform e w').
Proof. intros K. eapply keeps_matches_trans; [exact K|]. repeat split. Qed.

Lemma keeps_matches_cancel_participant env now mid guilty reason w p :
  keeps_matches w (cancel_participant env now mid guilty reason w p).
Proof.
  unfold cancel_participant. destruct (set_has (p_userId p) guilty).
  - apply keeps_matches_emit. destruct (addPenalty_throws env (p_userId p));
      repeat apply keeps_matches_perform; apply keeps_matches_refl.
  - repeat apply keeps_matches_emit. apply keeps_matches_requeue.
Qed.

Lemma keeps_matches_requeue_after_failure env now w p :
  keeps_matches w (requeue_after_failure env now w p).
Proof.
  unfold requeue_after_failure. apply keeps_matches_emit, keeps_matches_requeue.
Qed.

Lemma keeps_matches_fold {A} (f : World -> A -> World) l :
  (forall w a, keeps_matches w (f w a)) ->
  forall w, keeps_matches w (fold_left f l w).
Proof.
  intros Hf. induction l as [|a l IH]; intros w; simpl; [apply keeps_matches_refl|].
  eapply keeps_matches_trans; [apply Hf | apply IH].
Qed.

Lemma keeps_matches_finalizeMatch_resume env now m r w :
  keeps_matches w (finalizeMatch_resume env now m r w).
Proof.
  unfold finalizeMatch_resume, emitQueueStats. apply keeps_matches_emit.
  destruct r.
  - unfold handleGameCreationSuccess. destruct (negb (server w));
      repeat apply keeps_matches_perform; apply keeps_matches_refl.
  - unfold handleGameCreationFailure.
    eapply keeps_matches_trans;
      [|apply keeps_matches_fold; intros; apply keeps_matches_requeue_after_failure].
    repeat apply keeps_matches_emit. apply keeps_matches_refl.
Qed.

(** [cancelMatch] only takes its own match (and alarm) away. *)
Lemma cancelMatch_matches env now m faulty reason w :
  let w' := cancelMatch env now m faulty reason w in
  server w' = server w
  /\ pendingMatches w' = pending_delete (matchId m) (pendingMatches w)
  /\ nextUuid w' = nextUuid w
  /\ awaiting w' = awaiting w.
Proof.
  cbv zeta. unfold cancelMatch, emitQueueStats.
  set (w2 := with_pendingMatches _ _).
  match goal with |- context [emit ?e ?x] =>
    assert (K : keeps_matches w2 (emit e x))
  end.
  { apply keeps_matches_emit, keeps_matches_fold.
    intros; apply keeps_matches_cancel_participant. }
  destruct K as (K1 & K2 & K3 & K4 & K5).
  rewrite K1, K2, K4, K5. unfold w2.
  destruct (timeoutId m); simpl; auto.
Qed.

Lemma retired_fields mid w w' :
  pendingMatches w' = pendingMatches w -> nextUuid w' = nextUuid w ->
  retired mid w -> retired mid w'.
Proof. unfold retired. intros -> ->. auto. Qed.

Lemma retired_keeps mid w w' : keeps_matches w w' -> retired mid w -> retired mid w'.
Proof. intros (_ & P & _ & N & _). now apply retired_fields. Qed.

Lemma pending_get_delete_none mid mid' l :
  pending_get mid l = None -> pending_get mid (pending_delete mid' l) = None.
Proof.
  rewrite !pending_get_none, !in_map_iff. intros H [x [E Hx]].
  apply In_pending_delete in Hx. apply H. exists x. tauto.
Qed.

Lemma pending_get_replace_none mid m' l :
  pending_get mid l = None -> pending_get mid (pending_replace m' l) = None.
Proof. rewrite !pending_get_none, map_matchId_pending_replace. auto. Qed.

Lemma pending_get_set_none mid pm l :
  pending_get mid l = None -> matchId pm <> mid ->
  pending_get mid (pending_set pm l) = None.
Proof.
  intros H Hne. unfold pending_set. destruct (existsb _ l).
  - now apply pending_get_replace_none.
  - apply pending_get_none. rewrite map_app, in_app_iff. simpl.
    apply pending_get_none in H. intuition.
Qed.

Lemma retired_deleted mid mid' w w' :
  pendingMatches w' = pending_delete mid' (pendingMatches w) ->
  nextUuid w' = nextUuid w ->
  retired mid w -> retired mid w'.
Proof.
  unfold retired. intros -> ->. intros [A B]. split; [assumption|].
  now apply pending_get_delete_none.
Qed.

Lemma pendingMatches_removePlayer identifier w :
  pendingMatches (removePlayer identifier w) = pendingMatches w
  /\ nextUuid (removePlayer identifier w) = nextUuid w.
Proof.
  unfold removePlayer.
  match goal with |- context [queue_get ?t _] => destruct (queue_get t (activeQueue w)) end;
    split; reflexivity.
Qed.

Lemma retired_acceptMatch mid env now u mid' w :
  retired mid w -> retired mid (snd (acceptMatch env now u mid' w)).
Proof.
  intros H. unfold acceptMatch.
  destruct (pending_get mid' (pendingMatches w)) as [m|]; [|assumption].
  cbv zeta.
  assert (Hrep : forall m',
            retired mid (with_pendingMatches (pending_replace m' (pendingMatches w)) w)).
  { intros m'. destruct H as [A B]. split; [assumption|].
    simpl. now apply pending_get_replace_none. }
  assert (Hfin : forall m',
            retired mid (finalizeMatch env now m'
              (with_pendingMatches (pending_replace m' (pendingMatches w)) w))).
  { intros m'.
    destruct (finalizeMatch_fields env now m'
      (with_pendingMatches (pending_replace m' (pendingMatches w)) w))
      as (_ & _ & _ & F4 & F5 & _).
    eapply retired_deleted; [exact F4 | exact F5 | apply Hrep]. }
  destruct (String.eqb (p_userId (player1 m)) u);
    [|destruct (String.eqb (p_userId (player2 m)) u); [|assumption]].
  - destruct (negb (status_eqb (status (player1 m)) PENDING)); [assumption|].
    destruct (_ && _); simpl; auto.
  - destruct (negb (status_eqb (status (player2 m)) PENDING)); [assumption|].
    destruct (_ && _); simpl; auto.
Qed.

Lemma retired_cancelMatch mid env now m faulty reason w :
  retired mid w -> retired mid (cancelMatch env now m faulty reason w).
Proof.
  intros H. destruct (cancelMatch_matches env now m faulty reason w)
    as (_ & P & N & _).
  eapply retired_deleted; eauto.
Qed.

Lemma retired_handleMatchFound mid now p1 p2 w :
  retired mid w -> retired mid (handleMatchFound now p1 p2 w).
Proof.
  intros [A B]. split; simpl; [lia|].
  apply pending_get_set_none; [assumption|]. simpl. lia.
Qed.

Section RetiredFacts.

Variable cfg : Constants.

Lemma retired_pairing mid now candidates : forall matchedIds w,
  retired mid w -> retired mid (pairing cfg now candidates matchedIds w).
Proof.
  induction candidates as [|a later IH]; intros matchedIds w H; simpl; [assumption|].
  destruct (set_has (userId a) matchedIds); [now apply IH|].
  destruct (scan cfg (expand cfg now a) later matchedIds).
  - apply IH. apply retired_handleMatchFound. exact H.
  - apply IH. exact H.
Qed.

Lemma retired_step mid w ev : retired mid w -> retired mid (step cfg w ev).
Proof.
  intros H. unfold step. apply (retired_fields mid (handle cfg ev w)); try reflexivity.
  destruct ev; simpl.
  - exact H.
  - eapply retired_keeps; [apply keeps_matches_addPlayer | exact H].
  - destruct (pendingMatches_removePlayer identifier w) as [P N].
    eapply retired_fields; eauto.
  - now apply retired_acceptMatch.
  - unfold declineMatch. destruct (pending_get mid0 (pendingMatches w)); [|exact H].
    destruct (_ && _); simpl; [exact H|]. now apply retired_cancelMatch.
  - destruct (existsb _ _); [|exact H]. unfold handleMatchTimeout.
    simpl. destruct (pending_get mid0 (pendingMatches w)) eqn:G.
    + apply retired_cancelMatch. exact H.
    + exact H.
  - unfold matchmakingLoop. destruct (_ <? _)%nat; [exact H|].
    now apply retired_pairing.
  - destruct (pending_get mid0 (awaiting w)); [|exact H].
    eapply retired_keeps; [apply keeps_matches_finalizeMatch_resume|]. exact H.
Qed.

Lemma retired_run mid evs : forall w, retired mid w -> retired mid (run cfg evs w).
Proof.
  induction evs as [|ev evs IH]; simpl; [auto|].
  intros w H. apply IH. now apply retired_step.
Qed.

End RetiredFacts.

Lemma pending_get_delete_same mid l : pending_get mid (pending_delete mid l) = None.
Proof.
  apply pending_get_none. rewrite in_map_iff. intros [x [E Hx]].
  apply In_pending_delete in Hx. tauto.
Qed.

(** [acceptMatch] suspends exactly when it enters [finalizeMatch]. *)
Lemma acceptMatch_suspended env now u mid w w' :
  Inv w ->
  acceptMatch env now u mid w = (Suspended, w') ->
  exists m,
    pending_get mid (pendingMatches w) = Some m
    /\ In u (participants m)
    /\ w' = finalizeMatch env now (both_accepted m)
              (with_pendingMatches
                 (pending_replace (both_accepted m) (pendingMatches w)) w).
Proof.
  intros HI. unfold acceptMatch.
  destruct (pending_get mid (pendingMatches w)) as [m|] eqn:G; [|discriminate].
  cbv zeta. intros H. exists m. split; [reflexivity|].
  destruct m as [id ex [u1 s1 e1 st1] [u2 s2 e2 st2] tm]. simpl in *.
  destruct (String.eqb u1 u) eqn:E1.
  - apply String.eqb_eq in E1. split; [auto|].
    destruct st1; simpl in H; try discriminate.
    destruct st2; simpl in H; try discriminate.
    inversion H. reflexivity.
  - destruct (String.eqb u2 u) eqn:E2; [|discriminate].
    apply String.eqb_eq in E2. split; [auto|].
    destruct st2; simpl in H; try discriminate.
    destruct st1; simpl in H; try discriminate.
    inversion H. reflexivity.
Qed.

Section Finalization.

Variable cfg : Constants.

(** C4. When an [acceptMatch] enters finalization (it suspends on the
    game service), [createGame] is called in a world from which the
    match has already been removed and whose alarm has already been
    cleared, and it is the last thing done before suspending.  From then
    on, whatever else happens to the service, a decline of that match by
    anyone fails with "Match not found or expired" and changes nothing
    (so no penalty is recorded), and the expiry callback for it does
    nothing. *)
Theorem decline_after_mutual_accept env now u mid w w'
  (HI : Inv w)
  (Hacc : acceptMatch env now u mid w = (Suspended, w')) :
  (exists m w0,
     pending_get mid (pendingMatches w) = Some m
     /\ pending_get mid (pendingMatches w0) = None
     /\ ~ In mid (timers w0)
     /\ w' = with_awaiting (awaiting w0 ++ [both_accepted m])
               (perform (Call_createGame mid (p_userId (player1 m))
                           (p_userId (player2 m))) w0))
  /\ pending_get mid (pendingMatches w') = None
  /\ ~ In mid (timers w')
  /\ forall evs env' now' u',
       let w'' := run cfg evs w' in
       declineMatch env' now' u' mid w'' = (Threw "Match not found or expired", w'')
       /\ MatchNotFound "Match not found or expired"
       /\ handleMatchTimeout env' now' mid w'' = w''.
Proof.
  destruct (acceptMatch_suspended env now u mid w w' HI Hacc) as (m & G & Hu & E).
  pose proof G as Hin. apply pending_get_some in Hin. destruct Hin as [Hin Hid].
  pose proof (inv_open w HI) as O. rewrite Forall_forall in O.
  destruct (O m Hin) as (_ & _ & _ & _ & Htm).
  pose proof (inv_fresh w HI) as Fr. rewrite Forall_forall in Fr.
  specialize (Fr m Hin).
  set (m' := both_accepted m) in *.
  set (w1 := with_pendingMatches (pending_replace m' (pendingMatches w)) w) in *.
  assert (Hid' : matchId m' = mid) by exact Hid.
  assert (Htm' : timeoutId m' = Some mid) by (rewrite <- Hid; exact Htm).
  assert (Hgone : pending_get mid (pending_delete mid (pendingMatches w1)) = None)
    by apply pending_get_delete_same.
  split.
  { exists m.
    set (w3 := perform (Call_createSessionLog mid (p_userId (player1 m'))
                          (p_userId (player2 m')) "STARTED" now)
                 (with_pendingMatches
                    (pending_delete mid (pendingMatches (clearTimeout mid w1)))
                    (clearTimeout mid w1))).
    exists (if createSessionLog_throws env
            then perform (ConsoleError
                   "[MatchmakingService] [finalizeMatch] Failed to create session log") w3
            else w3).
    split; [exact G|].
    split; [|split].
    - destruct (createSessionLog_throws env); simpl; exact Hgone.
    - destruct (createSessionLog_throws env); simpl; intros F;
        apply filter_In in F; destruct F as [_ F];
        rewrite Nat.eqb_refl in F; discriminate.
    - rewrite E. unfold finalizeMatch. rewrite Htm', Hid'.
      destruct (createSessionLog_throws env); reflexivity. }
  destruct (finalizeMatch_fields env now m' w1) as (_ & _ & _ & F4 & F5 & _ & _ & F8).
  rewrite <- E in F4, F5, F8.
  assert (P : pending_get mid (pendingMatches w') = None).
  { rewrite F4, Hid'. exact Hgone. }
  split; [exact P|].
  split; [intros F; apply F8 in F; destruct F as [_ F]; now apply F|].
  intros evs env' now' u'. cbv zeta.
  assert (R : retired mid (run cfg evs w')).
  { apply retired_run. split; [|exact P]. rewrite F5. simpl. lia. }
  destruct R as [_ R].
  unfold declineMatch, handleMatchTimeout, MatchNotFound. rewrite R. auto.
Qed.

End Finalization.

(** * C3: accept is idempotent, finalization happens once *)

Lemma drain_quiet w : jobs w = [] -> drain w = w.
Proof.
  destruct w. unfold drain. simpl. intros ->. now rewrite app_nil_r.
Qed.

Lemma both_accepted_player1 m :
  both_accepted (with_player1 (with_status ACCEPTED (player1 m)) m) = both_accepted m.
Proof. destruct m. reflexivity. Qed.

Lemma both_accepted_player2 m :
  both_accepted (with_player2 (with_status ACCEPTED (player2 m)) m) = both_accepted m.
Proof. destruct m. reflexivity. Qed.

Lemma pending_get_replace_same m m' l :
  pending_get (matchId m) l = Some m -> matchId m' = matchId m ->
  pending_get (matchId m) (pending_replace m' l) = Some m'.
Proof.
  intros G E. unfold pending_get, pending_replace in *. rewrite E.
  induction l as [|x l IH]; simpl in *; [discriminate|].
  destruct (Nat.eqb (matchId m) (matchId x)) eqn:F.
  - simpl. rewrite E. now rewrite Nat.eqb_refl.
  - simpl. rewrite F. apply IH. exact G.
Qed.

Lemma pending_get_appended mid l m' :
  (forall a, In a l -> matchId a <> mid) -> matchId m' = mid ->
  pending_get mid (l ++ [m']) = Some m' /\ pending_delete mid (l ++ [m']) = l.
Proof.
  intros H E. unfold pending_get, pending_delete.
  induction l as [|x l IH]; simpl.
  - rewrite E, Nat.eqb_refl. auto.
  - assert (F : Nat.eqb mid (matchId x) = false).
    { apply Nat.eqb_neq. intros F. apply (H x); simpl; auto. }
    rewrite F. simpl. destruct IH as [I1 I2]; [intros a Ha; apply H; simpl; auto|].
    rewrite I1, I2. auto.
Qed.

Section AcceptFacts.

Variable cfg : Constants.

Lemma accept_gone env now u mid w :
  pending_get mid (pendingMatches w) = None -> jobs w = [] ->
  acceptMatch env now u mid w = (Threw "Match not found or expired", w)
  /\ step cfg w (AcceptMatch env now u mid) = w.
Proof.
  intros G J. unfold step, handle, acceptMatch. rewrite G. simpl.
  split; [reflexivity | now apply drain_quiet].
Qed.

Lemma accepts_gone mid calls : forall w,
  pending_get mid (pendingMatches w) = None -> jobs w = [] ->
  run cfg (accept_calls mid calls) w = w.
Proof.
  induction calls as [|c calls IH]; intros w G J; simpl; [reflexivity|].
  destruct (accept_gone (fst (fst c)) (snd (fst c)) (snd c) mid w G J) as [_ E].
  rewrite E. now apply IH.
Qed.

(** One [acceptMatch] on a pending match: nothing changes, or one
    participant is marked, or finalization starts. *)
Lemma accept_step_cases env now u w m :
  Inv w -> jobs w = [] ->
  pending_get (matchId m) (pendingMatches w) = Some m ->
  let w1 := step cfg w (AcceptMatch env now u (matchId m)) in
  (w1 = w
   /\ (p_userId (player1 m) = u -> status (player1 m) = ACCEPTED)
   /\ (p_userId (player2 m) = u -> status (player2 m) = ACCEPTED))
  \/ (exists m1,
        pending_get (matchId m) (pendingMatches w1) = Some m1
        /\ matchId m1 = matchId m
        /\ both_accepted m1 = both_accepted m
        /\ Inv w1 /\ jobs w1 = [] /\ trace w1 = trace w
        /\ awaiting w1 = awaiting w /\ server w1 = server w
        /\ ((p_userId (player1 m) = u /\ status (player1 m1) = ACCEPTED
             /\ player2 m1 = player2 m)
            \/ (p_userId (player2 m) = u /\ status (player2 m1) = ACCEPTED
                /\ player1 m1 = player1 m)))
  \/ (In u (participants m)
      /\ (p_userId (player1 m) <> u -> status (player1 m) = ACCEPTED)
      /\ (p_userId (player2 m) <> u -> status (player2 m) = ACCEPTED)
      /\ w1 = drain (finalizeMatch env now (both_accepted m)
                       (with_pendingMatches
                          (pending_replace (both_accepted m) (pendingMatches w)) w))).
Proof.
  intros HI J G. cbv zeta.
  pose proof (Inv_acceptMatch env now u (matchId m) w HI) as HI1.
  pose proof G as Hin. apply pending_get_some in Hin. destruct Hin as [Hin _].
  destruct (Inv_participants_distinct w m HI Hin) as [Hud _].
  pose proof (inv_open w HI) as O. rewrite Forall_forall in O.
  destruct (O m Hin) as (O1 & O2 & O3 & _).
  unfold step, handle.
  destruct (acceptMatch env now u (matchId m) w) as [o wx] eqn:EA.
  simpl in HI1. cbn [snd].
  destruct o.
  - (* Returned *)
    revert EA. unfold acceptMatch. rewrite G. cbv zeta.
    destruct (String.eqb (p_userId (player1 m)) u) eqn:E1.
    + apply String.eqb_eq in E1.
      destruct O1 as [S1|S1]; rewrite S1; simpl.
      * destruct O2 as [S2|S2]; rewrite S2; simpl; [|discriminate].
        intros EA. inversion EA as [Ew]. subst wx. right; left.
        exists (with_player1 (with_status ACCEPTED (player1 m)) m).
        rewrite drain_quiet by exact J.
        split; [now apply pending_get_replace_same|].
        split; [reflexivity|]. split; [apply both_accepted_player1|].
        split; [exact HI1|].
        repeat split; auto; simpl; rewrite ?J, ?app_nil_r; auto.
      * intros EA. inversion EA. subst wx. left. rewrite drain_quiet by assumption.
        repeat split; auto. intros E2. congruence.
    + destruct (String.eqb (p_userId (player2 m)) u) eqn:E2; [|discriminate].
      apply String.eqb_eq in E2. apply String.eqb_neq in E1.
      destruct O2 as [S2|S2]; rewrite S2; simpl.
      * destruct O1 as [S1|S1]; rewrite S1; simpl; [|discriminate].
        intros EA. inversion EA as [Ew]. subst wx. right; left.
        exists (with_player2 (with_status ACCEPTED (player2 m)) m).
        rewrite drain_quiet by exact J.
        split; [now apply pending_get_replace_same|].
        split; [reflexivity|]. split; [apply both_accepted_player2|].
        split; [exact HI1|].
        repeat split; auto; simpl; rewrite ?J, ?app_nil_r; auto.
      * intros EA. inversion EA. subst wx. left. rewrite drain_quiet by assumption.
        repeat split; auto. intros E3. congruence.
  - (* Threw *)
    revert EA. unfold acceptMatch. rewrite G. cbv zeta.
    destruct (String.eqb (p_userId (player1 m)) u) eqn:E1.
    { destruct (negb _); [discriminate|]. destruct (_ && _); discriminate. }
    destruct (String.eqb (p_userId (player2 m)) u) eqn:E2.
    { destruct (negb _); [discriminate|]. destruct (_ && _); discriminate. }
    intros EA. inversion EA. subst wx. left. rewrite drain_quiet by assumption.
    apply String.eqb_neq in E1, E2. repeat split; auto; intros; contradiction.
  - (* Suspended *)
    destruct (acceptMatch_suspended env now u (matchId m) w wx HI EA)
      as (m0 & G0 & Hu & Ew).
    rewrite G in G0. inversion G0; subst m0. right; right.
    split; [exact Hu|]. split; [|split; [|now rewrite Ew]].
    + intros Hne. revert EA. unfold acceptMatch. rewrite G. cbv zeta.
      apply String.eqb_neq in Hne. rewrite Hne.
      destruct (String.eqb (p_userId (player2 m)) u); [|discriminate].
      destruct (status (player2 m)); simpl; try discriminate.
      destruct (status (player1 m)); simpl; try discriminate. reflexivity.
    + intros Hne. revert EA. unfold acceptMatch. rewrite G. cbv zeta.
      destruct (String.eqb (p_userId (player1 m)) u) eqn:E1.
      * destruct (status (player1 m)); simpl; try discriminate.
        destruct (status (player2 m)); simpl; try discriminate. reflexivity.
      * apply String.eqb_neq in Hne. rewrite Hne. discriminate.
Qed.

End AcceptFacts.

Lemma finalizeMatch_trace env now m w :
  trace (finalizeMatch env now m w) = trace w ++ finalize_effects env now m.
Proof.
  unfold finalizeMatch, finalize_effects, session_report.
  destruct (timeoutId m); destruct (createSessionLog_throws env); simpl;
    rewrite <- ?app_assoc; reflexivity.
Qed.

Lemma finalize_effects_counts env now m :
  filter is_createGame (finalize_effects env now m)
  = [Call_createGame (matchId m) (p_userId (player1 m)) (p_userId (player2 m))]
  /\ filter is_sessionLog (finalize_effects env now m)
     = [Call_createSessionLog (matchId m) (p_userId (player1 m))
          (p_userId (player2 m)) "STARTED" now]
  /\ filter is_confirmed (finalize_effects env now m) = [].
Proof.
  unfold finalize_effects, session_report.
  destruct (createSessionLog_throws env); simpl; auto.
Qed.

Section AcceptSequences.

Variable cfg : Constants.

Lemma accepts_spec calls : forall w m,
  Inv w -> jobs w = [] ->
  pending_get (matchId m) (pendingMatches w) = Some m ->
  let w' := run cfg (accept_calls (matchId m) calls) w in
  server w' = server w
  /\ jobs w' = []
  /\ ((accepted_by calls (player1 m) /\ accepted_by calls (player2 m)) ->
      pending_get (matchId m) (pendingMatches w') = None
      /\ awaiting w' = awaiting w ++ [both_accepted m]
      /\ exists env now,
           trace w' = trace w ++ finalize_effects env now (both_accepted m))
  /\ (~ (accepted_by calls (player1 m) /\ accepted_by calls (player2 m)) ->
      trace w' = trace w).
Proof.
  induction calls as [|[[env now] u] rest IH]; intros w m HI J G; cbv zeta.
  - simpl. split; [reflexivity|]. split; [assumption|].
    split; [|intros _; reflexivity].
    intros [[A|[]] [B|[]]]. exfalso.
    pose proof G as Hin. apply pending_get_some in Hin. destruct Hin as [Hin _].
    pose proof (inv_open w HI) as O. rewrite Forall_forall in O.
    destruct (O m Hin) as (_ & _ & [O3|O3] & _); congruence.
  - pose proof G as Hin. apply pending_get_some in Hin. destruct Hin as [Hin _].
    destruct (Inv_participants_distinct w m HI Hin) as [Hud _].
    change (run cfg (accept_calls (matchId m) ((env, now, u) :: rest)) w)
      with (run cfg (accept_calls (matchId m) rest)
              (step cfg w (AcceptMatch env now u (matchId m)))).
    destruct (accept_step_cases cfg env now u w m HI J G)
      as [(Ew & A1 & A2) | [(m1 & G1 & Eid & Eb & HI1 & J1 & T1 & W1 & S1 & Hsw)
                           | (Hu & A1 & A2 & Ew)]].
    + (* nothing changed *)
      rewrite Ew. destruct (IH w m HI J G) as (I1 & I2 & I3 & I4).
      assert (Q1 : accepted_by ((env, now, u) :: rest) (player1 m)
                   <-> accepted_by rest (player1 m)).
      { unfold accepted_by. simpl. intuition. }
      assert (Q2 : accepted_by ((env, now, u) :: rest) (player2 m)
                   <-> accepted_by rest (player2 m)).
      { unfold accepted_by. simpl. intuition. }
      rewrite Q1, Q2. auto.
    + (* one participant marked *)
      set (w1 := step cfg w (AcceptMatch env now u (matchId m))) in *.
      assert (Q : (accepted_by ((env, now, u) :: rest) (player1 m)
                   /\ accepted_by ((env, now, u) :: rest) (player2 m))
                  <-> (accepted_by rest (player1 m1) /\ accepted_by rest (player2 m1))).
      { unfold accepted_by. simpl. clear IH.
        destruct Hsw as [(E & S & P)|(E & S & P)]; rewrite ?P.
        - assert (p_userId (player2 m) <> u) by congruence. intuition congruence.
        - assert (p_userId (player1 m) <> u) by congruence. intuition congruence. }
      rewrite <- Eid in G1.
      destruct (IH w1 m1 HI1 J1 G1) as (I1 & I2 & I3 & I4).
      rewrite Eid in I1, I2, I3, I4. rewrite Eb, T1, W1 in I3. rewrite T1 in I4.
      rewrite Q. split; [congruence|]. split; [assumption|]. auto.
    + (* finalization starts *)
      set (m' := both_accepted m) in *.
      set (w0 := with_pendingMatches (pending_replace m' (pendingMatches w)) w) in *.
      destruct (finalizeMatch_fields env now m' w0)
        as (F1 & _ & _ & F4 & _ & F6 & F7 & _).
      assert (Gone : pending_get (matchId m) (pendingMatches (drain (finalizeMatch env now m' w0))) = None).
      { unfold drain. cbn [pendingMatches with_jobs with_trace].
        rewrite F4. apply pending_get_delete_same. }
      assert (Jd : jobs (drain (finalizeMatch env now m' w0)) = []) by reflexivity.
      rewrite Ew, (accepts_gone cfg (matchId m) rest _ Gone Jd).
      split; [exact F1|]. split; [reflexivity|]. split.
      * intros _. split; [exact Gone|]. split; [exact F6|].
        exists env, now. unfold drain. cbn [trace with_jobs with_trace].
        rewrite F7. change (jobs w0) with (jobs w). rewrite J, app_nil_r.
        rewrite finalizeMatch_trace. reflexivity.
      * intros N. exfalso. apply N. unfold accepted_by. simpl.
        destruct (String.eqb_spec (p_userId (player1 m)) u) as [E1|E1];
          destruct (String.eqb_spec (p_userId (player2 m)) u) as [E2|E2]; auto.
Qed.

End AcceptSequences.

Section AcceptTheorem.

Variable cfg : Constants.

Lemma reply_confirms env now g msg mid m' w :
  server w = true -> jobs w = [] ->
  pending_get mid (awaiting w) = Some m' ->
  let w1 := step cfg w (GameReply env now mid (GameCreated g msg)) in
  pendingMatches w1 = pendingMatches w
  /\ jobs w1 = []
  /\ exists a b,
       trace w1 = trace w
         ++ [EmitTo (p_socketId (player1 m'))
               (match_confirmed g (p_userId (player1 m')) (p_userId (player2 m')));
             EmitTo (p_socketId (player2 m'))
               (match_confirmed g (p_userId (player1 m')) (p_userId (player2 m')));
             EmitAll (queue_stats a b)].
Proof.
  intros Hs J G. cbv zeta. unfold step, handle. rewrite G.
  destruct w as [sv q sk pm tm nx aw jb tr]. simpl in Hs, J. subst sv jb.
  unfold finalizeMatch_resume, handleGameCreationSuccess, emitQueueStats, emit.
  simpl. repeat split. do 2 eexists. rewrite app_nil_r, <- !app_assoc. reflexivity.
Qed.

(** C3. Let [m] be a pending match of a quiescent state satisfying the
    invariant, with the server attached.  An accept by a participant
    whose status is not PENDING returns with the world unchanged.  After
    any sequence of accept calls on [m] (any callers, any repetitions),
    no match_confirmed has been emitted and: if both participants have
    accepted, [createGame] (and the session log) has been called exactly
    once, for this match and its two players; otherwise it has not been
    called.  When the game service then answers {success:true, gameId},
    and whatever accept calls follow, exactly one match_confirmed goes to
    the socket of each participant and [createGame] is not called
    again. *)
Theorem accept_finalizes_once w m
  (HI : Inv w) (HJ : jobs w = [])
  (Hm : pending_get (matchId m) (pendingMatches w) = Some m)
  (Hs : server w = true) :
  let mid := matchId m in
  let u1 := p_userId (player1 m) in
  let u2 := p_userId (player2 m) in
  (forall env now p, In p [player1 m; player2 m] -> status p <> PENDING ->
     acceptMatch env now (p_userId p) mid w = (Returned, w))
  /\ forall calls,
       let w' := run cfg (accept_calls mid calls) w in
       exists new,
         trace w' = trace w ++ new
         /\ filter is_confirmed new = []
         /\ (~ (accepted_by calls (player1 m) /\ accepted_by calls (player2 m)) ->
             filter is_createGame new = [])
         /\ ((accepted_by calls (player1 m) /\ accepted_by calls (player2 m)) ->
             filter is_createGame new = [Call_createGame mid u1 u2]
             /\ List.length (filter is_sessionLog new) = 1%nat
             /\ forall env now g msg calls',
                  let w'' := run cfg (GameReply env now mid (GameCreated g msg)
                                      :: accept_calls mid calls') w' in
                  exists new',
                    trace w'' = trace w' ++ new'
                    /\ filter is_createGame new' = []
                    /\ filter is_confirmed new'
                       = [EmitTo (p_socketId (player1 m)) (match_confirmed g u1 u2);
                          EmitTo (p_socketId (player2 m)) (match_confirmed g u1 u2)]).
Proof.
  cbv zeta.
  pose proof Hm as Hin. apply pending_get_some in Hin. destruct Hin as [Hin _].
  destruct (Inv_participants_distinct w m HI Hin) as [Hud _].
  split.
  - intros env now p Hp Hst. unfold acceptMatch. rewrite Hm. cbv zeta.
    simpl in Hp. destruct Hp as [<-|[<-|[]]].
    + rewrite String.eqb_refl. destruct (status (player1 m)); simpl; congruence.
    + assert (E : String.eqb (p_userId (player1 m)) (p_userId (player2 m)) = false)
        by now apply String.eqb_neq.
      rewrite E, String.eqb_refl. destruct (status (player2 m)); simpl; congruence.
  - intros calls.
    destruct (accepts_spec cfg calls w m HI HJ Hm) as (S & J & Hyes & Hno).
    set (w' := run cfg (accept_calls (matchId m) calls) w) in *.
    assert (Hdec : (accepted_by calls (player1 m) /\ accepted_by calls (player2 m))
                   \/ ~ (accepted_by calls (player1 m) /\ accepted_by calls (player2 m))).
    { unfold accepted_by.
      destruct (status (player1 m)), (status (player2 m));
        destruct (in_dec string_dec (p_userId (player1 m)) (callers calls));
        destruct (in_dec string_dec (p_userId (player2 m)) (callers calls));
        try (left; split; auto; fail);
        right; intros [[?|?] [?|?]]; try discriminate; contradiction. }
    destruct Hdec as [Hb|Hb].
    + destruct (Hyes Hb) as (Gone & Aw & env0 & now0 & T).
      destruct (finalize_effects_counts env0 now0 (both_accepted m)) as (C1 & C2 & C3).
      exists (finalize_effects env0 now0 (both_accepted m)).
      split; [exact T|]. split; [exact C3|]. split; [intros N; contradiction|].
      intros _. split; [exact C1|]. split; [rewrite C2; reflexivity|].
      intros env now g msg calls'.
      assert (Ga : pending_get (matchId m) (awaiting w') = Some (both_accepted m)).
      { rewrite Aw. apply pending_get_appended; [|reflexivity].
        intros a Ha E. apply (inv_apart w HI m a Hin Ha). congruence. }
      destruct (reply_confirms env now g msg (matchId m) (both_accepted m) w'
                  (eq_trans S Hs) J Ga) as (P1 & J1 & a & b & T1).
      change (run cfg (GameReply env now (matchId m) (GameCreated g msg)
                       :: accept_calls (matchId m) calls') w')
        with (run cfg (accept_calls (matchId m) calls')
                (step cfg w' (GameReply env now (matchId m) (GameCreated g msg)))).
      rewrite accepts_gone; [|rewrite P1; exact Gone|exact J1].
      eexists. split; [exact T1|]. split; reflexivity.
    + exists []. rewrite app_nil_r. split; [now apply Hno|].
      split; [reflexivity|]. split; [reflexivity|]. intros; contradiction.
Qed.

End AcceptTheorem.

(** * C1: the matcher tick *)

Lemma compare_candidates_le a b :
  (compare_candidates a b <=? 0) = true <-> precedes a b.
Proof.
  unfold compare_candidates, precedes. rewrite Z.leb_le.
  destruct (priority a), (priority b); simpl; split; intros H;
    try lia; try (right; split; [reflexivity|lia]); try (left; auto; fail);
    destruct H as [[? ?]|[? ?]]; try discriminate; try lia.
Qed.

Lemma compare_candidates_gt a b :
  (compare_candidates a b <=? 0) = false -> precedes b a.
Proof.
  unfold compare_candidates, precedes. rewrite Z.leb_gt.
  destruct (priority a), (priority b); simpl; intros H; try lia;
    try (right; split; [reflexivity|lia]); left; auto.
Qed.

Lemma precedes_trans a b c : precedes a b -> precedes b c -> precedes a c.
Proof.
  unfold precedes. intros [[A1 A2]|[A1 A2]] [[B1 B2]|[B1 B2]].
  - congruence.
  - left. split; congruence.
  - left. split; congruence.
  - right. split; [congruence|lia].
Qed.

Lemma sort_insert_sorted x l :
  StronglySorted precedes l -> StronglySorted precedes (sort_insert x l).
Proof.
  induction 1 as [|y l Hs IH Hy]; simpl.
  - constructor; constructor.
  - destruct (compare_candidates x y <=? 0) eqn:E.
    + apply compare_candidates_le in E. constructor.
      * now constructor.
      * constructor; [assumption|].
        eapply Forall_impl; [|exact Hy]. intros z Hz. eapply precedes_trans; eauto.
    + apply compare_candidates_gt in E. constructor; [assumption|].
      rewrite Forall_forall in *. intros z Hz.
      apply (Permutation_in _ (Permutation_sym (sort_insert_perm x l))) in Hz.
      destruct Hz as [<-|Hz]; auto.
Qed.

Lemma sort_candidates_sorted l : StronglySorted precedes (sort_candidates l).
Proof.
  induction l as [|x l IH]; simpl; [constructor|]. now apply sort_insert_sorted.
Qed.

Section FirstFitFacts.

Variable cfg : Constants.
Variable now : Z.

Lemma compatible_within a b :
  compatible cfg a b = true <-> within_tolerance cfg a b.
Proof.
  unfold compatible, within_tolerance, toleranceA, toleranceB.
  rewrite andb_true_iff, !Z.leb_le. destruct (priority a); lia.
Qed.

Lemma scan_first a later matched b :
  scan cfg a later matched = Some b ->
  exists before after,
    later = before ++ b :: after
    /\ eligible cfg matched a b
    /\ forall c, In c before -> ~ eligible cfg matched a c.
Proof.
  induction later as [|c later IH]; simpl; [discriminate|].
  destruct (set_has (userId c) matched) eqn:Hm.
  - intros H. destruct (IH H) as (before & after & E & He & Hn).
    exists (c :: before), after. subst. repeat split; try apply He.
    intros x [<-|Hx]; [|now apply Hn].
    intros [F _]. apply set_has_true in Hm. contradiction.
  - destruct (compatible cfg a c) eqn:Hc.
    + intros E. inversion E; subst. exists [], later.
      apply set_has_false in Hm. apply compatible_within in Hc.
      repeat split; auto.
    + intros H. destruct (IH H) as (before & after & E & He & Hn).
      exists (c :: before), after. subst. repeat split; try apply He.
      intros x [<-|Hx]; [|now apply Hn].
      intros [_ F]. apply compatible_within in F. congruence.
Qed.

Lemma scan_none a later matched :
  scan cfg a later matched = None ->
  forall c, In c later -> ~ eligible cfg matched a c.
Proof.
  induction later as [|c later IH]; simpl; [tauto|].
  destruct (set_has (userId c) matched) eqn:Hm.
  - intros H x [<-|Hx]; [|now apply IH].
    intros [F _]. apply set_has_true in Hm. contradiction.
  - destruct (compatible cfg a c) eqn:Hc; [discriminate|].
    intros H x [<-|Hx]; [|now apply IH].
    intros [_ F]. apply compatible_within in F. congruence.
Qed.

Lemma pending_set_fresh pm l n :
  Forall (fun m => (matchId m < n)%nat) l -> matchId pm = n ->
  pending_set pm l = l ++ [pm].
Proof.
  intros H E. unfold pending_set.
  destruct (existsb _ l) eqn:X; [|reflexivity].
  apply existsb_exists in X. destruct X as [x [Hx F]]. apply Nat.eqb_eq in F.
  rewrite Forall_forall in H. specialize (H x Hx). lia.
Qed.

Lemma pairing_first_fit candidates : forall matched w,
  Forall (fun m => (matchId m < nextUuid w)%nat) (pendingMatches w) ->
  exists pairs,
    first_fit cfg now candidates matched pairs
    /\ pendingMatches (pairing cfg now candidates matched w)
       = pendingMatches w ++ proposals now (nextUuid w) pairs.
Proof.
  induction candidates as [|a later IH]; intros matched w Hf; simpl.
  - exists []. split; [constructor|]. simpl. now rewrite app_nil_r.
  - destruct (set_has (userId a) matched) eqn:Hm.
    + apply set_has_true in Hm. destruct (IH matched w Hf) as (pairs & F & P).
      exists pairs. split; [now apply ff_skip | exact P].
    + apply set_has_false in Hm.
      set (a' := expand cfg now a).
      set (w1 := with_activeQueue (queue_replace a' (activeQueue w)) w).
      destruct (scan cfg a' later matched) as [b|] eqn:Hscan.
      * destruct (scan_first a' later matched b Hscan)
          as (before & after & E & He & Hn).
        set (pm := {| matchId := nextUuid w;
                      expiresAt := now + MATCH_ACCEPT_TIMEOUT_MS;
                      player1 := mkParticipant (userId a') (socketId a') (elo a') PENDING;
                      player2 := mkParticipant (userId b) (socketId b) (elo b) PENDING;
                      timeoutId := Some (nextUuid w) |}).
        assert (Hp : pendingMatches (handleMatchFound now a' b w1)
                     = pendingMatches w ++ [pm]).
        { simpl. apply (pending_set_fresh pm (pendingMatches w) (nextUuid w)); auto. }
        assert (Hf' : Forall (fun m => (matchId m < nextUuid (handleMatchFound now a' b w1))%nat)
                             (pendingMatches (handleMatchFound now a' b w1))).
        { rewrite Hp. simpl. apply Forall_app. split.
          - eapply Forall_impl; [|exact Hf]. simpl. intros; lia.
          - constructor; [simpl; lia|constructor]. }
        destruct (IH (set_add (userId b) (set_add (userId a') matched))
                     (handleMatchFound now a' b w1) Hf') as (pairs & F & P).
        exists ((a', b) :: pairs). split.
        -- eapply ff_pair; eauto.
           intros x. rewrite !In_set_add. unfold a'. rewrite userId_expand. tauto.
        -- rewrite P, Hp, <- app_assoc. reflexivity.
      * destruct (IH matched w1 Hf) as (pairs & F & P).
        exists pairs. split; [|exact P].
        apply ff_alone; auto. now apply scan_none.
Qed.

(** C1. On a tick with at least two waiting players (in a state
    satisfying the invariant), the candidates are the waiting players
    rearranged so that every candidate comes before every later one in
    the order "priority first, then ascending elo", and the pending
    matches created by the tick are exactly those of the first-fit rule:
    going through the candidates in that order, an unmatched player A
    (its range expanded for this tick) is paired with the first later
    candidate B that is not yet matched and satisfies
    |A.elo - B.elo| <= min(BASE_TOLERANCE * A.rangeFactor * (A.priority ? 2 : 1),
                           BASE_TOLERANCE * B.rangeFactor),
    the bonus being on the active side only. *)
Theorem tick_pairs_first_fit w
  (HI : Inv w) (H2 : (2 <= List.length (activeQueue w))%nat) :
  let candidates := sort_candidates (activeQueue w) in
  Permutation (activeQueue w) candidates
  /\ StronglySorted precedes candidates
  /\ exists pairs,
       first_fit cfg now candidates [] pairs
       /\ pendingMatches (matchmakingLoop cfg now w)
          = pendingMatches w ++ proposals now (nextUuid w) pairs.
Proof.
  cbv zeta. split; [apply sort_candidates_perm|].
  split; [apply sort_candidates_sorted|].
  unfold matchmakingLoop.
  assert (E : (List.length (activeQueue w) <? 2)%nat = false)
    by (apply Nat.ltb_ge; exact H2).
  rewrite E. apply pairing_first_fit. apply (inv_fresh w HI).
Qed.

End FirstFitFacts.

(** * C9: an exception during the tick *)

Lemma emit_unattached e w : server w = false -> emit e w = w.
Proof. destruct w. simpl. intros ->. reflexivity. Qed.

Lemma emit_attached e w : server w = true -> emit e w = perform e w.
Proof. unfold emit, perform. intros ->. reflexivity. Qed.

Lemma emit_or_throw_reliable e w :
  emit_or_throw (fun _ => None) e w = Normal (emit e w).
Proof.
  unfold emit_or_throw. destruct (server w) eqn:S.
  - now rewrite emit_attached.
  - now rewrite emit_unattached.
Qed.

Lemma handleMatchFound_throwing_reliable now p1 p2 w :
  handleMatchFound_throwing (fun _ => None) now p1 p2 w
  = Normal (handleMatchFound now p1 p2 w).
Proof.
  unfold handleMatchFound_throwing, handleMatchFound, emitQueueStats_throwing,
    emitQueueStats.
  cbv zeta. rewrite emit_or_throw_reliable. cbn [andThen].
  rewrite emit_or_throw_reliable. cbn [andThen].
  rewrite emit_or_throw_reliable. reflexivity.
Qed.

Lemma console_emit_or_throw faulty e w :
  is_console e = false ->
  filter is_console (trace (world_of (emit_or_throw faulty e w)))
  = filter is_console (trace w).
Proof.
  intros He. unfold emit_or_throw. destruct (server w); [|reflexivity].
  destruct (faulty e); [reflexivity|]. simpl.
  rewrite filter_app. simpl. rewrite He. apply app_nil_r.
Qed.

Lemma console_andThen c k t :
  filter is_console (trace (world_of c)) = t ->
  (forall w, filter is_console (trace w) = t ->
             filter is_console (trace (world_of (k w))) = t) ->
  filter is_console (trace (world_of (andThen c k))) = t.
Proof. destruct c; simpl; auto. Qed.

Lemma console_handleMatchFound_throwing faulty now p1 p2 w :
  filter is_console (trace (world_of (handleMatchFound_throwing faulty now p1 p2 w)))
  = filter is_console (trace w).
Proof.
  unfold handleMatchFound_throwing, emitQueueStats_throwing. cbv zeta.
  apply console_andThen; [now rewrite console_emit_or_throw|].
  intros w7 H7. apply console_andThen; [now rewrite console_emit_or_throw|].
  intros w8 H8. now rewrite console_emit_or_throw.
Qed.

Section ThrowingTickFacts.

Variable cfg : Constants.

Lemma pairing_throwing_reliable now candidates : forall matchedIds w,
  pairing_throwing cfg (fun _ => None) now candidates matchedIds w
  = Normal (pairing cfg now candidates matchedIds w).
Proof.
  induction candidates as [|a later IH]; intros matchedIds w; simpl; [reflexivity|].
  destruct (set_has (userId a) matchedIds); [apply IH|].
  destruct (scan cfg (expand cfg now a) later matchedIds); [|apply IH].
  rewrite handleMatchFound_throwing_reliable. simpl. apply IH.
Qed.

Lemma console_pairing_throwing faulty now candidates : forall matchedIds w,
  filter is_console
    (trace (world_of (pairing_throwing cfg faulty now candidates matchedIds w)))
  = filter is_console (trace w).
Proof.
  induction candidates as [|a later IH]; intros matchedIds w; simpl; [reflexivity|].
  destruct (set_has (userId a) matchedIds); [apply IH|].
  destruct (scan cfg (expand cfg now a) later matchedIds);
    [|rewrite IH; reflexivity].
  apply console_andThen.
  - rewrite console_handleMatchFound_throwing. reflexivity.
  - intros w' H. rewrite IH. exact H.
Qed.

End ThrowingTickFacts.

(** C9 (what the code does).  With no throwing, the callback is the tick
    of the service.  Whatever the server does, a run of the callback
    writes no error report.  And with two compatible players waiting and
    a server that throws on the proposal, the exception leaves the
    callback: the players are already out of the queue and in a pending
    match, nobody has been notified, nothing has been logged. *)
Theorem tick_exception_escapes :
  (forall cfg now w,
     intervalCallback cfg (fun _ => None) now w = Normal (matchmakingLoop cfg now w))
  /\ (forall cfg faulty now w,
        filter is_console (trace (world_of (intervalCallback cfg faulty now w)))
        = filter is_console (trace w))
  /\ two_waiting
     = run recommended
         [SetServer;
          AddPlayer env_free 0 "A" "sA" 1500 false;
          AddPlayer env_free 0 "B" "sB" 1520 false] initial
  /\ exists w1,
       intervalCallback recommended proposals_fail 1000 two_waiting
       = Abrupt "transport closed" w1
       /\ activeQueue w1 = []
       /\ map participants (pendingMatches w1) = [["A"; "B"]]
       /\ trace w1 = trace two_waiting
       /\ filter is_console (trace w1) = [].
Proof.
  split; [|split; [|split]].
  - intros cfg now w. unfold intervalCallback, matchmakingLoop_throwing, matchmakingLoop.
    destruct (_ <? _)%nat; [reflexivity|]. apply pairing_throwing_reliable.
  - intros cfg faulty now w. unfold intervalCallback, matchmakingLoop_throwing.
    destruct (_ <? _)%nat; [reflexivity|]. apply console_pairing_throwing.
  - reflexivity.
  - eexists. split; [vm_compute; reflexivity|]. repeat split.
Qed.

(** * Concrete runs: counterexamples and instances *)

(** C8, the failing run: in this reachable state the second
    [removePlayer("a")] is not a no-op.  The first call removes user "a";
    the second one finds no user "a", resolves "a" as the socket of user
    "b" and removes "b" too. *)
Lemma removePlayer_twice_differs :
  Inv shared_name
  /\ waitingUsers (removePlayer "a" shared_name) = ["b"]
  /\ waitingUsers (removePlayer "a" (removePlayer "a" shared_name)) = []
  /\ removePlayer "a" (removePlayer "a" shared_name) <> removePlayer "a" shared_name.
Proof.
  split; [apply Inv_run, Inv_initial|].
  split; [reflexivity|]. split; [reflexivity|].
  intros E. apply (f_equal waitingUsers) in E. vm_compute in E. discriminate.
Qed.

(** C5, counterexample: a participant who is not faulty is not always
    queued again.  Match 0 is pending between "A" and "B" and "C" joins
    from the socket "sA" before "B" declines: "A" is sent
    queue_joined{priority:true} and stays out of the queue, [addPlayer]
    having found the socket active.  Likewise when "A" has an active
    penalty by the time "B" declines the proposed match. *)
Lemma cancel_leaves_innocent_out :
  (let w := run recommended
              (proposal_events ++ [AddPlayer env_free 1500 "C" "sA" 1400 false])
              initial in
   let w' := cancelMatch env_free 2000 proposed_match ["B"] "declined" w in
   Inv w
   /\ pending_get 0%nat (pendingMatches w) = Some proposed_match
   /\ server w = true
   /\ declineMatch env_free 2000 "B" 0%nat w = (Returned, w')
   /\ ~ In "A" ["B"]
   /\ In (EmitTo "sA" (match_cancelled "opponent_declined" 0%nat)) (trace w')
   /\ In (EmitTo "sA" (queue_joined "A" 1500 2000 true)) (trace w')
   /\ ~ In "A" (waitingUsers w'))
  /\ (let w' := cancelMatch env_A_banned 2000 proposed_match ["B"] "declined"
                  proposed in
      Inv proposed
      /\ pending_get 0%nat (pendingMatches proposed) = Some proposed_match
      /\ server proposed = true
      /\ declineMatch env_A_banned 2000 "B" 0%nat proposed = (Returned, w')
      /\ In (EmitTo "sA" (queue_joined "A" 1500 2000 true)) (trace w')
      /\ ~ In "A" (waitingUsers w')).
Proof.
  cbv zeta. split.
  - split; [apply Inv_run, Inv_initial|].
    split; [vm_compute; reflexivity|]. split; [vm_compute; reflexivity|].
    split; [vm_compute; reflexivity|].
    split; [intros [F|[]]; discriminate|].
    split; [vm_compute; tauto|]. split; [vm_compute; tauto|].
    vm_compute. intuition discriminate.
  - split; [apply Inv_run, Inv_initial|].
    split; [vm_compute; reflexivity|]. split; [vm_compute; reflexivity|].
    split; [vm_compute; reflexivity|].
    split; [vm_compute; tauto|].
    vm_compute. intuition discriminate.
Qed.

(** C6, counterexample: the error is that of the first guard that fails,
    not of every guard that would.  "A" waits on socket "sA" and asks
    again from the same socket: the socket is active, yet the call fails
    with "User already in queue", which is not [SocketBusy].  And if "A"
    is banned by then the call fails with [Banned], not with
    [AlreadyQueued], although "A" is in the waiting index. *)
Lemma addPlayer_first_guard_decides :
  two_waiting
  = run recommended
      [SetServer;
       AddPlayer env_free 0 "A" "sA" 1500 false;
       AddPlayer env_free 0 "B" "sB" 1520 false] initial
  /\ In "A" (waitingUsers two_waiting)
  /\ In "sA" (activeSockets two_waiting)
  /\ addPlayer env_free 10 "A" "sA" 1500 false two_waiting
     = (Threw "User already in queue", two_waiting)
  /\ ~ fails_with SocketBusy
        (addPlayer env_free 10 "A" "sA" 1500 false two_waiting) two_waiting
  /\ getActivePenalty env_A_banned "A" <> None
  /\ addPlayer env_A_banned 10 "A" "sA" 1500 false two_waiting
     = (Threw "You are banned until 2030-01-01", two_waiting)
  /\ ~ fails_with AlreadyQueued
        (addPlayer env_A_banned 10 "A" "sA" 1500 false two_waiting) two_waiting.
Proof.
  split; [vm_compute; reflexivity|].
  split; [simpl; auto|]. split; [simpl; auto|].
  split; [vm_compute; reflexivity|].
  split.
  { intros [msg [E K]]. unfold SocketBusy in K. subst msg.
    vm_compute in E. discriminate. }
  split; [vm_compute; discriminate|].
  split; [vm_compute; reflexivity|].
  intros [msg [E K]]. vm_compute in E.
  destruct K as [K|K]; subst msg; discriminate.
Qed.


(** C1, an instance: a tick over two waiting players. *)
Lemma tick_pairs_first_fit_witness :
  Inv two_waiting
  /\ (2 <= List.length (activeQueue two_waiting))%nat
  /\ exists pairs,
       first_fit recommended 1000 (sort_candidates (activeQueue two_waiting)) [] pairs
       /\ pendingMatches (matchmakingLoop recommended 1000 two_waiting)
          = pendingMatches two_waiting ++ proposals 1000 (nextUuid two_waiting) pairs.
Proof.
  assert (H : Inv two_waiting).
  { replace two_waiting with
      (run recommended
         [SetServer;
          AddPlayer env_free 0 "A" "sA" 1500 false;
          AddPlayer env_free 0 "B" "sB" 1520 false] initial) by reflexivity.
    apply Inv_run, Inv_initial. }
  assert (H2 : (2 <= List.length (activeQueue two_waiting))%nat) by (simpl; lia).
  split; [exact H|]. split; [exact H2|].
  apply (tick_pairs_first_fit recommended 1000 two_waiting H H2).
Defined.

(** C3, an instance: "A" accepts twice, then "B" accepts. *)
Lemma accept_finalizes_once_witness :
  Inv proposed
  /\ jobs proposed = []
  /\ pending_get (matchId proposed_match) (pendingMatches proposed) = Some proposed_match
  /\ server proposed = true
  /\ exists new,
       trace (run recommended
                (accept_calls 0%nat
                   [(env_free, 2000, "A"); (env_free, 2050, "A"); (env_free, 2100, "B")])
                proposed)
       = trace proposed ++ new
       /\ filter is_createGame new = [Call_createGame 0%nat "A" "B"].
Proof.
  assert (H : Inv proposed) by apply Inv_run, Inv_initial.
  split; [exact H|]. split; [reflexivity|]. split; [reflexivity|].
  split; [reflexivity|].
  destruct (proj2 (accept_finalizes_once recommended proposed proposed_match
                     H eq_refl eq_refl eq_refl)
                  [(env_free, 2000, "A"); (env_free, 2050, "A"); (env_free, 2100, "B")])
    as (new & T & _ & _ & Hyes).
  exists new. split; [exact T|].
  apply Hyes. unfold accepted_by. simpl. tauto.
Defined.

(** C4, an instance: "A" declines after both have accepted. *)
Lemma decline_after_mutual_accept_witness :
  Inv half_accepted
  /\ acceptMatch env_free 2100 "B" 0%nat half_accepted
     = (Suspended, snd (acceptMatch env_free 2100 "B" 0%nat half_accepted))
  /\ declineMatch env_free 2200 "A" 0%nat
       (snd (acceptMatch env_free 2100 "B" 0%nat half_accepted))
     = (Threw "Match not found or expired",
        snd (acceptMatch env_free 2100 "B" 0%nat half_accepted)).
Proof.
  assert (H : Inv half_accepted) by apply Inv_run, Inv_initial.
  assert (Hacc : acceptMatch env_free 2100 "B" 0%nat half_accepted
                 = (Suspended, snd (acceptMatch env_free 2100 "B" 0%nat half_accepted)))
    by reflexivity.
  split; [exact H|]. split; [exact Hacc|].
  destruct (decline_after_mutual_accept recommended env_free 2100 "B" 0%nat
              half_accepted _ H Hacc) as (_ & _ & _ & D).
  apply (D [] env_free 2200 "A").
Defined.

(** C5, an instance: "B" declines the proposed match. *)
Lemma cancel_policy_witness :
  Inv proposed
  /\ pending_get (matchId proposed_match) (pendingMatches proposed) = Some proposed_match
  /\ server proposed = true
  /\ cancel_outcome env_free 2000 proposed_match ["B"] "declined" proposed
       (cancelMatch env_free 2000 proposed_match ["B"] "declined" proposed).
Proof.
  assert (H : Inv proposed) by apply Inv_run, Inv_initial.
  split; [exact H|]. split; [reflexivity|]. split; [reflexivity|].
  apply (proj1 (cancel_policy env_free 2000 proposed proposed_match H eq_refl eq_refl) "B").
  simpl. auto.
Defined.

(** C7, an instance: the game service refuses after both accepted. *)
Lemma game_refused_requeues_witness :
  server awaiting_game = true
  /\ In (createQueuedPlayer 3000 "A" "sA" 1500 true)
        (activeQueue (finalizeMatch_resume env_free 3000 (both_accepted proposed_match)
                        (GameRefused "GAME_ALREADY_EXISTS" "fallback") awaiting_game)).
Proof.
  split; [reflexivity|].
  destruct (game_refused_requeues env_free 3000 (both_accepted proposed_match)
              "GAME_ALREADY_EXISTS" "fallback" awaiting_game eq_refl)
    as (new & _ & _ & A & _).
  apply A. vm_compute. repeat split; tauto.
Defined.

(** * The secondary indices mirror the primary ones *)

Lemma map_socketId_queue_delete u q p :
  NoDup (map userId q) -> NoDup (map socketId q) ->
  queue_get u q = Some p ->
  map socketId (queue_delete u q) = set_delete (socketId p) (map socketId q).
Proof.
  intros Hu Hs G. apply queue_get_some in G. destruct G as [Hp Up].
  unfold queue_delete, set_delete. induction q as [|x q IH]; simpl; [reflexivity|].
  inversion Hu as [|? ? Hux Hu']; inversion Hs as [|? ? Hsx Hs']; subst.
  destruct Hp as [->|Hp].
  - rewrite !String.eqb_refl. simpl.
    transitivity (map socketId q).
    + f_equal. apply forallb_filter_id. apply forallb_forall. intros y Hy.
      apply negb_true_iff, String.eqb_neq. intros E. apply Hux.
      rewrite E. now apply in_map.
    + symmetry. apply forallb_filter_id. apply forallb_forall. intros y Hy.
      apply negb_true_iff, String.eqb_neq. intros E. apply Hsx. now rewrite E.
  - assert (E1 : String.eqb (userId p) (userId x) = false).
    { apply String.eqb_neq. intros E. apply Hux. rewrite <- E. now apply in_map. }
    assert (E2 : String.eqb (socketId p) (socketId x) = false).
    { apply String.eqb_neq. intros E. apply Hsx. rewrite <- E. now apply in_map. }
    rewrite E1, E2. simpl. f_equal. now apply IH.
Qed.

Lemma map_matchId_pending_delete mid l :
  map matchId (pending_delete mid l)
  = filter (fun x => negb (Nat.eqb mid x)) (map matchId l).
Proof.
  unfold pending_delete. induction l as [|m l IH]; simpl; [reflexivity|].
  destruct (Nat.eqb mid (matchId m)); simpl; now rewrite IH.
Qed.

Lemma filter_idem {A} (f : A -> bool) l : filter f (filter f l) = filter f l.
Proof.
  induction l as [|x l IH]; simpl; [reflexivity|].
  destruct (f x) eqn:E; simpl; [rewrite E; now f_equal | exact IH].
Qed.

Lemma Mirror_fields w w' :
  activeQueue w' = activeQueue w -> activeSockets w' = activeSockets w ->
  pendingMatches w' = pendingMatches w -> timers w' = timers w ->
  Mirror w -> Mirror w'.
Proof.
  intros Eq Es Ep Et [H1 H2]. constructor; congruence.
Qed.

Lemma Mirror_same_state w w' : same_state w w' -> Mirror w -> Mirror w'.
Proof.
  intros (_ & Eq & Es & Ep & Et & _). now apply Mirror_fields.
Qed.

Lemma Mirror_emit e w : Mirror w -> Mirror (emit e w).
Proof. apply Mirror_same_state, same_state_emit. Qed.

Lemma Mirror_perform e w : Mirror w -> Mirror (perform e w).
Proof. apply Mirror_same_state, same_state_perform. Qed.

Lemma Mirror_addPlayer env now u s e prio w :
  Mirror w -> Mirror (snd (addPlayer env now u s e prio w)).
Proof.
  intros [H1 H2].
  destruct (addPlayer_cases env now u s e prio w)
    as [[msg E] | (_ & _ & _ & _ & E)]; rewrite E; simpl; [now constructor|].
  constructor; simpl; [|assumption]. rewrite map_app, H1. reflexivity.
Qed.

Lemma Mirror_removePlayer identifier w :
  Inv w -> Mirror w -> Mirror (removePlayer identifier w).
Proof.
  intros HI [H1 H2]. unfold removePlayer.
  match goal with |- context [queue_get ?t _] => set (targetId := t) end.
  destruct (queue_get targetId (activeQueue w)) as [player|] eqn:G; [|now constructor].
  constructor; simpl; [|assumption].
  rewrite H1. symmetry. apply map_socketId_queue_delete; [| |assumption].
  - pose proof (inv_users w HI) as Hu. now apply NoDup_app_remove_r in Hu.
  - apply (inv_sockets w HI).
Qed.

Lemma Mirror_requeue env now line p w : Mirror w -> Mirror (requeue env now line p w).
Proof.
  intros H. unfold requeue.
  pose proof (Mirror_addPlayer env now (p_userId p) (p_socketId p) (p_elo p) true w H) as Ha.
  destruct (addPlayer env now (p_userId p) (p_socketId p) (p_elo p) true w)
    as [[| msg |] w1]; simpl in Ha; try assumption.
  eapply Mirror_same_state; [apply same_state_enqueue | assumption].
Qed.

Lemma fold_left_Mirror {A} (f : World -> A -> World) l w :
  (forall w a, Mirror w -> Mirror (f w a)) -> Mirror w -> Mirror (fold_left f l w).
Proof.
  intros Hf. revert w. induction l as [|a l IH]; simpl; auto.
Qed.

Lemma Mirror_cancel_participant env now mid guilty reason w p :
  Mirror w -> Mirror (cancel_participant env now mid guilty reason w p).
Proof.
  intros H. unfold cancel_participant.
  destruct (set_has (p_userId p) guilty).
  - apply Mirror_emit. destruct (addPenalty_throws env (p_userId p));
      repeat apply Mirror_perform; assumption.
  - repeat apply Mirror_emit. now apply Mirror_requeue.
Qed.

(** [cancelMatch] restores the mirror even when the alarm of the match
    has just gone off (and is no longer armed). *)
Lemma Mirror_cancelMatch env now m faulty reason w :
  timeoutId m = Some (matchId m) ->
  activeSockets w = map socketId (activeQueue w) ->
  filter (fun x => negb (Nat.eqb (matchId m) x)) (timers w)
  = filter (fun x => negb (Nat.eqb (matchId m) x)) (map matchId (pendingMatches w)) ->
  Mirror (cancelMatch env now m faulty reason w).
Proof.
  intros Ht Hs Hf. unfold cancelMatch. apply Mirror_emit.
  apply fold_left_Mirror; [intros; now apply Mirror_cancel_participant|].
  rewrite Ht. constructor; simpl; [assumption|].
  now rewrite map_matchId_pending_delete.
Qed.

Lemma Inv_timeoutId w m : Inv w -> In m (pendingMatches w) -> timeoutId m = Some (matchId m).
Proof.
  intros HI Hm. pose proof (inv_open w HI) as Ho. rewrite Forall_forall in Ho.
  now destruct (Ho m Hm) as (_ & _ & _ & _ & O).
Qed.

Lemma Mirror_declineMatch env now u mid w :
  Inv w -> Mirror w -> Mirror (snd (declineMatch env now u mid w)).
Proof.
  intros HI HM. unfold declineMatch.
  destruct (pending_get mid (pendingMatches w)) as [m|] eqn:G; [|assumption].
  destruct (_ && _); simpl; [assumption|].
  apply pending_get_some in G. destruct G as [Hm _]. destruct HM as [H1 H2].
  apply Mirror_cancelMatch; [now apply (Inv_timeoutId w) | assumption | now rewrite H2].
Qed.

Lemma timers_finalizeMatch env now m w :
  timers (finalizeMatch env now m w)
  = match timeoutId m with
    | Some t => filter (fun x => negb (Nat.eqb t x)) (timers w)
    | None => timers w
    end.
Proof.
  unfold finalizeMatch. destruct (timeoutId m), (createSessionLog_throws env); reflexivity.
Qed.

Lemma Mirror_acceptMatch env now u mid w :
  Inv w -> Mirror w -> Mirror (snd (acceptMatch env now u mid w)).
Proof.
  intros HI HM. unfold acceptMatch.
  destruct (pending_get mid (pendingMatches w)) as [m|] eqn:G; [|assumption].
  apply pending_get_some in G. destruct G as [Hm Hid].
  pose proof (Inv_timeoutId w m HI Hm) as Ht.
  destruct HM as [H1 H2].
  assert (K : forall m', matchId m' = matchId m -> timeoutId m' = timeoutId m ->
    Mirror (with_pendingMatches (pending_replace m' (pendingMatches w)) w)
    /\ Mirror (finalizeMatch env now m'
                 (with_pendingMatches (pending_replace m' (pendingMatches w)) w))).
  { intros m' Ei Et. split.
    - constructor; simpl; [assumption|]. now rewrite map_matchId_pending_replace.
    - set (w1 := with_pendingMatches _ w).
      destruct (finalizeMatch_fields env now m' w1) as (_ & F2 & F3 & F4 & _).
      constructor.
      + now rewrite F2, F3.
      + rewrite timers_finalizeMatch, F4, Et, Ht, Ei. unfold w1. simpl.
        rewrite <- Ei, pending_delete_replace, map_matchId_pending_delete, H2.
        reflexivity. }
  cbv zeta.
  destruct (String.eqb (p_userId (player1 m)) u);
    [|destruct (String.eqb (p_userId (player2 m)) u); [|now constructor]].
  - destruct (negb _); [now constructor|].
    destruct (K (with_player1 (with_status ACCEPTED (player1 m)) m)) as [K1 K2];
      try reflexivity.
    destruct (_ && _); assumption.
  - destruct (negb _); [now constructor|].
    destruct (K (with_player2 (with_status ACCEPTED (player2 m)) m)) as [K1 K2];
      try reflexivity.
    destruct (_ && _); assumption.
Qed.

Lemma Mirror_handleGameCreationFailure env now m code msg w :
  Mirror w -> Mirror (handleGameCreationFailure env now m code msg w).
Proof.
  intros H. unfold handleGameCreationFailure.
  apply fold_left_Mirror; [|now repeat apply Mirror_emit].
  clear. intros w p H. apply Mirror_emit. now apply Mirror_requeue.
Qed.

Lemma Mirror_finalizeMatch_resume env now m r w :
  Mirror w -> Mirror (finalizeMatch_resume env now m r w).
Proof.
  intros H. unfold finalizeMatch_resume. apply Mirror_emit.
  destruct r; [|now apply Mirror_handleGameCreationFailure].
  unfold handleGameCreationSuccess.
  destruct (negb (server w)); [assumption|]. now repeat apply Mirror_perform.
Qed.

Lemma Mirror_handleMatchFound now p1 p2 q1 q2 w :
  Inv w -> Mirror w ->
  queue_get (userId p1) (activeQueue w) = Some q1 -> socketId q1 = socketId p1 ->
  queue_get (userId p2) (activeQueue w) = Some q2 -> socketId q2 = socketId p2 ->
  userId p1 <> userId p2 ->
  Mirror (handleMatchFound now p1 p2 w).
Proof.
  intros HI [H1 H2] G1 E1 G2 E2 Hne.
  pose proof (inv_users w HI) as Hu. apply NoDup_app_remove_r in Hu.
  pose proof (inv_sockets w HI) as Hs. unfold waitingUsers in Hu.
  unfold handleMatchFound. apply Mirror_emit. repeat apply Mirror_emit.
  constructor; simpl.
  - rewrite H1, <- E1, <- E2.
    rewrite <- (map_socketId_queue_delete (userId p1) (activeQueue w) q1); auto.
    symmetry. apply map_socketId_queue_delete.
    + now apply NoDup_map_filter.
    + now apply NoDup_map_filter.
    + rewrite queue_get_delete_neq; auto.
  - rewrite (pending_set_fresh _ _ (nextUuid w)); [|apply (inv_fresh w HI)|reflexivity].
    rewrite map_app, H2. reflexivity.
Qed.

Section TickInduction.

Variable cfg : Constants.
Variable now : Z.

(** Induction over the tick.  A property [P] of the world is kept by the
    pairing loop when, in a world satisfying the state invariant, it is
    kept by the write of the expanded range to the queue entry of a
    candidate and by the creation of a match between two waiting players.
    [C] is anything known of the candidates of the snapshot. *)
Variable P : World -> Prop.
Variable C : QueuedPlayer -> Prop.

Hypothesis P_expanded : forall w p,
  Inv w -> P w -> C p -> In p (activeQueue w) ->
  P (with_activeQueue (queue_replace (expand cfg now p) (activeQueue w)) w).

Hypothesis P_matched : forall w p1 p2,
  Inv w -> P w ->
  In p1 (activeQueue w) -> In p2 (activeQueue w) -> userId p1 <> userId p2 ->
  P (handleMatchFound now p1 p2 w).

Lemma In_queue_replace_self p p' q :
  In p q -> userId p' = userId p -> In p' (queue_replace p' q).
Proof.
  intros H E. unfold queue_replace. apply in_map_iff. exists p.
  split; [|assumption]. now rewrite E, String.eqb_refl.
Qed.

Lemma In_queue_replace_other p' q c :
  In c q -> userId c <> userId p' -> In c (queue_replace p' q).
Proof.
  intros H E. unfold queue_replace. apply in_map_iff. exists c.
  split; [|assumption].
  destruct (String.eqb (userId p') (userId c)) eqn:X; [|reflexivity].
  apply String.eqb_eq in X. congruence.
Qed.

Lemma pairing_keeps candidates : forall matchedIds w,
  Inv w -> P w ->
  NoDup (map userId candidates) ->
  Forall C candidates ->
  Forall (fun c => ~ In (userId c) matchedIds -> In c (activeQueue w)) candidates ->
  P (pairing cfg now candidates matchedIds w).
Proof.
  induction candidates as [|a0 later IH]; intros matchedIds w HI HP Hnd HC Hlive;
    simpl; [assumption|].
  inversion Hnd as [|? ? Hnotin Hnd']; subst.
  inversion HC as [|? ? Ca0 HC']; subst.
  inversion Hlive as [|? ? Ha0 Hlater]; subst.
  destruct (set_has (userId a0) matchedIds) eqn:Hm; [now apply IH|].
  apply set_has_false in Hm. specialize (Ha0 Hm).
  pose proof (inv_users w HI) as Hu. apply NoDup_app_remove_r in Hu.
  unfold waitingUsers in Hu.
  set (a := expand cfg now a0).
  assert (Ua : userId a = userId a0) by apply userId_expand.
  assert (Sa : socketId a = socketId a0) by apply socketId_expand.
  set (w1 := with_activeQueue (queue_replace a (activeQueue w)) w).
  assert (HI1 : Inv w1).
  { apply Inv_queue_replaced; [assumption|]. intros x Hx Ux.
    assert (x = a0) by (apply (NoDup_map_inj userId (activeQueue w)); auto; congruence).
    subst. now rewrite Sa. }
  assert (HP1 : P w1) by (apply (P_expanded w a0); assumption).
  assert (Hlive1 : Forall (fun c => ~ In (userId c) matchedIds -> In c (activeQueue w1))
                          later).
  { rewrite Forall_forall in *. intros c Hc Hnm.
    apply In_queue_replace_other; [now apply Hlater|].
    rewrite Ua. intros E. apply Hnotin. rewrite <- E. now apply in_map. }
  destruct (scan cfg a later matchedIds) as [b|] eqn:Hscan; [|now apply IH].
  apply scan_some in Hscan. destruct Hscan as (Hb & Hbm & _).
  assert (Hab : userId a <> userId b).
  { intros E. apply Hnotin. rewrite <- Ua, E. now apply in_map. }
  assert (Ia : In a (activeQueue w1)) by (now apply (In_queue_replace_self a0)).
  rewrite Forall_forall in Hlive1.
  pose proof (Hlive1 b Hb Hbm) as Ib.
  pose proof (inv_users w1 HI1) as Hu1. apply NoDup_app_remove_r in Hu1.
  unfold waitingUsers in Hu1.
  apply IH; [|now apply P_matched|assumption|assumption|].
  - apply (Inv_handleMatchFound now a b a b w1); auto using queue_get_member.
  - rewrite Forall_forall. intros c Hc Hnm.
    assert (Hc1 : ~ In (userId c) matchedIds).
    { intros F. apply Hnm. apply In_set_add. right. apply In_set_add. now right. }
    assert (Hca : userId c <> userId a).
    { intros F. apply Hnm. apply In_set_add. right. apply In_set_add. now left. }
    assert (Hcb : userId c <> userId b).
    { intros F. apply Hnm. apply In_set_add. now left. }
    rewrite activeQueue_handleMatchFound.
    apply In_queue_delete. split; [|assumption].
    apply In_queue_delete. split; [|assumption]. now apply Hlive1.
Qed.

Lemma matchmakingLoop_keeps w :
  Inv w -> P w -> (forall c, In c (activeQueue w) -> C c) ->
  P (matchmakingLoop cfg now w).
Proof.
  intros H HP HC. unfold matchmakingLoop.
  destruct (List.length (activeQueue w) <? 2)%nat; [assumption|].
  pose proof (inv_users w H) as Hu. apply NoDup_app_remove_r in Hu.
  unfold waitingUsers in Hu.
  assert (Hin : forall c, In c (sort_candidates (activeQueue w)) -> In c (activeQueue w)).
  { intros c Hc. eapply Permutation_in; [|exact Hc].
    apply Permutation_sym, sort_candidates_perm. }
  apply pairing_keeps; [assumption|assumption| | |].
  - eapply Permutation_NoDup; [|exact Hu].
    apply Permutation_map, sort_candidates_perm.
  - rewrite Forall_forall. auto.
  - rewrite Forall_forall. auto.
Qed.

End TickInduction.

Section MirrorFacts.

Variable cfg : Constants.

Lemma Mirror_matchmakingLoop now w :
  Inv w -> Mirror w -> Mirror (matchmakingLoop cfg now w).
Proof.
  intros HI HM.
  apply (matchmakingLoop_keeps cfg now Mirror (fun _ => True)); auto.
  - clear. intros w p HI [H1 H2] _ Hp. constructor; simpl; [|assumption].
    rewrite H1. symmetry. apply map_socketId_queue_replace.
    intros x Hx Ux. rewrite userId_expand in Ux. rewrite socketId_expand.
    pose proof (inv_users w HI) as Hu. apply NoDup_app_remove_r in Hu.
    assert (x = p) by (apply (NoDup_map_inj userId (activeQueue w)); auto).
    now subst.
  - clear. intros w p1 p2 HI HM I1 I2 Hne.
    pose proof (inv_users w HI) as Hu. apply NoDup_app_remove_r in Hu.
    apply (Mirror_handleMatchFound now p1 p2 p1 p2 w); auto using queue_get_member.
Qed.

Lemma Mirror_handle ev w : Inv w -> Mirror w -> Mirror (handle cfg ev w).
Proof.
  intros HI HM. destruct ev; simpl.
  - destruct HM. now constructor.
  - now apply Mirror_addPlayer.
  - now apply Mirror_removePlayer.
  - now apply Mirror_acceptMatch.
  - now apply Mirror_declineMatch.
  - destruct (existsb _ _) eqn:E; [|assumption].
    unfold handleMatchTimeout. simpl.
    destruct (pending_get mid (pendingMatches w)) as [m|] eqn:G.
    + apply pending_get_some in G. destruct G as [Hm Hid]. destruct HM as [H1 H2].
      apply Mirror_cancelMatch;
        [now apply (Inv_timeoutId w) | assumption |].
      simpl. rewrite Hid, filter_idem, H2. reflexivity.
    + exfalso. apply pending_get_none in G. apply G.
      apply existsb_exists in E. destruct E as [x [Hx E]].
      apply Nat.eqb_eq in E. subst x. now rewrite <- (mir_timers w HM).
  - now apply Mirror_matchmakingLoop.
  - destruct (pending_get mid (awaiting w)); [|assumption].
    apply Mirror_finalizeMatch_resume. destruct HM. now constructor.
Qed.

Lemma Mirror_run evs : forall w, Inv w -> Mirror w -> Mirror (run cfg evs w).
Proof.
  induction evs as [|ev evs IH]; simpl; [auto|].
  intros w HI HM. apply IH; [now apply Inv_step|].
  unfold step. eapply Mirror_same_state; [apply same_state_drain|].
  now apply Mirror_handle.
Qed.

Lemma Mirror_initial : Mirror initial.
Proof. now constructor. Qed.

Lemma Mirror_reachable evs : Mirror (run cfg evs initial).
Proof. apply Mirror_run; [apply Inv_initial | apply Mirror_initial]. Qed.

End MirrorFacts.

(** * The effects of a handler, by kind *)

Section Selecting.

Variable f : Effect -> bool.

Lemma selects_refl w : selects f w w [].
Proof. split; [now rewrite app_nil_r | reflexivity]. Qed.

Lemma selects_trans w1 w2 w3 l1 l2 :
  selects f w1 w2 l1 -> selects f w2 w3 l2 -> selects f w1 w3 (l1 ++ l2).
Proof.
  intros [A1 A2] [B1 B2]. split; [|congruence].
  now rewrite B1, A1, app_assoc.
Qed.

Lemma selects_nothing w1 w2 w3 l :
  selects f w1 w2 l -> selects f w2 w3 [] -> selects f w1 w3 l.
Proof.
  intros A B. rewrite <- (app_nil_r l). eapply selects_trans; eauto.
Qed.

Lemma selects_perform e w : selects f w (perform e w) (if f e then [e] else []).
Proof.
  split; [|reflexivity]. simpl. rewrite filter_app. simpl. now destruct (f e).
Qed.

Lemma selects_perform_other e w : f e = false -> selects f w (perform e w) [].
Proof. intros E. pose proof (selects_perform e w) as H. now rewrite E in H. Qed.

Hypothesis f_emission : forall e, is_emission e = true -> f e = false.
Hypothesis f_console : forall line, f (ConsoleError line) = false.

Lemma selects_emit e w : is_emission e = true -> selects f w (emit e w) [].
Proof.
  intros E. split; [|reflexivity]. simpl. destruct (server w).
  - rewrite filter_app. simpl. now rewrite (f_emission e E).
  - now rewrite app_nil_r.
Qed.

Lemma selects_enqueue_console line w : selects f w (enqueue (ConsoleError line) w) [].
Proof.
  split; simpl; [now rewrite app_nil_r|].
  rewrite filter_app. simpl. now rewrite f_console, app_nil_r.
Qed.

Lemma selects_drain w : filter f (jobs w) = [] -> selects f w (drain w) [].
Proof.
  intros H. split; simpl; [|now rewrite H].
  now rewrite filter_app, H.
Qed.

Lemma selects_addPlayer env now u s e prio w :
  selects f w (snd (addPlayer env now u s e prio w)) [].
Proof.
  destruct (addPlayer_cases env now u s e prio w)
    as [[msg E] | (_ & _ & _ & _ & E)]; rewrite E; simpl; [apply selects_refl|].
  unfold emitQueueStats.
  match goal with |- selects _ _ (emit ?e ?x) _ =>
    apply (selects_nothing w x); [|now apply selects_emit] end.
  split; [now rewrite app_nil_r | reflexivity].
Qed.

Lemma selects_requeue env now line p w : selects f w (requeue env now line p w) [].
Proof.
  unfold requeue.
  pose proof (selects_addPlayer env now (p_userId p) (p_socketId p) (p_elo p) true w) as Ha.
  destruct (addPlayer env now (p_userId p) (p_socketId p) (p_elo p) true w)
    as [[| msg |] w1]; simpl in Ha; try assumption.
  eapply selects_nothing; [exact Ha | apply selects_enqueue_console].
Qed.

Lemma selects_removePlayer identifier w : selects f w (removePlayer identifier w) [].
Proof.
  unfold removePlayer.
  match goal with |- context [queue_get ?t _] => set (targetId := t) end.
  destruct (queue_get targetId (activeQueue w)); [|apply selects_refl].
  unfold emitQueueStats.
  match goal with |- selects _ _ (emit ?e ?x) _ =>
    apply (selects_nothing w x); [|now apply selects_emit] end.
  split; [now rewrite app_nil_r | reflexivity].
Qed.

End Selecting.

Lemma is_call_emission e : is_emission e = true -> is_call e = false.
Proof. destruct e; simpl; congruence. Qed.

Lemma is_write_emission e : is_emission e = true -> is_write e = false.
Proof. destruct e; simpl; congruence. Qed.

Lemma is_write_console line : is_write (ConsoleError line) = false.
Proof. reflexivity. Qed.

Lemma writes_cancel_participant env now mid guilty reason w p :
  selects is_write w (cancel_participant env now mid guilty reason w p)
    (if set_has (p_userId p) guilty then [penalty_call reason p] else []).
Proof.
  unfold cancel_participant. destruct (set_has (p_userId p) guilty).
  - eapply selects_nothing;
      [|apply selects_emit; [apply is_write_emission | reflexivity]].
    destruct (addPenalty_throws env (p_userId p)).
    + eapply selects_nothing; [|now apply selects_perform_other].
      apply (selects_perform is_write (Call_addPenalty _ _ _)).
    + apply (selects_perform is_write (Call_addPenalty _ _ _)).
  - repeat (eapply selects_nothing;
              [|apply selects_emit; [apply is_write_emission | reflexivity]]).
    apply selects_requeue; [apply is_write_emission | apply is_write_console].
Qed.

Lemma set_has_guiltySet u faulty :
  set_has u (fold_left (fun s v => set_add v s) faulty []) = set_has u faulty.
Proof.
  destruct (set_has u faulty) eqn:E.
  - apply set_has_true, In_guiltySet. left. now apply set_has_true.
  - apply set_has_false. rewrite In_guiltySet. apply set_has_false in E.
    simpl. tauto.
Qed.

Lemma writes_cancelMatch env now m faulty reason w :
  selects is_write w (cancelMatch env now m faulty reason w)
    (map (penalty_call reason)
       (filter (fun p => set_has (p_userId p) faulty) [player1 m; player2 m])).
Proof.
  unfold cancelMatch, emitQueueStats.
  eapply selects_nothing;
    [|apply selects_emit; [apply is_write_emission | reflexivity]].
  set (w2 := with_pendingMatches _ _).
  assert (H2 : selects is_write w w2 []).
  { unfold w2. destruct (timeoutId m); (split; [now rewrite app_nil_r | reflexivity]). }
  cbn [fold_left].
  set (g := fold_left _ faulty []).
  eapply selects_trans with (l1 := []); [exact H2|].
  pose proof (writes_cancel_participant env now (matchId m) g reason w2 (player1 m)) as C1.
  pose proof (writes_cancel_participant env now (matchId m) g reason
                (cancel_participant env now (matchId m) g reason w2 (player1 m))
                (player2 m)) as C2.
  pose proof (selects_trans _ _ _ _ _ _ C1 C2) as C.
  unfold g in C. rewrite !set_has_guiltySet in C.
  cbn [filter]. 
  destruct (set_has (p_userId (player1 m)) faulty),
           (set_has (p_userId (player2 m)) faulty); exact C.
Qed.

Section Expiry.

Variable cfg : Constants.

Lemma jobs_run evs : jobs (run cfg evs initial) = [].
Proof.
  induction evs as [|ev evs IH] using rev_ind; [reflexivity|].
  unfold run. rewrite fold_left_app. reflexivity.
Qed.

Lemma selects_step f w ev l :
  jobs w = [] -> selects f w (handle cfg ev w) l -> selects f w (step cfg w ev) l.
Proof.
  intros J H. unfold step. eapply selects_nothing; [exact H|].
  apply selects_drain. destruct H as [_ H]. now rewrite H, J.
Qed.

End Expiry.

(** * Sockets, alarms and statuses in reachable states *)

(** X1. In every state the service can reach, the set of active sockets
    is exactly the list of the sockets of the waiting players, in queue
    order: no two waiting players share a socket, no socket is active
    without a waiting player, and [getQueueStats().size] counts the
    active sockets. *)
Theorem sockets_mirror_queue (cfg : Constants) (evs : list Event) :
  let w := run cfg evs initial in
  activeSockets w = map socketId (activeQueue w)
  /\ NoDup (activeSockets w)
  /\ List.length (activeSockets w) = fst (getQueueStats w).
Proof.
  cbv zeta. pose proof (Mirror_reachable cfg evs) as [H _].
  pose proof (Inv_reachable cfg evs) as HI.
  split; [exact H|]. rewrite H. split; [apply (inv_sockets _ HI)|].
  simpl. apply length_map.
Qed.

Lemma timers_onModuleDestroy l : forall w,
  (forall m, In m l -> timeoutId m = Some (matchId m)) ->
  timers (fold_left (fun w' m => match timeoutId m with
                                 | Some t => clearTimeout t w'
                                 | None => w'
                                 end) l w)
  = filter (fun t => negb (existsb (Nat.eqb t) (map matchId l))) (timers w).
Proof.
  induction l as [|m l IH]; intros w H; simpl.
  - symmetry. apply forallb_filter_id. now apply forallb_forall.
  - rewrite IH by (intros; apply H; now right).
    rewrite (H m) by now left. simpl.
    induction (timers w) as [|t ts IHt]; simpl; [reflexivity|].
    rewrite (Nat.eqb_sym t (matchId m)).
    destruct (Nat.eqb (matchId m) t); simpl; [exact IHt|].
    destruct (existsb _ _); simpl; [exact IHt | now f_equal].
Qed.

Lemma same_state_but_timers_onModuleDestroy l : forall w,
  let w' := fold_left (fun w' m => match timeoutId m with
                                   | Some t => clearTimeout t w'
                                   | None => w'
                                   end) l w in
  server w' = server w /\ activeQueue w' = activeQueue w
  /\ activeSockets w' = activeSockets w /\ pendingMatches w' = pendingMatches w
  /\ nextUuid w' = nextUuid w /\ awaiting w' = awaiting w
  /\ jobs w' = jobs w /\ trace w' = trace w.
Proof.
  induction l as [|m l IH]; intros w; simpl; [repeat split|].
  specialize (IH (match timeoutId m with Some t => clearTimeout t w | None => w end)).
  cbv zeta in IH. destruct (timeoutId m); exact IH.
Qed.

Lemma filter_none {A} (f : A -> bool) l :
  (forall x, In x l -> f x = false) -> filter f l = [].
Proof.
  induction l as [|x l IH]; intros H; simpl; [reflexivity|].
  rewrite (H x) by now left. apply IH. intros; apply H; now right.
Qed.

Lemma no_alarm_after_onModuleDestroy (cfg : Constants) (evs : list Event) :
  timers (onModuleDestroy (run cfg evs initial)) = []
  /\ pendingMatches (onModuleDestroy (run cfg evs initial))
     = pendingMatches (run cfg evs initial).
Proof.
  set (w := run cfg evs initial).
  pose proof (Mirror_reachable cfg evs) as [_ H]. fold w in H.
  pose proof (Inv_reachable cfg evs) as HI. fold w in HI.
  split.
  - unfold onModuleDestroy. rewrite timers_onModuleDestroy.
    + rewrite H. apply filter_none. intros t Ht.
      apply negb_false_iff, existsb_exists. exists t.
      split; [assumption | apply Nat.eqb_refl].
    + intros m Hm. now apply (Inv_timeoutId w).
  - apply (same_state_but_timers_onModuleDestroy (pendingMatches w) w).
Qed.

(** X2. From start-up until [onModuleDestroy] is called, that is in every
    state reached from the initial one by the handlers of the service
    ([setServer], [addPlayer], [removePlayer], [acceptMatch],
    [declineMatch], the tick, an expiry, a reply of the game service),
    the armed alarms are exactly those of the pending matches, one each
    and in the order of the map; the [timeoutId] a pending match holds is
    its own alarm; and an alarm is armed exactly when its match is still
    pending (so the callback of an alarm that goes off finds its match).
    [onModuleDestroy] ends this: after it the same matches are pending
    and none of them has an alarm. *)
Theorem alarms_mirror_matches (cfg : Constants) (evs : list Event) :
  let w := run cfg evs initial in
  timers w = map matchId (pendingMatches w)
  /\ NoDup (timers w)
  /\ (forall m, In m (pendingMatches w) -> timeoutId m = Some (matchId m))
  /\ (forall mid, In mid (timers w) <-> pending_get mid (pendingMatches w) <> None)
  /\ (forall mid,
        pending_get mid (pendingMatches (onModuleDestroy w))
        = pending_get mid (pendingMatches w)
        /\ ~ In mid (timers (onModuleDestroy w))).
Proof.
  cbv zeta. pose proof (Mirror_reachable cfg evs) as [_ H].
  pose proof (Inv_reachable cfg evs) as HI.
  split; [exact H|]. rewrite H. split; [apply (inv_ids _ HI)|].
  split; [intros m; now apply Inv_timeoutId|].
  split.
  - intros mid. split.
    + intros Hin E. apply pending_get_none in E. auto.
    + intros Hne. destruct (pending_get mid _) as [m|] eqn:G; [|congruence].
      apply pending_get_some in G. destruct G as [Hm <-]. now apply in_map.
  - intros mid. destruct (no_alarm_after_onModuleDestroy cfg evs) as [T P].
    rewrite T, P. split; [reflexivity | intros []].
Qed.

(** X3. Shutting the module down in any reachable state leaves no alarm
    armed, so that no expiry can run afterwards, and touches nothing
    else: the pending matches stay in the map, the queue and what has
    been emitted are as before. *)
Theorem onModuleDestroy_disarms (cfg : Constants) (evs : list Event) :
  let w := run cfg evs initial in
  let w' := onModuleDestroy w in
  timers w' = []
  /\ pendingMatches w' = pendingMatches w
  /\ activeQueue w' = activeQueue w
  /\ activeSockets w' = activeSockets w
  /\ trace w' = trace w
  /\ forall env now mid, step cfg w' (TimerFires env now mid) = w'.
Proof.
  cbv zeta. set (w := run cfg evs initial).
  pose proof (Mirror_reachable cfg evs) as [_ H]. fold w in H.
  pose proof (Inv_reachable cfg evs) as HI. fold w in HI.
  assert (T : timers (onModuleDestroy w) = []).
  { unfold onModuleDestroy. rewrite timers_onModuleDestroy.
    - rewrite H. apply filter_none. intros t Ht.
      apply negb_false_iff, existsb_exists. exists t.
      split; [assumption | apply Nat.eqb_refl].
    - intros m Hm. now apply (Inv_timeoutId w). }
  destruct (same_state_but_timers_onModuleDestroy (pendingMatches w) w)
    as (_ & Eq & Es & Ep & _ & _ & Ej & Et).
  fold (onModuleDestroy w) in Eq, Es, Ep, Ej, Et.
  repeat (split; [assumption|]).
  intros env now mid. unfold step. simpl. rewrite T. simpl.
  apply drain_quiet. rewrite Ej. apply jobs_run.
Qed.

(** X5. In every state the service can reach, a pending match has no
    participant marked DECLINED and never both marked ACCEPTED (mutual
    acceptance takes the match out in the same call); its two
    participants are different users on different sockets, and neither
    of them is waiting in the queue. *)
Theorem ready_checks_stay_open (cfg : Constants) (evs : list Event) :
  let w := run cfg evs initial in
  forall m, In m (pendingMatches w) ->
    status (player1 m) <> DECLINED /\ status (player2 m) <> DECLINED
    /\ ~ (status (player1 m) = ACCEPTED /\ status (player2 m) = ACCEPTED)
    /\ p_userId (player1 m) <> p_userId (player2 m)
    /\ p_socketId (player1 m) <> p_socketId (player2 m)
    /\ ~ In (p_userId (player1 m)) (waitingUsers w)
    /\ ~ In (p_userId (player2 m)) (waitingUsers w).
Proof.
  cbv zeta. intros m Hm. pose proof (Inv_reachable cfg evs) as HI.
  pose proof (inv_open _ HI) as Ho. rewrite Forall_forall in Ho.
  destruct (Ho m Hm) as (O1 & O2 & O3 & _ & _).
  destruct (Inv_participants_distinct _ m HI Hm) as [Hu Hs].
  split; [destruct O1; congruence|]. split; [destruct O2; congruence|].
  split; [intros [A B]; destruct O3; congruence|].
  split; [assumption|]. split; [assumption|].
  split; eapply Inv_participant_not_waiting; eauto; simpl; auto.
Qed.

(** * What a tick does *)

Lemma tick_emissions_app m : forall ms size pending,
  tick_emissions size pending (ms ++ [m])
  = tick_emissions size pending ms
    ++ [EmitTo (p_socketId (player1 m))
          (match_proposal (matchId m) (expiresAt m) (p_elo (player2 m)));
        EmitTo (p_socketId (player2 m))
          (match_proposal (matchId m) (expiresAt m) (p_elo (player1 m)));
        EmitAll (queue_stats (size - 2 * List.length ms - 2)
                             (S (pending + List.length ms)))].
Proof.
  induction ms as [|x ms IH]; intros size pending; simpl.
  - now rewrite Nat.sub_0_r, Nat.add_0_r.
  - rewrite IH.
    replace (size - 2 - 2 * List.length ms - 2)%nat
      with (size - 2 * S (List.length ms) - 2)%nat by lia.
    replace (S pending + List.length ms)%nat
      with (pending + S (List.length ms))%nat by lia.
    reflexivity.
Qed.

Lemma length_queue_delete p q :
  NoDup (map userId q) -> In p q ->
  S (List.length (queue_delete (userId p) q)) = List.length q.
Proof.
  intros Hnd Hp. unfold queue_delete. induction q as [|x q IH]; simpl; [destruct Hp|].
  inversion Hnd as [|? ? Hx Hnd']; subst. destruct Hp as [->|Hp].
  - rewrite String.eqb_refl. simpl. f_equal. f_equal.
    apply forallb_filter_id, forallb_forall. intros y Hy.
    apply negb_true_iff, String.eqb_neq. intros E. apply Hx. rewrite E. now apply in_map.
  - assert (E : String.eqb (userId p) (userId x) = false).
    { apply String.eqb_neq. intros E. apply Hx. rewrite <- E. now apply in_map. }
    rewrite E. simpl. f_equal. now apply IH.
Qed.

Lemma length_pendingUsers l : List.length (pendingUsers l) = (2 * List.length l)%nat.
Proof.
  induction l as [|m l IH]; simpl; [reflexivity|]. rewrite IH. lia.
Qed.

Section TickFacts.

Variable cfg : Constants.
Variable now : Z.

Lemma tick_record_matchmakingLoop w :
  Inv w -> tick_record w (matchmakingLoop cfg now w).
Proof.
  intros HI.
  apply (matchmakingLoop_keeps cfg now (tick_record w) (fun _ => True)); auto.
  - clear. intros w1 p _ (Hs & Ha & Hj & ms & Hp & Hl & Htr) _ _.
    repeat (split; [assumption|]). exists ms. split; [assumption|].
    split; [|assumption]. simpl. unfold queue_replace. now rewrite length_map.
  - clear. intros w1 p1 p2 HI (Hs & Ha & Hj & ms & Hp & Hl & Htr) I1 I2 Hne.
    pose proof (inv_users w1 HI) as Hu. apply NoDup_app_remove_r in Hu.
    unfold waitingUsers in Hu.
    assert (Ep : pendingMatches (handleMatchFound now p1 p2 w1)
                 = pendingMatches w1
                   ++ [{| matchId := nextUuid w1;
                          expiresAt := now + MATCH_ACCEPT_TIMEOUT_MS;
                          player1 := mkParticipant (userId p1) (socketId p1) (elo p1) PENDING;
                          player2 := mkParticipant (userId p2) (socketId p2) (elo p2) PENDING;
                          timeoutId := Some (nextUuid w1) |}]).
    { simpl. apply (pending_set_fresh _ _ (nextUuid w1)); [apply (inv_fresh w1 HI)|reflexivity]. }
    assert (El : (List.length (activeQueue (handleMatchFound now p1 p2 w1)) + 2
                  = List.length (activeQueue w1))%nat).
    { rewrite activeQueue_handleMatchFound.
      pose proof (length_queue_delete p1 (activeQueue w1) Hu I1) as L1.
      assert (I2' : In p2 (queue_delete (userId p1) (activeQueue w1))).
      { apply In_queue_delete. split; [assumption | congruence]. }
      pose proof (length_queue_delete p2 _ (NoDup_map_filter userId _ _ Hu) I2') as L2.
      fold (queue_delete (userId p1) (activeQueue w1)) in L2. lia. }
    split; [simpl; assumption|]. split; [simpl; assumption|].
    split; [unfold handleMatchFound, emitQueueStats; simpl; assumption|].
    exists (ms ++ [{| matchId := nextUuid w1;
                      expiresAt := now + MATCH_ACCEPT_TIMEOUT_MS;
                      player1 := mkParticipant (userId p1) (socketId p1) (elo p1) PENDING;
                      player2 := mkParticipant (userId p2) (socketId p2) (elo p2) PENDING;
                      timeoutId := Some (nextUuid w1) |}]).
    split; [rewrite Ep, Hp; now rewrite app_assoc|].
    split; [rewrite length_app; cbn [List.length]; lia|].
    unfold handleMatchFound, emitQueueStats, emit. cbn [trace with_trace server
      with_pendingMatches setTimeout with_timers with_activeSockets with_activeQueue
      with_nextUuid getQueueStats fst snd activeQueue pendingMatches].
    rewrite Hs. destruct (server w) eqn:Sv.
    + match goal with |- context [queue_stats ?a ?b] =>
        replace a with (List.length (activeQueue w)
                        - 2 * List.length ms - 2)%nat
          by (change a with (List.length (activeQueue (handleMatchFound now p1 p2 w1)));
              lia);
        replace b with (S (List.length (pendingMatches w) + List.length ms))
          by (change b with (List.length (pendingMatches (handleMatchFound now p1 p2 w1)));
              rewrite Ep, Hp, !length_app; cbn [List.length]; lia)
      end.
      rewrite Htr, tick_emissions_app, <- !app_assoc. reflexivity.
    + rewrite Htr. reflexivity.
  - repeat (split; [reflexivity|]).
    exists []. rewrite !app_nil_r. split; [reflexivity|].
    split; [simpl; lia|]. destruct (server w); now rewrite ?app_nil_r.
Qed.


(** The users the service knows, waiting or in a ready check, are the
    same before and after: the tick only moves them. *)
Lemma users_matchmakingLoop w :
  Inv w ->
  forall u,
    In u (waitingUsers (matchmakingLoop cfg now w)
          ++ pendingUsers (pendingMatches (matchmakingLoop cfg now w)))
    <-> In u (waitingUsers w ++ pendingUsers (pendingMatches w)).
Proof.
  intros HI.
  apply (matchmakingLoop_keeps cfg now
           (fun w1 => forall u,
              In u (waitingUsers w1 ++ pendingUsers (pendingMatches w1))
              <-> In u (waitingUsers w ++ pendingUsers (pendingMatches w)))
           (fun _ => True)); auto; [| |tauto].
  - clear. intros w1 p _ H _ _ u. rewrite <- H. unfold waitingUsers. simpl.
    now rewrite map_userId_queue_replace.
  - clear. intros w1 p1 p2 HI H I1 I2 Hne u. rewrite <- H.
    unfold waitingUsers. rewrite activeQueue_handleMatchFound.
    assert (Ep : pendingMatches (handleMatchFound now p1 p2 w1)
                 = pendingMatches w1
                   ++ [{| matchId := nextUuid w1;
                          expiresAt := now + MATCH_ACCEPT_TIMEOUT_MS;
                          player1 := mkParticipant (userId p1) (socketId p1) (elo p1) PENDING;
                          player2 := mkParticipant (userId p2) (socketId p2) (elo p2) PENDING;
                          timeoutId := Some (nextUuid w1) |}]).
    { simpl. apply (pending_set_fresh _ _ (nextUuid w1)); [apply (inv_fresh w1 HI)|reflexivity]. }
    rewrite Ep. unfold pendingUsers. rewrite flat_map_app. simpl.
    rewrite !in_app_iff, !map_userId_queue_delete, !filter_In, !negb_true_iff,
      !String.eqb_neq. simpl.
    assert (U1 : In (userId p1) (map userId (activeQueue w1))) by now apply in_map.
    assert (U2 : In (userId p2) (map userId (activeQueue w1))) by now apply in_map.
    destruct (string_dec (userId p1) u) as [<-|N1]; [tauto|].
    destruct (string_dec (userId p2) u) as [<-|N2]; [tauto|].
    tauto.
Qed.

(** A player left waiting by the tick is a player who was waiting, with
    the range as it was or expanded for this tick. *)
Lemma ranges_matchmakingLoop w :
  Inv w ->
  forall q', In q' (activeQueue (matchmakingLoop cfg now w)) ->
    exists q, In q (activeQueue w) /\ (q' = q \/ q' = expand cfg now q).
Proof.
  intros HI.
  apply (matchmakingLoop_keeps cfg now
           (fun w1 => forall q', In q' (activeQueue w1) ->
              exists q, In q (activeQueue w) /\ (q' = q \/ q' = expand cfg now q))
           (fun p => In p (activeQueue w))); auto.
  - clear. intros w1 p _ H Cp Ip q' Hq'. simpl in Hq'.
    unfold queue_replace in Hq'. apply in_map_iff in Hq'.
    destruct Hq' as [x [E Hx]].
    destruct (String.eqb _ _); subst q'; [exists p; auto | now apply H].
  - clear. intros w1 p1 p2 _ H _ _ _ q' Hq'.
    rewrite activeQueue_handleMatchFound in Hq'.
    apply In_queue_delete in Hq'. destruct Hq' as [Hq' _].
    apply In_queue_delete in Hq'. destruct Hq' as [Hq' _]. now apply H.
  - intros q' Hq'. exists q'. auto.
Qed.

End TickFacts.

(** * Who enters the queue again *)

Lemma requeued_same now ps w w' :
  activeQueue w' = activeQueue w -> activeSockets w' = activeSockets w ->
  requeued now ps w w'.
Proof.
  intros Eq Es. exists []. rewrite !app_nil_r. repeat split; auto.
Qed.

Lemma requeued_trans now ps1 ps2 w1 w2 w3 :
  requeued now ps1 w1 w2 -> requeued now ps2 w2 w3 ->
  requeued now (ps1 ++ ps2) w1 w3.
Proof.
  intros (b1 & Q1 & S1 & F1) (b2 & Q2 & S2 & F2). exists (b1 ++ b2).
  rewrite Q2, Q1, S2, S1, map_app, <- !app_assoc. repeat split.
  apply Forall_app. split; [eapply Forall_impl; [|exact F1] | eapply Forall_impl; [|exact F2]];
    intros q (p & Hp & E); exists p; (split; [|assumption]); apply in_app_iff; auto.
Qed.

Lemma requeued_requeue env now line p w :
  requeued now [p] w (requeue env now line p w).
Proof.
  destruct (requeue_cases env now line p w) as [(msg & _ & E) | (_ & _ & _ & _ & E)];
    rewrite E.
  - now apply requeued_same.
  - exists [createQueuedPlayer now (p_userId p) (p_socketId p) (p_elo p) true].
    repeat split. constructor; [|constructor]. exists p. split; [now left | reflexivity].
Qed.

Lemma requeued_emit now ps w w' e :
  requeued now ps w w' -> requeued now ps w (emit e w').
Proof. intros (b & Q & S & F). exists b. auto. Qed.

Lemma requeued_perform now ps w w' e :
  requeued now ps w w' -> requeued now ps w (perform e w').
Proof. intros (b & Q & S & F). exists b. auto. Qed.

Lemma requeued_cancel_participant env now mid guilty reason w p :
  requeued now (if set_has (p_userId p) guilty then [] else [p]) w
    (cancel_participant env now mid guilty reason w p).
Proof.
  unfold cancel_participant. destruct (set_has (p_userId p) guilty).
  - apply requeued_emit. destruct (addPenalty_throws env (p_userId p));
      repeat apply requeued_perform; now apply requeued_same.
  - repeat apply requeued_emit. apply requeued_requeue.
Qed.

Lemma requeued_cancelMatch env now m faulty reason w :
  requeued now (filter (innocent faulty) [player1 m; player2 m]) w
    (cancelMatch env now m faulty reason w).
Proof.
  unfold cancelMatch, emitQueueStats. apply requeued_emit.
  set (w2 := with_pendingMatches _ _).
  assert (H2 : requeued now [] w w2).
  { apply requeued_same; unfold w2; destruct (timeoutId m); reflexivity. }
  cbn [fold_left]. set (g := fold_left _ faulty []).
  pose proof (requeued_cancel_participant env now (matchId m) g reason w2 (player1 m)) as C1.
  pose proof (requeued_cancel_participant env now (matchId m) g reason
                (cancel_participant env now (matchId m) g reason w2 (player1 m))
                (player2 m)) as C2.
  pose proof (requeued_trans _ _ _ _ _ _ H2 (requeued_trans _ _ _ _ _ _ C1 C2)) as C.
  unfold g in C. rewrite !set_has_guiltySet in C.
  unfold innocent. cbn [filter].
  destruct (set_has (p_userId (player1 m)) faulty),
           (set_has (p_userId (player2 m)) faulty); exact C.
Qed.

Lemma requeued_handleGameCreationFailure env now m code msg w :
  requeued now [player1 m; player2 m] w (handleGameCreationFailure env now m code msg w).
Proof.
  unfold handleGameCreationFailure. cbn [fold_left]. unfold requeue_after_failure.
  set (w2 := emit _ (emit _ w)).
  assert (H2 : requeued now [] w w2) by now apply requeued_same.
  apply requeued_emit.
  apply (requeued_trans now [] [player1 m; player2 m] w w2); [assumption|].
  apply (requeued_trans now [player1 m] [player2 m] w2
           (emit (EmitTo (p_socketId (player1 m))
                    (queue_joined (p_userId (player1 m)) (p_elo (player1 m)) now true))
              (requeue env now
                 "[MatchmakingService] [handleGameCreationFailure] Failed to re-queue user "
                 (player1 m) w2))).
  - apply requeued_emit, requeued_requeue.
  - apply requeued_requeue.
Qed.

Lemma queue_acceptMatch env now u mid w :
  activeQueue (snd (acceptMatch env now u mid w)) = activeQueue w
  /\ activeSockets (snd (acceptMatch env now u mid w)) = activeSockets w.
Proof.
  unfold acceptMatch.
  destruct (pending_get mid (pendingMatches w)) as [m|]; [|now split].
  cbv zeta.
  assert (K : forall m' w1, activeQueue w1 = activeQueue w ->
                            activeSockets w1 = activeSockets w ->
    activeQueue (finalizeMatch env now m' w1) = activeQueue w
    /\ activeSockets (finalizeMatch env now m' w1) = activeSockets w).
  { intros m' w1 Eq Es.
    destruct (finalizeMatch_fields env now m' w1) as (_ & F2 & F3 & _).
    split; congruence. }
  destruct (String.eqb (p_userId (player1 m)) u);
    [|destruct (String.eqb (p_userId (player2 m)) u); [|now split]];
    (destruct (negb _); [now split|]); (destruct (_ && _); [now apply K | now split]).
Qed.

Section QueueClosure.

Variable cfg : Constants.

(** A property of waiting players that holds of a newly built player and
    survives range expansion holds of every player in the queue. *)
Variable P : QueuedPlayer -> Prop.
Hypothesis P_created : forall now u s e prio, P (createQueuedPlayer now u s e prio).
Hypothesis P_expand : forall now p, P p -> P (expand cfg now p).

Lemma Forall_requeued now ps w w' :
  requeued now ps w w' -> Forall P (activeQueue w) -> Forall P (activeQueue w').
Proof.
  intros (b & Q & _ & F) H. rewrite Q. apply Forall_app. split; [assumption|].
  eapply Forall_impl; [|exact F]. intros q (p & _ & ->). apply P_created.
Qed.

Lemma Forall_queue_handle ev w :
  Inv w -> Forall P (activeQueue w) -> Forall P (activeQueue (handle cfg ev w)).
Proof.
  intros HI H. destruct ev; cbn [handle].
  - assumption.
  - destruct (addPlayer_cases env now u s e prio w)
      as [[msg E] | (_ & _ & _ & _ & E)]; rewrite E; simpl; [assumption|].
    apply Forall_app. split; [assumption|]. constructor; [apply P_created | constructor].
  - unfold removePlayer.
    match goal with |- context [queue_get ?t _] => set (targetId := t) end.
    destruct (queue_get targetId (activeQueue w)); [|assumption].
    simpl. rewrite Forall_forall in *. intros x Hx.
    apply In_queue_delete in Hx. apply H. tauto.
  - now rewrite (proj1 (queue_acceptMatch env now u mid w)).
  - unfold declineMatch.
    destruct (pending_get mid (pendingMatches w)) as [m|]; [|assumption].
    destruct (_ && _); cbn [snd]; [assumption|].
    eapply (Forall_requeued now _ w); [apply requeued_cancelMatch | assumption].
  - destruct (existsb _ _); [|assumption]. unfold handleMatchTimeout.
    destruct (pending_get mid _) as [m|]; [|assumption].
    eapply (Forall_requeued now _ (clearTimeout mid w));
      [apply requeued_cancelMatch | assumption].
  - rewrite Forall_forall in *. intros q' Hq'.
    destruct (ranges_matchmakingLoop cfg now w HI q' Hq') as (q & Hq & [->| ->]); auto.
  - destruct (pending_get mid (awaiting w)) as [m|]; [|assumption].
    unfold finalizeMatch_resume, emitQueueStats.
    change (activeQueue (emit ?e ?x)) with (activeQueue x).
    destruct r.
    + unfold handleGameCreationSuccess. destruct (negb _); assumption.
    + eapply (Forall_requeued now _ (with_awaiting (pending_delete mid (awaiting w)) w));
        [apply requeued_handleGameCreationFailure | assumption].
Qed.

Lemma Forall_queue_run evs : forall w,
  Inv w -> Forall P (activeQueue w) -> Forall P (activeQueue (run cfg evs w)).
Proof.
  induction evs as [|ev evs IH]; simpl; [auto|].
  intros w HI H. apply IH; [now apply Inv_step|].
  unfold step. simpl. now apply Forall_queue_handle.
Qed.

End QueueClosure.

Lemma taken_back_same env now ps w w' :
  activeQueue w' = activeQueue w -> activeSockets w' = activeSockets w ->
  taken_back env now ps w w'.
Proof.
  intros Eq Es. exists []. rewrite !app_nil_r. repeat split; auto.
Qed.

Lemma taken_back_trans env now ps1 ps2 w1 w2 w3 :
  taken_back env now ps1 w1 w2 -> taken_back env now ps2 w2 w3 ->
  taken_back env now (ps1 ++ ps2) w1 w3.
Proof.
  intros (b1 & Q1 & S1 & F1) (b2 & Q2 & S2 & F2). exists (b1 ++ b2).
  rewrite Q2, Q1, S2, S1, map_app, <- !app_assoc. repeat split.
  apply Forall_app. split; [eapply Forall_impl; [|exact F1] | eapply Forall_impl; [|exact F2]].
  - intros q (p & Hp & Hb & Hs & Hw & E). exists p. repeat split; auto.
    apply in_app_iff; auto.
  - intros q (p & Hp & Hb & Hs & Hw & E). exists p. repeat split; auto.
    + apply in_app_iff; auto.
    + intros F. apply Hs. rewrite S1. apply in_app_iff. auto.
    + intros F. apply Hw. unfold waitingUsers. rewrite Q1, map_app.
      apply in_app_iff. auto.
Qed.

Lemma taken_back_requeue env now line p w :
  taken_back env now [p] w (requeue env now line p w).
Proof.
  destruct (requeue_cases env now line p w) as [(msg & _ & E) | (Hb & Hw & _ & Hs & E)];
    rewrite E.
  - now apply taken_back_same.
  - exists [createQueuedPlayer now (p_userId p) (p_socketId p) (p_elo p) true].
    repeat split. constructor; [|constructor]. exists p. repeat split; auto. now left.
Qed.

Lemma taken_back_emit env now ps w w' e :
  taken_back env now ps w w' -> taken_back env now ps w (emit e w').
Proof. intros (b & Q & S & F). exists b. auto. Qed.

Lemma taken_back_perform env now ps w w' e :
  taken_back env now ps w w' -> taken_back env now ps w (perform e w').
Proof. intros (b & Q & S & F). exists b. auto. Qed.

Lemma taken_back_cancel_participant env now mid guilty reason w p :
  taken_back env now (if set_has (p_userId p) guilty then [] else [p]) w
    (cancel_participant env now mid guilty reason w p).
Proof.
  unfold cancel_participant. destruct (set_has (p_userId p) guilty).
  - apply taken_back_emit. destruct (addPenalty_throws env (p_userId p));
      repeat apply taken_back_perform; now apply taken_back_same.
  - repeat apply taken_back_emit. apply taken_back_requeue.
Qed.

Lemma taken_back_cancelMatch env now m faulty reason w :
  taken_back env now (filter (innocent faulty) [player1 m; player2 m]) w
    (cancelMatch env now m faulty reason w).
Proof.
  unfold cancelMatch, emitQueueStats. apply taken_back_emit.
  set (w2 := with_pendingMatches _ _).
  assert (H2 : taken_back env now [] w w2).
  { apply taken_back_same; unfold w2; destruct (timeoutId m); reflexivity. }
  cbn [fold_left]. set (g := fold_left _ faulty []).
  pose proof (taken_back_cancel_participant env now (matchId m) g reason w2 (player1 m)) as C1.
  pose proof (taken_back_cancel_participant env now (matchId m) g reason
                (cancel_participant env now (matchId m) g reason w2 (player1 m))
                (player2 m)) as C2.
  pose proof (taken_back_trans _ _ _ _ _ _ _ H2 (taken_back_trans _ _ _ _ _ _ _ C1 C2)) as C.
  unfold g in C. rewrite !set_has_guiltySet in C.
  unfold innocent. cbn [filter].
  destruct (set_has (p_userId (player1 m)) faulty),
           (set_has (p_userId (player2 m)) faulty); exact C.
Qed.

Lemma In_taken_back env now ps w w' q :
  taken_back env now ps w w' -> In q (activeQueue w') ->
  In q (activeQueue w)
  \/ exists p, In p ps
               /\ ~ In (p_userId p) (waitingUsers w)
               /\ q = createQueuedPlayer now (p_userId p) (p_socketId p) (p_elo p) true.
Proof.
  intros (back & Q & _ & F) Hq. rewrite Q in Hq. apply in_app_iff in Hq.
  destruct Hq as [Hq|Hq]; [now left | right].
  rewrite Forall_forall in F. destruct (F q Hq) as (p & Hp & _ & _ & Hw & E). eauto.
Qed.

Lemma taken_back_handleGameCreationFailure env now m code msg w :
  taken_back env now [player1 m; player2 m] w
    (handleGameCreationFailure env now m code msg w).
Proof.
  unfold handleGameCreationFailure. cbn [fold_left]. unfold requeue_after_failure.
  set (w2 := emit _ (emit _ w)).
  assert (H2 : taken_back env now [] w w2) by now apply taken_back_same.
  apply taken_back_emit.
  apply (taken_back_trans env now [] [player1 m; player2 m] w w2); [assumption|].
  apply (taken_back_trans env now [player1 m] [player2 m] w2
           (emit (EmitTo (p_socketId (player1 m))
                    (queue_joined (p_userId (player1 m)) (p_elo (player1 m)) now true))
              (requeue env now
                 "[MatchmakingService] [handleGameCreationFailure] Failed to re-queue user "
                 (player1 m) w2))).
  - apply taken_back_emit, taken_back_requeue.
  - apply taken_back_requeue.
Qed.

(** X4. When the alarm of a ready check goes off, in any reachable
    state, its match is still pending and at least one participant has
    not accepted; the match is removed, and what the expiry writes to
    the collaborators is exactly one [addPenalty(userId, 300,
    "Matchmaking abuse: timeout")] for each participant still PENDING, in
    the order player1, player2: no session log, no game, and no penalty
    for who accepted.  A participant who accepted is handed to
    [addPlayer(userId, socketId, elo, true)], which asks the penalty
    store ([getActivePenalty], a read that the trace does not record):
    they alone can enter the queue, at its end, and only with no active
    penalty and a socket that is not active.  Nobody leaves the queue. *)
Theorem expiry_penalises_the_silent (cfg : Constants) evs env now mid
  (Harmed : In mid (timers (run cfg evs initial))) :
  let w := run cfg evs initial in
  let w' := step cfg w (TimerFires env now mid) in
  exists m,
    pending_get mid (pendingMatches w) = Some m
    /\ filter silent_participant [player1 m; player2 m] <> []
    /\ pending_get mid (pendingMatches w') = None
    /\ ~ In mid (timers w')
    /\ filter is_write (trace w')
       = filter is_write (trace w)
         ++ map (penalty_call "timeout")
                (filter silent_participant [player1 m; player2 m])
    /\ taken_back env now (filter has_accepted [player1 m; player2 m]) w w'.
Proof.
  cbv zeta. set (w := run cfg evs initial) in *.
  pose proof (Mirror_reachable cfg evs) as HM. fold w in HM.
  pose proof (Inv_reachable cfg evs) as HI. fold w in HI.
  destruct (pending_get mid (pendingMatches w)) as [m|] eqn:G.
  2:{ exfalso. apply pending_get_none in G. apply G.
      now rewrite <- (mir_timers w HM). }
  exists m. split; [reflexivity|].
  pose proof G as G'. apply pending_get_some in G'. destruct G' as [Hm Hid].
  pose proof (inv_open w HI) as Ho. rewrite Forall_forall in Ho.
  destruct (Ho m Hm) as (O1 & O2 & O3 & _ & _).
  destruct (Inv_participants_distinct w m HI Hm) as [Hne _].
  split.
  { unfold silent_participant. simpl.
    destruct O3 as [O3|O3]; rewrite O3; simpl; [discriminate|].
    destruct (status_eqb _ _); discriminate. }
  set (faulty := (if status_eqb (status (player1 m)) PENDING
                  then [p_userId (player1 m)] else [])
                 ++ (if status_eqb (status (player2 m)) PENDING
                     then [p_userId (player2 m)] else [])).
  assert (Eh : handle cfg (TimerFires env now mid) w
               = cancelMatch env now m faulty "timeout" (clearTimeout mid w)).
  { simpl. destruct (existsb (Nat.eqb mid) (timers w)) eqn:E.
    - unfold handleMatchTimeout. simpl. now rewrite G.
    - exfalso. apply not_true_iff_false in E. apply E.
      apply existsb_exists. exists mid. split; [assumption | apply Nat.eqb_refl]. }
  pose proof (Mirror_handle cfg (TimerFires env now mid) w HI HM) as HM'.
  pose proof (Inv_handle cfg (TimerFires env now mid) w HI) as HI'.
  assert (Egone : pending_get mid (pendingMatches (handle cfg (TimerFires env now mid) w))
                  = None).
  { rewrite Eh.
    destruct (cancelMatch_matches env now m faulty "timeout" (clearTimeout mid w))
      as (_ & Ep & _). rewrite Ep. simpl. rewrite Hid.
    apply pending_get_none. rewrite in_map_iff. intros [x [Ex Hx]].
    apply In_pending_delete in Hx. tauto. }
  split; [exact Egone|]. split.
  { change (timers (step cfg w (TimerFires env now mid)))
      with (timers (handle cfg (TimerFires env now mid) w)).
    rewrite (mir_timers _ HM'). now apply pending_get_none. }
  assert (N12 : String.eqb (p_userId (player1 m)) (p_userId (player2 m)) = false)
    by now apply String.eqb_neq.
  assert (N21 : String.eqb (p_userId (player2 m)) (p_userId (player1 m)) = false)
    by (apply String.eqb_neq; congruence).
  assert (S : selects is_write w (step cfg w (TimerFires env now mid))
                (map (penalty_call "timeout")
                   (filter silent_participant [player1 m; player2 m]))).
  { apply selects_step; [apply jobs_run|]. rewrite Eh.
    eapply selects_trans with (l1 := []);
      [split; [now rewrite app_nil_r | reflexivity]|].
    pose proof (writes_cancelMatch env now m faulty "timeout" (clearTimeout mid w)) as C.
    unfold faulty in C.
    unfold silent_participant.
    cbn [filter] in C |- *.
    destruct (status_eqb (status (player1 m)) PENDING),
             (status_eqb (status (player2 m)) PENDING);
      cbn [app set_has existsb] in C;
      rewrite ?String.eqb_refl, ?N12, ?N21 in C; cbn [orb] in C; exact C. }
  split; [exact (proj1 S)|].
  pose proof (taken_back_cancelMatch env now m faulty "timeout" (clearTimeout mid w)) as T.
  rewrite <- Eh in T.
  assert (Ef : filter (innocent faulty) [player1 m; player2 m]
               = filter has_accepted [player1 m; player2 m]).
  { unfold faulty, innocent, has_accepted. cbn [filter].
    destruct O1 as [O1|O1], O2 as [O2|O2]; rewrite O1, O2;
      cbn [status_eqb app set_has existsb];
      rewrite ?String.eqb_refl, ?N12, ?N21; reflexivity. }
  rewrite Ef in T. destruct T as (back & Q & K & F).
  exists back. split; [exact Q|]. split; [exact K | exact F].
Qed.

(** * Without a socket server *)

Lemma quiet_refl w : server w = false -> quiet w w.
Proof. intros H. now repeat split. Qed.

Lemma quiet_trans w1 w2 w3 : quiet w1 w2 -> quiet w2 w3 -> quiet w1 w3.
Proof. intros (A & B & C) (D & E & F). repeat split; congruence. Qed.

Lemma quiet_fields w w' :
  server w = false -> server w' = server w -> trace w' = trace w -> jobs w' = jobs w ->
  quiet w w'.
Proof. intros H A B C. repeat split; congruence. Qed.

Lemma quiet_emit e w : server w = false -> quiet w (emit e w).
Proof. intros H. rewrite emit_unattached by assumption. now apply quiet_refl. Qed.

Lemma quiet_perform e w :
  server w = false -> is_emission e = false -> quiet w (perform e w).
Proof.
  intros H E. repeat split; simpl; auto.
  rewrite filter_app. simpl. now rewrite E, app_nil_r.
Qed.

Lemma quiet_enqueue line w :
  server w = false -> quiet w (enqueue (ConsoleError line) w).
Proof.
  intros H. repeat split; simpl; auto.
  rewrite filter_app. simpl. now rewrite app_nil_r.
Qed.

Lemma quiet_then w1 w2 w3 :
  quiet w1 w2 -> (server w2 = false -> quiet w2 w3) -> quiet w1 w3.
Proof. intros A B. eapply quiet_trans; [exact A|]. apply B. apply A. Qed.

Lemma quiet_emitQueueStats w : server w = false -> quiet w (emitQueueStats w).
Proof. apply quiet_emit. Qed.

Lemma quiet_addPlayer env now u s e prio w :
  server w = false -> quiet w (snd (addPlayer env now u s e prio w)).
Proof.
  intros H.
  destruct (addPlayer_cases env now u s e prio w)
    as [[msg E] | (_ & _ & _ & _ & E)]; rewrite E; cbn [snd]; [now apply quiet_refl|].
  eapply quiet_then; [|apply quiet_emitQueueStats]. now apply quiet_fields.
Qed.

Lemma quiet_requeue env now line p w :
  server w = false -> quiet w (requeue env now line p w).
Proof.
  intros H. unfold requeue.
  pose proof (quiet_addPlayer env now (p_userId p) (p_socketId p) (p_elo p) true w H) as Ha.
  destruct (addPlayer env now (p_userId p) (p_socketId p) (p_elo p) true w)
    as [[| msg |] w1]; cbn [snd] in Ha; try assumption.
  eapply quiet_then; [exact Ha | apply quiet_enqueue].
Qed.

Lemma quiet_removePlayer identifier w :
  server w = false -> quiet w (removePlayer identifier w).
Proof.
  intros H. unfold removePlayer.
  match goal with |- context [queue_get ?t _] => set (targetId := t) end.
  destruct (queue_get targetId (activeQueue w)); [|now apply quiet_refl].
  eapply quiet_then; [|apply quiet_emitQueueStats]. now apply quiet_fields.
Qed.

Lemma quiet_fold {A} (f : World -> A -> World) l :
  (forall w a, server w = false -> quiet w (f w a)) ->
  forall w, server w = false -> quiet w (fold_left f l w).
Proof.
  intros Hf. induction l as [|a l IH]; intros w H; simpl; [now apply quiet_refl|].
  eapply quiet_then; [now apply Hf | apply IH].
Qed.

Lemma quiet_cancel_participant env now mid guilty reason w p :
  server w = false -> quiet w (cancel_participant env now mid guilty reason w p).
Proof.
  intros H. unfold cancel_participant. destruct (set_has (p_userId p) guilty).
  - eapply quiet_then; [|apply quiet_emit].
    destruct (addPenalty_throws env (p_userId p)).
    + eapply quiet_then;
        [|intros H'; apply quiet_perform; [exact H' | reflexivity]].
      apply quiet_perform; [assumption | reflexivity].
    + apply quiet_perform; [assumption | reflexivity].
  - eapply quiet_then; [|apply quiet_emit].
    eapply quiet_then; [|apply quiet_emit].
    now apply quiet_requeue.
Qed.

Lemma quiet_cancelMatch env now m faulty reason w :
  server w = false -> quiet w (cancelMatch env now m faulty reason w).
Proof.
  intros H. unfold cancelMatch.
  eapply quiet_then; [|apply quiet_emitQueueStats].
  set (w2 := with_pendingMatches _ _).
  assert (H2 : quiet w w2).
  { apply quiet_fields; auto; unfold w2; destruct (timeoutId m); reflexivity. }
  eapply quiet_then; [exact H2|].
  apply quiet_fold. intros; now apply quiet_cancel_participant.
Qed.

Lemma quiet_finalizeMatch env now m w :
  server w = false -> quiet w (finalizeMatch env now m w).
Proof.
  intros H. destruct (finalizeMatch_fields env now m w) as (F1 & _ & _ & _ & _ & _ & F7 & _).
  repeat split; [congruence| |now rewrite F7].
  rewrite finalizeMatch_trace, filter_app. unfold finalize_effects, session_report.
  destruct (createSessionLog_throws env); simpl; now rewrite app_nil_r.
Qed.

Lemma quiet_acceptMatch env now u mid w :
  server w = false -> quiet w (snd (acceptMatch env now u mid w)).
Proof.
  intros H. unfold acceptMatch.
  destruct (pending_get mid (pendingMatches w)) as [m|]; [|now apply quiet_refl].
  cbv zeta.
  assert (K : forall m', quiet w
                (finalizeMatch env now m'
                   (with_pendingMatches (pending_replace m' (pendingMatches w)) w))).
  { intros m'. eapply quiet_then; [|apply quiet_finalizeMatch]. now apply quiet_fields. }
  destruct (String.eqb (p_userId (player1 m)) u);
    [|destruct (String.eqb (p_userId (player2 m)) u); [|now apply quiet_refl]];
    (destruct (negb _); [now apply quiet_refl|]);
    (destruct (_ && _); cbn [snd]; [apply K | now apply quiet_fields]).
Qed.

Lemma quiet_handleMatchFound now p1 p2 w :
  server w = false -> quiet w (handleMatchFound now p1 p2 w).
Proof.
  intros H. unfold handleMatchFound.
  eapply quiet_then; [|apply quiet_emitQueueStats].
  eapply quiet_then; [|apply quiet_emit].
  eapply quiet_then; [|apply quiet_emit].
  now apply quiet_fields.
Qed.

Lemma quiet_pairing cfg now candidates : forall matchedIds w,
  server w = false -> quiet w (pairing cfg now candidates matchedIds w).
Proof.
  induction candidates as [|a later IH]; intros matchedIds w H; simpl;
    [now apply quiet_refl|].
  destruct (set_has (userId a) matchedIds); [now apply IH|].
  set (w1 := with_activeQueue _ w).
  assert (H1 : quiet w w1) by now apply quiet_fields.
  destruct (scan cfg (expand cfg now a) later matchedIds) as [b|].
  - eapply quiet_then; [|apply IH].
    eapply quiet_then; [exact H1 | apply quiet_handleMatchFound].
  - eapply quiet_then; [exact H1 | apply IH].
Qed.

Lemma quiet_finalizeMatch_resume env now m r w :
  server w = false -> quiet w (finalizeMatch_resume env now m r w).
Proof.
  intros H. unfold finalizeMatch_resume.
  eapply quiet_then; [|apply quiet_emitQueueStats].
  destruct r.
  - unfold handleGameCreationSuccess. rewrite H. now apply quiet_refl.
  - unfold handleGameCreationFailure.
    eapply quiet_then; [|apply quiet_fold].
    + eapply quiet_then; [now apply quiet_emit | apply quiet_emit].
    + intros w' a H'. unfold requeue_after_failure.
      eapply quiet_then; [|apply quiet_emit]. now apply quiet_requeue.
Qed.

Lemma quiet_handle cfg ev w :
  server w = false -> ev <> SetServer -> quiet w (handle cfg ev w).
Proof.
  intros H Hev. destruct ev; cbn [handle].
  - congruence.
  - now apply quiet_addPlayer.
  - now apply quiet_removePlayer.
  - now apply quiet_acceptMatch.
  - unfold declineMatch.
    destruct (pending_get mid (pendingMatches w)) as [m|]; [|now apply quiet_refl].
    destruct (_ && _); cbn [snd]; [now apply quiet_refl | now apply quiet_cancelMatch].
  - destruct (existsb _ _); [|now apply quiet_refl]. unfold handleMatchTimeout.
    destruct (pending_get mid _) as [m|].
    + eapply quiet_then; [|apply quiet_cancelMatch]. now apply quiet_fields.
    + now apply quiet_fields.
  - unfold matchmakingLoop. destruct (_ <? _)%nat; [now apply quiet_refl|].
    now apply quiet_pairing.
  - destruct (pending_get mid (awaiting w)) as [m|]; [|now apply quiet_refl].
    eapply quiet_then; [|apply quiet_finalizeMatch_resume]. now apply quiet_fields.
Qed.

Lemma quiet_step cfg ev w :
  server w = false -> ev <> SetServer -> jobs w = [] -> quiet w (step cfg w ev).
Proof.
  intros H Hev J. destruct (quiet_handle cfg ev w H Hev) as (A & B & C).
  unfold step. split; [exact A|]. split.
  - simpl. rewrite filter_app, B, C, J. simpl. now rewrite app_nil_r.
  - now rewrite J.
Qed.

(** * The tick and the cancellation, as seen from outside *)

Lemma joinTime_expand cfg now p : joinTime (expand cfg now p) = joinTime p.
Proof. unfold expand. destruct (_ >? _); reflexivity. Qed.

Lemma rangeFactor_expand cfg now p :
  rangeFactor (expand cfg now p) = rangeFactor p
  \/ rangeFactor (expand cfg now p) = rangeFactor p + EXPANSION_STEP cfg.
Proof. unfold expand. destruct (_ >? _); simpl; auto. Qed.

Lemma jobs_pairing cfg now candidates : forall matchedIds w,
  jobs (pairing cfg now candidates matchedIds w) = jobs w.
Proof.
  induction candidates as [|a l IH]; intros m w; simpl; [reflexivity|].
  destruct (set_has (userId a) m); [apply IH|].
  destruct (scan cfg (expand cfg now a) l m); now rewrite IH.
Qed.

Lemma step_tick cfg now w :
  jobs w = [] -> step cfg w (Tick now) = matchmakingLoop cfg now w.
Proof.
  intros J. unfold step. cbn [handle]. apply drain_quiet.
  unfold matchmakingLoop. destruct (_ <? _)%nat; [assumption|].
  now rewrite jobs_pairing.
Qed.

(** X6. What a tick sends, in any reachable state: the matches it
    creates are appended to the pending matches, each takes two players
    out of the queue, and the tick emits, for each new match in order,
    the proposal to the socket of player1 with the elo of player2, the
    proposal to the socket of player2 with the elo of player1 (both
    with the identifier and the deadline of the match), then the
    statistics of that moment; it emits nothing else, and nothing at all
    when no server is attached. *)
Theorem tick_sends_proposals (cfg : Constants) (evs : list Event) (now : Z) :
  let w := run cfg evs initial in
  let w' := step cfg w (Tick now) in
  exists ms,
    pendingMatches w' = pendingMatches w ++ ms
    /\ (List.length (activeQueue w') + 2 * List.length ms
        = List.length (activeQueue w))%nat
    /\ trace w' = trace w
         ++ (if server w
             then tick_emissions (List.length (activeQueue w))
                    (List.length (pendingMatches w)) ms
             else [])
    /\ awaiting w' = awaiting w.
Proof.
  cbv zeta. rewrite step_tick by apply jobs_run.
  destruct (tick_record_matchmakingLoop cfg now _ (Inv_reachable cfg evs))
    as (_ & Ha & _ & ms & Hp & Hl & Ht).
  exists ms. auto.
Qed.

(** X7. A tick neither loses nor invents a player: the users waiting or
    in a ready check after it are those of before, each still exactly
    once, and [size + 2 * pending] of [getQueueStats] is unchanged. *)
Theorem tick_conserves_players (cfg : Constants) (evs : list Event) (now : Z) :
  let w := run cfg evs initial in
  let w' := step cfg w (Tick now) in
  Permutation (waitingUsers w' ++ pendingUsers (pendingMatches w'))
              (waitingUsers w ++ pendingUsers (pendingMatches w))
  /\ (fst (getQueueStats w') + 2 * snd (getQueueStats w')
      = fst (getQueueStats w) + 2 * snd (getQueueStats w))%nat.
Proof.
  cbv zeta. rewrite step_tick by apply jobs_run.
  pose proof (Inv_reachable cfg evs) as HI.
  pose proof (Inv_matchmakingLoop cfg now _ HI) as HI'.
  assert (HP : Permutation
                 (waitingUsers (matchmakingLoop cfg now (run cfg evs initial))
                  ++ pendingUsers (pendingMatches
                                     (matchmakingLoop cfg now (run cfg evs initial))))
                 (waitingUsers (run cfg evs initial)
                  ++ pendingUsers (pendingMatches (run cfg evs initial)))).
  { apply NoDup_Permutation; [apply (inv_users _ HI') | apply (inv_users _ HI)|].
    now apply users_matchmakingLoop. }
  split; [exact HP|].
  apply Permutation_length in HP.
  rewrite !length_app, !length_pendingUsers in HP.
  unfold waitingUsers in HP. rewrite !length_map in HP. exact HP.
Qed.

(** X8. A player still waiting after a tick is a player who was waiting
    before it, unchanged or with the range expanded for this tick: same
    user, socket, elo, join time and priority, and (for a non-negative
    EXPANSION_STEP) a range factor that has not gone down and has gone
    up by at most one step.  With fewer than two waiting players the
    tick changes nothing, not even a range. *)
Theorem tick_only_expands_ranges (cfg : Constants) (evs : list Event) (now : Z) :
  let w := run cfg evs initial in
  let w' := step cfg w (Tick now) in
  forall q', In q' (activeQueue w') ->
    exists q,
      In q (activeQueue w)
      /\ (q' = q \/ q' = expand cfg now q)
      /\ userId q' = userId q /\ socketId q' = socketId q /\ elo q' = elo q
      /\ joinTime q' = joinTime q /\ priority q' = priority q
      /\ (0 <= EXPANSION_STEP cfg ->
          rangeFactor q <= rangeFactor q' <= rangeFactor q + EXPANSION_STEP cfg)
      /\ ((List.length (activeQueue w) < 2)%nat -> q' = q).
Proof.
  cbv zeta. rewrite step_tick by apply jobs_run. intros q' Hq'.
  destruct (List.length (activeQueue (run cfg evs initial)) <? 2)%nat eqn:L2.
  { unfold matchmakingLoop in Hq'. rewrite L2 in Hq'. exists q'.
    repeat (split; [solve [auto]|]). split; [lia | reflexivity]. }
  apply Nat.ltb_ge in L2.
  destruct (ranges_matchmakingLoop cfg now _ (Inv_reachable cfg evs) q' Hq')
    as (q & Hq & Hc).
  exists q. split; [assumption|]. split; [assumption|].
  destruct Hc as [->| ->].
  - repeat (split; [reflexivity|]). split; [lia | reflexivity].
  - rewrite userId_expand, socketId_expand, elo_expand, joinTime_expand, priority_expand.
    repeat (split; [reflexivity|]). split; [|lia].
    intros Hs. destruct (rangeFactor_expand cfg now q) as [E|E]; rewrite E; lia.
Qed.

(** X9. With a non-negative EXPANSION_STEP, in every state the service
    can reach the range factor of a waiting player is at least the one
    it was created with; and with a non-negative BASE_TOLERANCE its
    tolerance as the passive side is at least the tolerance of a newly
    created player and at most its tolerance as the active side. *)
Theorem ranges_never_shrink (cfg : Constants) (evs : list Event)
  (Hstep : 0 <= EXPANSION_STEP cfg) :
  Forall (fun p =>
            let fresh := createQueuedPlayer (joinTime p) (userId p) (socketId p)
                           (elo p) (priority p) in
            rangeFactor fresh <= rangeFactor p
            /\ (0 <= BASE_TOLERANCE cfg ->
                toleranceB cfg fresh <= toleranceB cfg p <= toleranceA cfg p))
         (activeQueue (run cfg evs initial)).
Proof.
  assert (H : Forall (fun p => 1 <= rangeFactor p) (activeQueue (run cfg evs initial))).
  { apply (Forall_queue_run cfg (fun p => 1 <= rangeFactor p)).
    - intros. simpl. lia.
    - intros now p Hp. destruct (rangeFactor_expand cfg now p) as [E|E]; rewrite E; lia.
    - apply Inv_initial.
    - constructor. }
  eapply Forall_impl; [|exact H]. intros p Hp. cbv beta in Hp. cbv zeta.
  split; [assumption|].
  intros Hb. unfold toleranceA, toleranceB. cbv zeta. cbn [rangeFactor createQueuedPlayer].
  assert (B : BASE_TOLERANCE cfg * 1 <= BASE_TOLERANCE cfg * rangeFactor p)
    by (apply Z.mul_le_mono_nonneg_l; lia).
  set (x := BASE_TOLERANCE cfg * rangeFactor p) in *.
  destruct (priority p); lia.
Qed.

(** X10. Cancelling a match removes that match and no other, drops
    nobody from the queue, and lets in at most its own participants who
    are not at fault, appended as priority players who joined now, each
    under the socket and elo recorded in the match. *)
Theorem cancel_requeues_only_innocents env now m faulty reason w :
  let w' := cancelMatch env now m faulty reason w in
  pendingMatches w' = pending_delete (matchId m) (pendingMatches w)
  /\ exists back,
       activeQueue w' = activeQueue w ++ back
       /\ activeSockets w' = activeSockets w ++ map socketId back
       /\ forall q, In q back ->
            exists p, In p [player1 m; player2 m]
                      /\ ~ In (p_userId p) faulty
                      /\ q = createQueuedPlayer now (p_userId p) (p_socketId p) (p_elo p) true.
Proof.
  cbv zeta. split; [apply cancelMatch_matches|].
  destruct (requeued_cancelMatch env now m faulty reason w) as (back & Q & S & F).
  exists back. split; [assumption|]. split; [assumption|].
  rewrite Forall_forall in F. intros q Hq. destruct (F q Hq) as (p & Hp & E).
  apply filter_In in Hp. destruct Hp as [Hp Hi]. exists p.
  split; [assumption|]. split; [|assumption].
  unfold innocent in Hi. apply negb_true_iff in Hi. now apply set_has_false.
Qed.

(** * Accept, decline, join and the reply of the game service *)

Lemma pending_get_delete_neq mid mid' l :
  mid' <> mid -> pending_get mid' (pending_delete mid l) = pending_get mid' l.
Proof.
  intros Hne. unfold pending_get, pending_delete.
  induction l as [|m l IH]; simpl; [reflexivity|].
  destruct (Nat.eqb mid (matchId m)) eqn:E; simpl.
  - apply Nat.eqb_eq in E. subst.
    assert (F : Nat.eqb mid' (matchId m) = false) by now apply Nat.eqb_neq.
    now rewrite F.
  - destruct (Nat.eqb mid' (matchId m)); auto.
Qed.

Lemma pending_acceptMatch env now u mid w :
  pending_delete mid (pendingMatches (snd (acceptMatch env now u mid w)))
  = pending_delete mid (pendingMatches w).
Proof.
  unfold acceptMatch.
  destruct (pending_get mid (pendingMatches w)) as [m|] eqn:G; [|reflexivity].
  apply pending_get_some in G. destruct G as [_ Hid]. cbv zeta.
  assert (K : forall m', matchId m' = mid ->
    pending_delete mid (pending_replace m' (pendingMatches w))
    = pending_delete mid (pendingMatches w)
    /\ pending_delete mid
         (pendingMatches
            (finalizeMatch env now m'
               (with_pendingMatches (pending_replace m' (pendingMatches w)) w)))
       = pending_delete mid (pendingMatches w)).
  { intros m' E. subst mid.
    assert (R : pending_delete (matchId m) (pending_replace m' (pendingMatches w))
                = pending_delete (matchId m) (pendingMatches w))
      by (rewrite <- E; apply pending_delete_replace).
    split; [exact R|].
    destruct (finalizeMatch_fields env now m'
                (with_pendingMatches (pending_replace m' (pendingMatches w)) w))
      as (_ & _ & _ & F4 & _).
    rewrite F4. cbn [pendingMatches with_pendingMatches]. rewrite E, R.
    unfold pending_delete. apply filter_idem. }
  destruct (String.eqb (p_userId (player1 m)) u);
    [|destruct (String.eqb (p_userId (player2 m)) u); [|reflexivity]].
  - destruct (negb _); [reflexivity|].
    destruct (K (with_player1 (with_status ACCEPTED (player1 m)) m) Hid) as [K1 K2].
    destruct (_ && _); assumption.
  - destruct (negb _); [reflexivity|].
    destruct (K (with_player2 (with_status ACCEPTED (player2 m)) m) Hid) as [K1 K2].
    destruct (_ && _); assumption.
Qed.

Lemma emissions_acceptMatch env now u mid w :
  filter is_emission (trace (snd (acceptMatch env now u mid w)))
  = filter is_emission (trace w).
Proof.
  unfold acceptMatch.
  destruct (pending_get mid (pendingMatches w)) as [m|]; [|reflexivity]. cbv zeta.
  assert (K : forall m' w1, trace w1 = trace w ->
    filter is_emission (trace (finalizeMatch env now m' w1)) = filter is_emission (trace w)).
  { intros m' w1 E. rewrite finalizeMatch_trace, filter_app, E.
    unfold finalize_effects, session_report.
    destruct (createSessionLog_throws env); simpl; now rewrite app_nil_r. }
  destruct (String.eqb (p_userId (player1 m)) u);
    [|destruct (String.eqb (p_userId (player2 m)) u); [|reflexivity]];
    (destruct (negb _); [reflexivity|]);
    (destruct (_ && _); cbn [snd]; [now apply K | reflexivity]).
Qed.

(** X11. An accept, whatever its outcome, touches only its own match:
    the queue and the active sockets are as before, every other pending
    match is as before, and nothing is sent to any socket (the
    confirmations wait for the reply of the game service). *)
Theorem accept_touches_only_its_match env now u mid w :
  let w' := snd (acceptMatch env now u mid w) in
  activeQueue w' = activeQueue w
  /\ activeSockets w' = activeSockets w
  /\ pending_delete mid (pendingMatches w') = pending_delete mid (pendingMatches w)
  /\ (forall mid', mid' <> mid ->
        pending_get mid' (pendingMatches w') = pending_get mid' (pendingMatches w))
  /\ filter is_emission (trace w') = filter is_emission (trace w).
Proof.
  cbv zeta. destruct (queue_acceptMatch env now u mid w) as [Q S].
  pose proof (pending_acceptMatch env now u mid w) as D.
  repeat (split; [assumption|]). split; [|apply emissions_acceptMatch].
  intros mid' Hne.
  rewrite <- (pending_get_delete_neq mid mid' (pendingMatches w)) by assumption.
  rewrite <- D. symmetry. now apply pending_get_delete_neq.
Qed.

(** X12. Accept and decline fail exactly for an unknown match ("Match
    not found or expired") and for a user who is not one of the two
    participants ("User is not a participant in this match"), leaving
    the world as it was; for a participant accept never throws and
    decline cancels the match with the caller as the only one at
    fault. *)
Theorem ready_check_rejects_strangers env now u mid w :
  (pending_get mid (pendingMatches w) = None ->
     acceptMatch env now u mid w = (Threw "Match not found or expired", w)
     /\ declineMatch env now u mid w = (Threw "Match not found or expired", w))
  /\ (forall m, pending_get mid (pendingMatches w) = Some m ->
        ~ In u (participants m) ->
        acceptMatch env now u mid w
        = (Threw "User is not a participant in this match", w)
        /\ declineMatch env now u mid w
           = (Threw "User is not a participant in this match", w))
  /\ (forall m, pending_get mid (pendingMatches w) = Some m ->
        In u (participants m) ->
        (forall msg, fst (acceptMatch env now u mid w) <> Threw msg)
        /\ declineMatch env now u mid w
           = (Returned, cancelMatch env now m [u] "declined" w)).
Proof.
  unfold acceptMatch, declineMatch. split; [|split].
  - intros G. now rewrite G.
  - intros m G Hn. rewrite G. cbv zeta. simpl in Hn.
    destruct (String.eqb (p_userId (player1 m)) u) eqn:E1;
      [apply String.eqb_eq in E1; tauto|].
    destruct (String.eqb (p_userId (player2 m)) u) eqn:E2;
      [apply String.eqb_eq in E2; tauto|].
    now split.
  - intros m G Hin. rewrite G. cbv zeta. simpl in Hin.
    destruct (String.eqb (p_userId (player1 m)) u) eqn:E1.
    + split; [|reflexivity]. intros msg.
      destruct (negb _); [discriminate|]. destruct (_ && _); discriminate.
    + destruct (String.eqb (p_userId (player2 m)) u) eqn:E2.
      * split; [|reflexivity]. intros msg.
        destruct (negb _); [discriminate|]. destruct (_ && _); discriminate.
      * apply String.eqb_neq in E1, E2. tauto.
Qed.

(** X13. A successful [addPlayer] means that every guard passed (no
    active penalty, user neither waiting nor in a ready check, socket
    free); the new player is appended to the queue and the socket to the
    active sockets, is found under its userId, the ready checks are
    untouched, and the only emission is the broadcast of the statistics
    with the queue one longer (none without a server). *)
Theorem addPlayer_success env now u s e prio w w'
  (H : addPlayer env now u s e prio w = (Returned, w')) :
  getActivePenalty env u = None
  /\ ~ In u (waitingUsers w)
  /\ ~ In u (pendingUsers (pendingMatches w))
  /\ ~ In s (activeSockets w)
  /\ activeQueue w' = activeQueue w ++ [createQueuedPlayer now u s e prio]
  /\ activeSockets w' = activeSockets w ++ [s]
  /\ queue_get u (activeQueue w') = Some (createQueuedPlayer now u s e prio)
  /\ pendingMatches w' = pendingMatches w
  /\ timers w' = timers w
  /\ trace w' = trace w
       ++ (if server w
           then [EmitAll (queue_stats (S (List.length (activeQueue w)))
                                      (List.length (pendingMatches w)))]
           else []).
Proof.
  destruct (addPlayer_cases env now u s e prio w)
    as [[msg E] | (Hb & Hq & Hp & Hs & E)]; rewrite E in H; [discriminate|].
  inversion H; subst w'; clear H.
  repeat (split; [assumption|]). split; [reflexivity|]. split; [reflexivity|].
  split; [simpl; now apply queue_get_appended|].
  split; [reflexivity|]. split; [reflexivity|].
  unfold emitQueueStats, emit. simpl. rewrite length_app. simpl.
  rewrite Nat.add_1_r. destruct (server w); [reflexivity | now rewrite app_nil_r].
Qed.

(** X14. When the game service reports the game created, the service
    re-queues and penalises nobody: the indices are as before, and what
    is sent is the confirmation to the two sockets (game identifier and
    both userIds) followed by the statistics, or nothing when no server
    is attached. *)
Theorem game_created_confirms env now m gameId message w :
  let w' := finalizeMatch_resume env now m (GameCreated gameId message) w in
  let confirmed :=
    match_confirmed gameId (p_userId (player1 m)) (p_userId (player2 m)) in
  activeQueue w' = activeQueue w
  /\ activeSockets w' = activeSockets w
  /\ pendingMatches w' = pendingMatches w
  /\ jobs w' = jobs w
  /\ trace w' = trace w
       ++ (if server w
           then [EmitTo (p_socketId (player1 m)) confirmed;
                 EmitTo (p_socketId (player2 m)) confirmed;
                 EmitAll (queue_stats (List.length (activeQueue w))
                                      (List.length (pendingMatches w)))]
           else []).
Proof.
  cbv zeta. unfold finalizeMatch_resume, handleGameCreationSuccess, emitQueueStats, emit.
  destruct (server w) eqn:S; simpl; rewrite ?S; simpl.
  - repeat (split; [reflexivity|]). now rewrite <- !app_assoc.
  - repeat (split; [reflexivity|]). now rewrite app_nil_r.
Qed.

(** X15. Until [setServer] has been called the service emits nothing,
    whatever happens to it (joins, ticks, accepts, declines, expiries,
    replies of the game service): every emission is under
    [if (this.server)]. *)
Theorem nothing_sent_without_server (cfg : Constants) (evs : list Event)
  (H : ~ In SetServer evs) :
  let w := run cfg evs initial in
  server w = false /\ filter is_emission (trace w) = [].
Proof.
  cbv zeta. induction evs as [|ev evs IH] using rev_ind; [now split|].
  unfold run. rewrite fold_left_app. cbn [fold_left].
  change (fold_left (step cfg) evs initial) with (run cfg evs initial).
  assert (H1 : ~ In SetServer evs) by (intros F; apply H, in_app_iff; auto).
  assert (H2 : ev <> SetServer) by (intros ->; apply H, in_app_iff; simpl; auto).
  destruct (IH H1) as [S T].
  destruct (quiet_step cfg ev _ S H2 (jobs_run cfg evs)) as (A & B & _).
  split; [exact A | now rewrite B].
Qed.

(** * The gateway *)

Lemma acceptMatch_threw env now u mid w msg w' :
  acceptMatch env now u mid w = (Threw msg, w') -> w' = w.
Proof.
  unfold acceptMatch.
  destruct (pending_get mid (pendingMatches w)) as [m|]; [|congruence]. cbv zeta.
  destruct (String.eqb (p_userId (player1 m)) u);
    [|destruct (String.eqb (p_userId (player2 m)) u); [|congruence]];
    (destruct (negb _); [congruence|]); (destruct (_ && _); congruence).
Qed.

Lemma declineMatch_threw env now u mid w msg w' :
  declineMatch env now u mid w = (Threw msg, w') -> w' = w.
Proof.
  unfold declineMatch.
  destruct (pending_get mid (pendingMatches w)) as [m|]; [|congruence].
  destruct (_ && _); congruence.
Qed.

(** X16. The [join_queue] handler answers exactly once.  A socket
    without a session (no [userId] or no [elo]) is disconnected and the
    service is not called.  Otherwise a body that [JoinQueueSchema]
    refuses is answered with the error "Invalid payload", the service
    not being called; and a body it accepts makes the handler call
    [addPlayer(userId, socket.id, elo, false)] for the user of the
    session and the id of this socket, with the [elo] of the body when
    the body has one and the [elo] of the session otherwise.  If
    [addPlayer] rejects, the answer is one [error] carrying the very
    message of the rejection, and the service is as it was; if it
    returns, the answer is one [queue_joined] with that user and that
    elo, and the player is at the end of the queue.  [addPlayer] does one
    or the other.  The schema accepts a missing body (anything falsy,
    read as the empty object), an object without [elo] and an object
    whose [elo] is an integer not below 0, and nothing else. *)
Theorem join_queue_answers_once env now later socket payload w :
  let r := handleJoinQueue env now later socket payload w in
  List.length (fst r) = 1%nat
  /\ (session_user socket = None \/ data_elo (data socket) = None ->
      r = ([reply_disconnect], w))
  /\ (forall u sessionElo,
        session_user socket = Some u -> data_elo (data socket) = Some sessionElo ->
        (validateJoinQueue (or_empty_object payload) = None ->
           r = ([reply_error "Invalid payload"], w))
        /\ (forall body_elo,
              validateJoinQueue (or_empty_object payload) = Some body_elo ->
              let e := match body_elo with Some z => z | None => sessionElo end in
              let a := addPlayer env now u (socket_id socket) e false w in
              (forall msg, fst a = Threw msg ->
                 snd a = w /\ r = ([reply_error msg], w))
              /\ (fst a = Returned ->
                  r = ([reply_queue_joined u e later], snd a)
                  /\ activeQueue (snd a)
                     = activeQueue w
                       ++ [createQueuedPlayer now u (socket_id socket) e false])
              /\ ((exists msg, fst a = Threw msg) \/ fst a = Returned)))
  /\ (truthy payload = false ->
      validateJoinQueue (or_empty_object payload) = Some None)
  /\ (forall other,
        validateJoinQueue (or_empty_object (js_object js_undefined other)) = Some None)
  /\ (forall z other,
        validateJoinQueue (or_empty_object (js_object (js_integer z) other))
        = if 0 <=? z then Some (Some z) else None)
  /\ (validateJoinQueue (or_empty_object payload) <> None ->
      truthy payload = false
      \/ (exists other, payload = js_object js_undefined other)
      \/ (exists z other, 0 <= z /\ payload = js_object (js_integer z) other)).
Proof.
  cbv zeta. unfold handleJoinQueue. split; [|split; [|split; [|split; [|split; [|split]]]]].
  - destruct (session_user socket) as [u|]; [|reflexivity].
    destruct (data_elo (data socket)) as [sessionElo|]; [|reflexivity].
    destruct (validateJoinQueue (or_empty_object payload)) as [pe|]; [|reflexivity].
    destruct (addPlayer _ _ _ _ _ _ _) as [[| msg |] w']; reflexivity.
  - intros [H|H]; rewrite H; [reflexivity|].
    now destruct (session_user socket).
  - intros u sessionElo Hu He. rewrite Hu, He. split.
    + intros V. now rewrite V.
    + intros pe V. rewrite V.
      set (e := match pe with Some z => z | None => sessionElo end).
      destruct (addPlayer_cases env now u (socket_id socket) e false w)
        as [[msg E] | (_ & _ & _ & _ & E)]; rewrite E; cbn [fst snd].
      * split; [|split].
        -- intros msg' Em. inversion Em; subst. split; reflexivity.
        -- discriminate.
        -- left. eauto.
      * split; [|split].
        -- discriminate.
        -- intros _. split; reflexivity.
        -- now right.
  - intros T. unfold or_empty_object. now rewrite T.
  - reflexivity.
  - reflexivity.
  - unfold or_empty_object. destruct (truthy payload) eqn:T; [|now left].
    intros V. right. unfold validateJoinQueue in V.
    destruct payload as [| | | | | | | | |el other]; try congruence.
    destruct el as [| | |z| | | | | |]; try congruence.
    + left. eauto.
    + right. exists z, other. split; [|reflexivity].
      destruct (0 <=? z) eqn:Z; [now apply Z.leb_le | congruence].
Qed.

(** X17. [accept_match] and [decline_match]: an [error] answer means
    the service is as it was.  A socket without a session gets no
    answer and changes nothing; a body without a UUID [matchId] is
    refused before the service is called; an unknown match and a user
    who is not a participant are answered with the error of the service;
    a participant gets no answer, and their decline cancels the match
    with them as the one at fault. *)
Theorem decisions_fail_without_effect env now socket payload w :
  let ra := handleAcceptMatch env now socket payload w in
  let rd := handleDeclineMatch env now socket payload w in
  (forall msg, In (reply_error msg) (fst ra) -> snd ra = w)
  /\ (forall msg, In (reply_error msg) (fst rd) -> snd rd = w)
  /\ (session_user socket = None -> ra = ([], w) /\ rd = ([], w))
  /\ (forall u, session_user socket = Some u ->
        match validateMatchDecision (or_empty_object payload) with
        | None =>
            ra = ([reply_error "Invalid payload for accept_match"], w)
            /\ rd = ([reply_error "Invalid payload for decline_match"], w)
        | Some mid =>
            match pending_get mid (pendingMatches w) with
            | None =>
                ra = ([reply_error "Match not found or expired"], w)
                /\ rd = ([reply_error "Match not found or expired"], w)
            | Some m =>
                if String.eqb (p_userId (player1 m)) u
                   || String.eqb (p_userId (player2 m)) u
                then fst ra = []
                     /\ rd = ([], cancelMatch env now m [u] "declined" w)
                else ra = ([reply_error "User is not a participant in this match"], w)
                     /\ rd = ([reply_error "User is not a participant in this match"], w)
            end
        end).
Proof.
  cbv zeta. unfold handleAcceptMatch, handleDeclineMatch.
  destruct (session_user socket) as [u|].
  2:{ repeat split; try reflexivity; simpl; try tauto; discriminate. }
  destruct (validateMatchDecision (or_empty_object payload)) as [mid|].
  2:{ repeat split; try reflexivity; try discriminate. }
  split; [|split; [|split; [discriminate|]]].
  - destruct (acceptMatch env now u mid w) as [[| m |] w'] eqn:E; simpl; try tauto.
    intros _ _. eapply acceptMatch_threw; eauto.
  - destruct (declineMatch env now u mid w) as [[| m |] w'] eqn:E; simpl; try tauto.
    intros _ _. eapply declineMatch_threw; eauto.
  - intros u' E. inversion E; subst u'. clear E.
    unfold acceptMatch, declineMatch.
    destruct (pending_get mid (pendingMatches w)) as [m|]; [|now split]. cbv zeta.
    destruct (String.eqb (p_userId (player1 m)) u); simpl.
    + split; [|reflexivity].
      destruct (status_eqb _ _); simpl; [|reflexivity].
      destruct (status_eqb _ _); reflexivity.
    + destruct (String.eqb (p_userId (player2 m)) u); simpl; [|now split].
      split; [|reflexivity].
      destruct (status_eqb _ _); simpl; [|reflexivity].
      destruct (status_eqb _ _); simpl; try reflexivity.
Qed.

(** X18. [leave_queue] and a disconnection have the same effect on the
    service, and none on the ready checks: pending matches, alarms and
    suspended finalizations are as before and no collaborator is called,
    so a user who leaves during a ready check stays in it.  The user of
    the session is not waiting afterwards, and [leave_queue] answers
    [queue_left] whether or not they were. *)
Theorem leaving_keeps_ready_checks now socket w :
  let w1 := snd (handleLeaveQueue now socket w) in
  let w2 := handleDisconnect socket w in
  w2 = w1
  /\ pendingMatches w1 = pendingMatches w
  /\ timers w1 = timers w
  /\ awaiting w1 = awaiting w
  /\ filter is_call (trace w1) = filter is_call (trace w)
  /\ (session_user socket = None -> handleLeaveQueue now socket w = ([], w))
  /\ (forall u, session_user socket = Some u ->
        fst (handleLeaveQueue now socket w) = [reply_queue_left u now]
        /\ ~ In u (waitingUsers w1)
        /\ (isUserInPendingMatch u w = true -> isUserInPendingMatch u w1 = true)).
Proof.
  cbv zeta. unfold handleLeaveQueue, handleDisconnect.
  destruct (session_user socket) as [u|].
  2:{ repeat split; try reflexivity; discriminate. }
  cbn [snd fst].
  assert (K : keeps_matches w (removePlayer u w)).
  { unfold removePlayer.
    match goal with |- context [queue_get ?t _] => set (targetId := t) end.
    destruct (queue_get targetId (activeQueue w)); repeat split. }
  destruct K as (_ & Kp & Kt & _ & Ka).
  split; [reflexivity|]. repeat (split; [assumption|]).
  split.
  { destruct (selects_removePlayer is_call is_call_emission u w) as [S _].
    now rewrite app_nil_r in S. }
  split; [discriminate|].
  intros u' E. inversion E; subst u'. clear E.
  split; [reflexivity|]. split.
  - unfold removePlayer.
    destruct (queue_has u (activeQueue w)) eqn:Hq.
    + apply queue_has_true in Hq. destruct (queue_get_in u _ Hq) as [p G].
      rewrite G. unfold waitingUsers. simpl. apply not_In_queue_delete.
    + apply queue_has_false in Hq.
      destruct (find _ (activeQueue w)) as [p|] eqn:F.
      * destruct (queue_get (userId p) (activeQueue w)); [|assumption].
        unfold waitingUsers. simpl. intros Hin.
        apply In_users_queue_delete in Hin. tauto.
      * pose proof Hq as Hq'. apply queue_get_none in Hq'. now rewrite Hq'.
  - unfold isUserInPendingMatch. now rewrite Kp.
Qed.

(** * Round trips and a first match *)

Lemma queue_delete_appended u q p :
  ~ In u (map userId q) -> userId p = u -> queue_delete u (q ++ [p]) = q.
Proof.
  intros Hn E. unfold queue_delete. rewrite filter_app. simpl.
  rewrite E, String.eqb_refl. simpl. rewrite app_nil_r.
  apply forallb_filter_id, forallb_forall. intros x Hx.
  apply negb_true_iff, String.eqb_neq. intros F. apply Hn. rewrite F. now apply in_map.
Qed.

Lemma set_delete_appended s l : ~ In s l -> set_delete s (l ++ [s]) = l.
Proof.
  intros Hn. unfold set_delete. rewrite filter_app. simpl.
  rewrite String.eqb_refl. simpl. rewrite app_nil_r.
  apply forallb_filter_id, forallb_forall. intros x Hx.
  apply negb_true_iff, String.eqb_neq. intros F. apply Hn. now rewrite F.
Qed.

(** X19. Leaving undoes joining: after a successful [addPlayer],
    [removePlayer] for the same user leaves the queue, the active
    sockets, the pending matches and the alarms exactly as they were
    before the player joined. *)
Theorem join_then_leave_restores env now u s e prio w w'
  (H : addPlayer env now u s e prio w = (Returned, w')) :
  let back := removePlayer u w' in
  activeQueue back = activeQueue w
  /\ activeSockets back = activeSockets w
  /\ pendingMatches back = pendingMatches w
  /\ timers back = timers w
  /\ getQueueStats back = getQueueStats w.
Proof.
  destruct (addPlayer_cases env now u s e prio w)
    as [[msg E] | (Hb & Hq & Hp & Hs & E)]; rewrite E in H; [discriminate|].
  inversion H; subst w'; clear H. cbv zeta.
  set (p := createQueuedPlayer now u s e prio).
  set (w1 := emitQueueStats _).
  assert (Q1 : activeQueue w1 = activeQueue w ++ [p]) by reflexivity.
  assert (S1 : activeSockets w1 = activeSockets w ++ [s]) by reflexivity.
  assert (G : queue_get u (activeQueue w1) = Some p)
    by (rewrite Q1; now apply queue_get_appended).
  assert (Hin : queue_has u (activeQueue w1) = true).
  { apply queue_has_true. rewrite Q1, map_app. apply in_app_iff. right. now left. }
  assert (R : removePlayer u w1
              = emitQueueStats
                  (with_activeQueue (queue_delete u (activeQueue w1))
                     (with_activeSockets (set_delete s (activeSockets w1)) w1))).
  { unfold removePlayer. rewrite Hin, G. reflexivity. }
  assert (A : activeQueue (removePlayer u w1) = activeQueue w).
  { rewrite R. cbn [activeQueue emitQueueStats emit with_trace with_activeQueue].
    rewrite Q1. now apply queue_delete_appended. }
  assert (B : activeSockets (removePlayer u w1) = activeSockets w).
  { rewrite R. cbn [activeSockets emitQueueStats emit with_trace with_activeQueue
                    with_activeSockets].
    rewrite S1. now apply set_delete_appended. }
  assert (C : pendingMatches (removePlayer u w1) = pendingMatches w)
    by (rewrite R; reflexivity).
  repeat (split; [first [assumption | rewrite R; reflexivity]|]).
  unfold getQueueStats. now rewrite A, C.
Qed.

Lemma writes_handleGameCreationFailure env now m code msg w :
  selects is_write w (handleGameCreationFailure env now m code msg w) [].
Proof.
  unfold handleGameCreationFailure. cbn [fold_left]. unfold requeue_after_failure.
  repeat first
    [ eapply selects_nothing;
        [|apply selects_emit; [apply is_write_emission | reflexivity]]
    | eapply selects_nothing;
        [|apply selects_requeue; [apply is_write_emission | apply is_write_console]] ].
  apply selects_refl.
Qed.

(** X20. When the game service refuses the game, nothing is written to
    a collaborator: no penalty is recorded for anybody, no session log
    and no game is created, at once or in a promise job.  The pending
    matches and the alarms are as before and nobody is dropped from the
    queue.  Both participants are handed to
    [addPlayer(userId, socketId, elo, true)], which asks the penalty
    store for each of them ([getActivePenalty], a read that the trace
    does not record): the only players who can enter the queue are these
    two, appended as priority players who joined now, and each only with
    no active penalty, a socket that was not active, and if they had not
    joined the queue again in the meantime. *)
Theorem game_refused_penalises_nobody env now m code message w :
  let w' := finalizeMatch_resume env now m (GameRefused code message) w in
  filter is_write (trace w') = filter is_write (trace w)
  /\ filter is_write (jobs w') = filter is_write (jobs w)
  /\ pendingMatches w' = pendingMatches w
  /\ timers w' = timers w
  /\ exists back,
       activeQueue w' = activeQueue w ++ back
       /\ activeSockets w' = activeSockets w ++ map socketId back
       /\ forall q, In q back ->
            exists p, In p [player1 m; player2 m]
                      /\ getActivePenalty env (p_userId p) = None
                      /\ ~ In (p_socketId p) (activeSockets w)
                      /\ ~ In (p_userId p) (waitingUsers w)
                      /\ q = createQueuedPlayer now (p_userId p) (p_socketId p) (p_elo p) true.
Proof.
  cbv zeta.
  destruct (keeps_matches_finalizeMatch_resume env now m (GameRefused code message) w)
    as (_ & Kp & Kt & _).
  assert (S : selects is_write w (finalizeMatch_resume env now m (GameRefused code message) w) []).
  { unfold finalizeMatch_resume, emitQueueStats.
    eapply selects_nothing;
      [|apply selects_emit; [apply is_write_emission | reflexivity]].
    apply writes_handleGameCreationFailure. }
  destruct S as [S1 S2]. rewrite app_nil_r in S1.
  repeat (split; [assumption|]).
  destruct (taken_back_handleGameCreationFailure env now m code message w)
    as (back & Q & Sk & F).
  exists back. unfold finalizeMatch_resume, emitQueueStats.
  split; [exact Q|]. split; [exact Sk|]. intros q Hq.
  rewrite Forall_forall in F. destruct (F q Hq) as (p & Hp & Hb & Hs & Hw & E).
  exists p. auto.
Qed.

Section FreshPlayers.

Variable cfg : Constants.

Lemma compatible_fresh now a b :
  0 <= EXPANSION_STEP cfg ->
  rangeFactor a = 1 -> rangeFactor b = 1 -> priority a = false ->
  Z.abs (elo b - elo a) <= BASE_TOLERANCE cfg ->
  compatible cfg (expand cfg now a) b = true.
Proof.
  intros Hs Ra Rb Pa Hc. unfold compatible, toleranceA, toleranceB. cbv zeta.
  rewrite elo_expand, priority_expand, Pa, Rb.
  apply andb_true_iff. split; apply Z.leb_le; [|lia].
  destruct (rangeFactor_expand cfg now a) as [E|E]; rewrite E, Ra; [lia|].
  assert (0 <= BASE_TOLERANCE cfg) by lia. nia.
Qed.

End FreshPlayers.

Section FirstMatch.

Variable cfg : Constants.

Lemma two_joined attach env1 env2 t1 t2 u1 u2 s1 s2 e1 e2 :
  getActivePenalty env1 u1 = None -> getActivePenalty env2 u2 = None ->
  u1 <> u2 -> s1 <> s2 ->
  run cfg [AddPlayer env1 t1 u1 s1 e1 false; AddPlayer env2 t2 u2 s2 e2 false]
    (with_server attach initial)
  = mkWorld attach
      [createQueuedPlayer t1 u1 s1 e1 false; createQueuedPlayer t2 u2 s2 e2 false]
      [s1; s2] [] [] 0%nat [] []
      (if attach then [EmitAll (queue_stats 1 0); EmitAll (queue_stats 2 0)] else []).
Proof.
  intros Hp1 Hp2 Hu Hs. unfold run. cbn [fold_left]. unfold step. cbn [handle].
  rewrite (addPlayer_succeeds env1 t1 u1 s1 e1 false (with_server attach initial))
    by (simpl; tauto).
  cbn [snd].
  match goal with |- context [addPlayer env2 t2 u2 s2 e2 false ?w] =>
    rewrite (addPlayer_succeeds env2 t2 u2 s2 e2 false w)
      by (simpl; intuition congruence)
  end.
  destruct attach; reflexivity.
Qed.

Lemma pairing_two now a0 b w :
  compatible cfg (expand cfg now a0) b = true -> userId a0 <> userId b ->
  pairing cfg now [a0; b] [] w
  = handleMatchFound now (expand cfg now a0) b
      (with_activeQueue (queue_replace (expand cfg now a0) (activeQueue w)) w).
Proof.
  intros Hc Hne. cbn [pairing scan set_has existsb]. rewrite Hc.
  assert (M : set_has (userId b)
                (set_add (userId b) (set_add (userId (expand cfg now a0)) [])) = true).
  { apply set_has_true, In_set_add. now left. }
  now rewrite M.
Qed.

Lemma tick_two_fresh attach sent now ta tb ua ub sa sb ea eb q :
  ua <> ub -> sa <> sb ->
  0 <= EXPANSION_STEP cfg -> Z.abs (eb - ea) <= BASE_TOLERANCE cfg ->
  (q = [createQueuedPlayer ta ua sa ea false; createQueuedPlayer tb ub sb eb false]
   \/ q = [createQueuedPlayer tb ub sb eb false; createQueuedPlayer ta ua sa ea false]) ->
  let w := pairing cfg now
             [createQueuedPlayer ta ua sa ea false; createQueuedPlayer tb ub sb eb false] []
             (mkWorld attach q
                (map socketId q) [] [] 0%nat [] [] sent) in
  activeQueue w = [] /\ activeSockets w = [] /\ timers w = [0%nat]
  /\ pendingMatches w
     = [{| matchId := 0%nat; expiresAt := now + MATCH_ACCEPT_TIMEOUT_MS;
           player1 := mkParticipant ua sa ea PENDING;
           player2 := mkParticipant ub sb eb PENDING;
           timeoutId := Some 0%nat |}].
Proof.
  intros Hu Hs Hstep Hc Hq. cbv zeta.
  rewrite pairing_two; [| |exact Hu].
  2:{ apply compatible_fresh; auto. }
  assert (E1 : String.eqb ua ub = false) by now apply String.eqb_neq.
  assert (E2 : String.eqb ub ua = false) by (apply String.eqb_neq; congruence).
  assert (E3 : String.eqb sa sb = false) by now apply String.eqb_neq.
  assert (E4 : String.eqb sb sa = false) by (apply String.eqb_neq; congruence).
  unfold expand. cbn [joinTime rangeFactor createQueuedPlayer].
  destruct (now - ta >? EXPANSION_INTERVAL_MS cfg * 1); destruct Hq as [-> | ->];
    unfold handleMatchFound, emitQueueStats, emit, setTimeout; cbn;
    repeat (progress (rewrite ?String.eqb_refl, ?E1, ?E2, ?E3, ?E4; cbn));
    repeat split; reflexivity.
Qed.


(** X21. Two newcomers whose elo differ by at most BASE_TOLERANCE are
    proposed to each other by the next tick (EXPANSION_STEP not being
    negative): after the two joins and the tick nobody is waiting, and
    the one pending match, with its alarm armed, has the player of lower
    elo as player1 (the one who joined first when the elo are equal),
    both PENDING, with the deadline 15 s after the tick; this with a
    socket server attached from the start or without one. *)
Theorem compatible_newcomers_are_proposed attach env1 env2 t1 t2 now u1 u2 s1 s2 e1 e2
  (Hp1 : getActivePenalty env1 u1 = None)
  (Hp2 : getActivePenalty env2 u2 = None)
  (Hu : u1 <> u2) (Hs : s1 <> s2)
  (Hstep : 0 <= EXPANSION_STEP cfg)
  (Hclose : Z.abs (e1 - e2) <= BASE_TOLERANCE cfg) :
  let w := run cfg [AddPlayer env1 t1 u1 s1 e1 false;
                    AddPlayer env2 t2 u2 s2 e2 false;
                    Tick now] (with_server attach initial) in
  let one := mkParticipant u1 s1 e1 PENDING in
  let two := mkParticipant u2 s2 e2 PENDING in
  activeQueue w = [] /\ activeSockets w = [] /\ timers w = [0%nat]
  /\ pendingMatches w
     = [{| matchId := 0%nat; expiresAt := now + MATCH_ACCEPT_TIMEOUT_MS;
           player1 := if e1 <=? e2 then one else two;
           player2 := if e1 <=? e2 then two else one;
           timeoutId := Some 0%nat |}].
Proof.
  cbv zeta.
  change (run cfg [AddPlayer env1 t1 u1 s1 e1 false;
                   AddPlayer env2 t2 u2 s2 e2 false; Tick now] (with_server attach initial))
    with (step cfg (run cfg [AddPlayer env1 t1 u1 s1 e1 false;
                             AddPlayer env2 t2 u2 s2 e2 false]
                      (with_server attach initial)) (Tick now)).
  rewrite two_joined by assumption. rewrite step_tick by reflexivity.
  unfold matchmakingLoop.
  cbn [activeQueue List.length Nat.ltb Nat.leb sort_candidates fold_right sort_insert].
  assert (Ec : compare_candidates (createQueuedPlayer t1 u1 s1 e1 false)
                 (createQueuedPlayer t2 u2 s2 e2 false) = e1 - e2) by reflexivity.
  rewrite Ec.
  destruct (e1 <=? e2) eqn:L.
  - apply Z.leb_le in L.
    assert (L' : (e1 - e2 <=? 0) = true) by (apply Z.leb_le; lia). rewrite L'.
    destruct (tick_two_fresh attach
                (if attach then [EmitAll (queue_stats 1 0); EmitAll (queue_stats 2 0)] else [])
                now t1 t2 u1 u2 s1 s2 e1 e2
                [createQueuedPlayer t1 u1 s1 e1 false; createQueuedPlayer t2 u2 s2 e2 false])
      as (A & B & C & D); auto.
    rewrite Z.abs_eq by lia. rewrite Z.abs_neq in Hclose by lia. lia.
  - apply Z.leb_gt in L.
    assert (L' : (e1 - e2 <=? 0) = false) by (apply Z.leb_gt; lia). rewrite L'.
    destruct (tick_two_fresh attach
                (if attach then [EmitAll (queue_stats 1 0); EmitAll (queue_stats 2 0)] else [])
                now t2 t1 u2 u1 s2 s1 e2 e1
                [createQueuedPlayer t1 u1 s1 e1 false; createQueuedPlayer t2 u2 s2 e2 false])
      as (A & B & C & D); auto.
Qed.

End FirstMatch.

(** * Who may enter the queue *)

Lemma lets_in_same env w w' : activeQueue w' = activeQueue w -> lets_in env w w'.
Proof. intros E u H. left. unfold waitingUsers in *. now rewrite <- E. Qed.

Lemma lets_in_trans env w1 w2 w3 :
  lets_in env w1 w2 -> lets_in env w2 w3 -> lets_in env w1 w3.
Proof.
  intros A B u H. destruct (B u H) as [H2|H2]; [now apply A | now right].
Qed.

Lemma lets_in_addPlayer env now u s e prio w :
  lets_in env w (snd (addPlayer env now u s e prio w)).
Proof.
  destruct (addPlayer_cases env now u s e prio w)
    as [[msg E] | (Hb & _ & _ & _ & E)]; rewrite E; cbn [snd];
    [now apply lets_in_same|].
  intros v Hv. unfold waitingUsers in Hv. simpl in Hv.
  rewrite map_app in Hv. apply in_app_iff in Hv.
  destruct Hv as [Hv|[<-|[]]]; [now left | now right].
Qed.

Lemma lets_in_requeue env now line p w : lets_in env w (requeue env now line p w).
Proof.
  unfold requeue.
  pose proof (lets_in_addPlayer env now (p_userId p) (p_socketId p) (p_elo p) true w) as Ha.
  destruct (addPlayer env now (p_userId p) (p_socketId p) (p_elo p) true w)
    as [[| msg |] w1]; cbn [snd] in Ha; exact Ha.
Qed.

Lemma lets_in_fold {A} env (f : World -> A -> World) l :
  (forall w a, lets_in env w (f w a)) -> forall w, lets_in env w (fold_left f l w).
Proof.
  intros Hf. induction l as [|a l IH]; intros w; simpl; [now apply lets_in_same|].
  eapply lets_in_trans; [apply Hf | apply IH].
Qed.

Lemma lets_in_cancelMatch env now m faulty reason w :
  lets_in env w (cancelMatch env now m faulty reason w).
Proof.
  unfold cancelMatch, emitQueueStats.
  eapply lets_in_trans; [|now apply lets_in_same].
  set (w2 := with_pendingMatches _ _).
  eapply (lets_in_trans env w w2);
    [apply lets_in_same; unfold w2; destruct (timeoutId m); reflexivity|].
  apply lets_in_fold. intros w' p. unfold cancel_participant.
  destruct (set_has (p_userId p) _).
  - apply lets_in_same. destruct (addPenalty_throws env (p_userId p)); reflexivity.
  - eapply lets_in_trans; [apply lets_in_requeue | now apply lets_in_same].
Qed.

Lemma lets_in_finalizeMatch_resume env now m r w :
  lets_in env w (finalizeMatch_resume env now m r w).
Proof.
  unfold finalizeMatch_resume, emitQueueStats.
  eapply lets_in_trans; [|now apply lets_in_same].
  destruct r.
  - apply lets_in_same. unfold handleGameCreationSuccess.
    destruct (negb (server w)); reflexivity.
  - unfold handleGameCreationFailure.
    eapply lets_in_trans; [|apply lets_in_fold].
    + now apply lets_in_same.
    + intros w' p. unfold requeue_after_failure.
      eapply lets_in_trans; [apply lets_in_requeue | now apply lets_in_same].
Qed.

(** X22. Whoever enters the waiting queue while an event is handled in
    a reachable state, by joining or by being re-queued after a
    cancelled ready check or a refused game, has no active penalty in
    the penalty store of that moment; removals, accepts, ticks and
    [setServer] let nobody in. *)
Theorem banned_users_never_enter (cfg : Constants) (evs : list Event) (ev : Event)
  (u : string)
  (Hnew : In u (waitingUsers (step cfg (run cfg evs initial) ev)))
  (Hold : ~ In u (waitingUsers (run cfg evs initial))) :
  exists env, event_env ev = Some env /\ getActivePenalty env u = None.
Proof.
  pose proof (Inv_reachable cfg evs) as HI.
  set (w := run cfg evs initial) in *.
  change (waitingUsers (step cfg w ev)) with (waitingUsers (handle cfg ev w)) in Hnew.
  assert (K : forall env, lets_in env w (handle cfg ev w) ->
                          event_env ev = Some env ->
                          exists env, event_env ev = Some env /\ getActivePenalty env u = None).
  { intros env L E. exists env. split; [assumption|].
    destruct (L u Hnew) as [H|H]; [contradiction | assumption]. }
  destruct ev; cbn [handle] in *.
  - contradiction.
  - apply (K env); [apply lets_in_addPlayer | reflexivity].
  - exfalso. apply Hold. revert Hnew. unfold removePlayer.
    match goal with |- context [queue_get ?t _] => set (targetId := t) end.
    destruct (queue_get targetId (activeQueue w)); [|auto].
    unfold waitingUsers. simpl. intros Hin.
    apply In_users_queue_delete in Hin. tauto.
  - apply (K env); [|reflexivity]. apply lets_in_same.
    apply (proj1 (queue_acceptMatch env now u0 mid w)).
  - apply (K env); [|reflexivity]. unfold declineMatch.
    destruct (pending_get mid (pendingMatches w)) as [m|]; [|now apply lets_in_same].
    destruct (_ && _); cbn [snd]; [now apply lets_in_same | apply lets_in_cancelMatch].
  - apply (K env); [|reflexivity].
    destruct (existsb _ _); [|now apply lets_in_same]. unfold handleMatchTimeout.
    destruct (pending_get mid _) as [m|]; [|now apply lets_in_same].
    eapply lets_in_trans; [|apply lets_in_cancelMatch]. now apply lets_in_same.
  - exfalso. apply Hold. unfold waitingUsers in *. apply in_map_iff in Hnew.
    destruct Hnew as (q' & E & Hq').
    destruct (ranges_matchmakingLoop cfg now w HI q' Hq') as (q & Hq & [->| ->]).
    + rewrite <- E. now apply in_map.
    + rewrite <- E, userId_expand. now apply in_map.
  - apply (K env); [|reflexivity].
    destruct (pending_get mid (awaiting w)) as [m|]; [|now apply lets_in_same].
    eapply lets_in_trans; [|apply lets_in_finalizeMatch_resume]. now apply lets_in_same.
Qed.

Lemma same_entry_refl q : same_entry q q.
Proof. repeat split. Qed.

(** X23. The priority flag of a waiting player comes from the caller of
    [addPlayer] or from a re-queue, and nothing changes it afterwards.
    Whoever is in the queue after an event handled in a reachable state
    either was in the queue before, with the same user, socket, elo,
    join time and priority flag (and only the tick may have changed the
    entry at all, in its range), or was not waiting and then: for a
    join, is the player built from the arguments of [addPlayer], its
    priority included; for a decline, is a participant of the declined
    pending match other than the one who declined, re-queued as
    [addPlayer(userId, socketId, elo, true)] at the time of the event;
    for an expiry, a participant of the expired pending match who had
    accepted, re-queued likewise; for a refusal of the game service, a
    participant of the match whose game was refused, re-queued likewise.
    Removals, accepts, ticks, [setServer] and a game that was created let
    nobody in. *)
Theorem priority_only_by_requeue (cfg : Constants) (evs : list Event) (ev : Event)
  (q : QueuedPlayer)
  (Hnew : In q (activeQueue (step cfg (run cfg evs initial) ev))) :
  let w := run cfg evs initial in
  (exists q0, In q0 (activeQueue w) /\ same_entry q0 q
              /\ ((forall now, ev <> Tick now) -> q0 = q))
  \/ (~ In (userId q) (waitingUsers w)
      /\ match ev with
         | AddPlayer _ now u s e prio => q = createQueuedPlayer now u s e prio
         | DeclineMatch _ now u mid =>
             exists m p,
               pending_get mid (pendingMatches w) = Some m
               /\ In p [player1 m; player2 m] /\ p_userId p <> u
               /\ q = createQueuedPlayer now (p_userId p) (p_socketId p) (p_elo p) true
         | TimerFires _ now mid =>
             exists m p,
               pending_get mid (pendingMatches w) = Some m
               /\ In p [player1 m; player2 m] /\ status p = ACCEPTED
               /\ q = createQueuedPlayer now (p_userId p) (p_socketId p) (p_elo p) true
         | GameReply _ now mid r =>
             exists m p code message,
               pending_get mid (awaiting w) = Some m
               /\ r = GameRefused code message
               /\ In p [player1 m; player2 m]
               /\ q = createQueuedPlayer now (p_userId p) (p_socketId p) (p_elo p) true
         | SetServer | RemovePlayer _ | AcceptMatch _ _ _ _ | Tick _ => False
         end).
Proof.
  cbv zeta. pose proof (Inv_reachable cfg evs) as HI.
  set (w := run cfg evs initial) in *.
  change (activeQueue (step cfg w ev)) with (activeQueue (handle cfg ev w)) in Hnew.
  assert (Old : forall q0, In q0 (activeQueue w) -> q0 = q ->
            exists q0, In q0 (activeQueue w) /\ same_entry q0 q
                       /\ ((forall now, ev <> Tick now) -> q0 = q)).
  { intros q0 Hq0 E. exists q0. subst q0. split; [assumption|].
    split; [apply same_entry_refl | reflexivity]. }
  destruct ev; cbn [handle] in *.
  - left. now apply (Old q).
  - destruct (addPlayer_cases env now u s e prio w)
      as [[msg E] | (_ & Hw & _ & _ & E)]; rewrite E in Hnew; cbn [snd] in Hnew;
      [left; now apply (Old q)|].
    simpl in Hnew. apply in_app_iff in Hnew.
    destruct Hnew as [Hq|[<-|[]]]; [left; now apply (Old q)|].
    right. split; [exact Hw | reflexivity].
  - left. apply (Old q); [|reflexivity]. revert Hnew. unfold removePlayer.
    match goal with |- context [queue_get ?t _] => set (targetId := t) end.
    destruct (queue_get targetId (activeQueue w)); [|auto].
    simpl. intros Hin. apply In_queue_delete in Hin. tauto.
  - left. apply (Old q); [|reflexivity].
    now rewrite (proj1 (queue_acceptMatch env now u mid w)) in Hnew.
  - revert Hnew. unfold declineMatch.
    destruct (pending_get mid (pendingMatches w)) as [m|] eqn:G;
      [|intros Hnew; left; now apply (Old q)].
    destruct (_ && _); cbn [snd]; [intros Hnew; left; now apply (Old q)|].
    intros Hnew.
    destruct (In_taken_back env now _ w _ q
                (taken_back_cancelMatch env now m [u] "declined" w) Hnew)
      as [Hq | (p & Hp & Hw & E)]; [left; now apply (Old q)|].
    right. split; [now rewrite E|]. exists m, p. split; [reflexivity|].
    apply filter_In in Hp. destruct Hp as [Hp Hi].
    split; [exact Hp|]. split; [|exact E].
    unfold innocent in Hi. simpl in Hi.
    rewrite orb_false_r in Hi. apply negb_true_iff, String.eqb_neq in Hi. exact Hi.
  - revert Hnew. destruct (existsb _ _); [|intros Hnew; left; now apply (Old q)].
    unfold handleMatchTimeout. cbn [pendingMatches clearTimeout with_timers].
    destruct (pending_get mid (pendingMatches w)) as [m|] eqn:G;
      [|intros Hnew; left; now apply (Old q)].
    intros Hnew.
    match type of Hnew with
    | In q (activeQueue (cancelMatch _ _ _ ?f _ ?x)) =>
        destruct (In_taken_back env now _ x _ q
                    (taken_back_cancelMatch env now m f "timeout" x) Hnew)
          as [Hq | (p & Hp & Hw & E)]
    end; [left; now apply (Old q)|].
    right. split; [now rewrite E|]. exists m, p. split; [reflexivity|].
    pose proof G as G'. apply pending_get_some in G'. destruct G' as [Hm _].
    pose proof (inv_open w HI) as Ho. rewrite Forall_forall in Ho.
    destruct (Ho m Hm) as (O1 & O2 & _).
    apply filter_In in Hp. destruct Hp as [Hp Hi].
    split; [exact Hp|]. split; [|exact E].
    unfold innocent in Hi. apply negb_true_iff, set_has_false in Hi.
    destruct Hp as [<-|[<-|[]]].
    + destruct O1 as [O1|O1]; [|exact O1]. exfalso. apply Hi.
      rewrite O1. simpl. now left.
    + destruct O2 as [O2|O2]; [|exact O2]. exfalso. apply Hi.
      rewrite O2. apply in_or_app. right. simpl. now left.
  - left. destruct (ranges_matchmakingLoop cfg now w HI q Hnew) as (q0 & Hq0 & [->| ->]).
    + now apply (Old q0).
    + exists q0. split; [assumption|]. split.
      * unfold same_entry.
        now rewrite userId_expand, socketId_expand, elo_expand, joinTime_expand,
          priority_expand.
      * intros H. exfalso. now apply (H now).
  - revert Hnew.
    destruct (pending_get mid (awaiting w)) as [m|] eqn:G;
      [|intros Hnew; left; now apply (Old q)].
    destruct r.
    + intros Hnew. left. apply (Old q); [|reflexivity]. revert Hnew.
      unfold finalizeMatch_resume, handleGameCreationSuccess, emitQueueStats.
      simpl. destruct (server w); simpl; auto.
    + intros Hnew.
      assert (T : taken_back env now [player1 m; player2 m]
                    (with_awaiting (pending_delete mid (awaiting w)) w)
                    (finalizeMatch_resume env now m (GameRefused error message)
                       (with_awaiting (pending_delete mid (awaiting w)) w))).
      { unfold finalizeMatch_resume, emitQueueStats. apply taken_back_emit.
        apply taken_back_handleGameCreationFailure. }
      destruct (In_taken_back env now _ _ _ q T Hnew) as [Hq | (p & Hp & Hw & E)];
        [left; now apply (Old q)|].
      right. split; [now rewrite E|]. exists m, p, error, message. auto.
Qed.

(** * The result validator *)

(** X24. A method decorated with [ValidateResult] fulfils only with a
    result the schema accepts, and then with the very result of the
    original method; a result the schema refuses becomes the rejection
    "Data validation failed for <method>"; a rejection of the original
    method passes through unchanged; and decorating twice is the same as
    decorating once. *)
Theorem validated_results_satisfy_schema {A B : Type} (validate : B -> bool)
  (methodName : string) (originalMethod : A -> Settled B) (args : A) :
  let decorated := ValidateResult validate methodName originalMethod in
  (forall result, decorated args = Fulfilled result ->
     originalMethod args = Fulfilled result /\ validate result = true)
  /\ (forall result, originalMethod args = Fulfilled result ->
        validate result = false ->
        decorated args
        = Rejected (String.append "Data validation failed for " methodName))
  /\ (forall message, originalMethod args = Rejected message ->
        decorated args = Rejected message)
  /\ ValidateResult validate methodName decorated args = decorated args.
Proof.
  cbv zeta. unfold ValidateResult.
  destruct (originalMethod args) as [r|e]; [destruct (validate r) eqn:V|].
  - rewrite V. split; [|split; [|split]]; try congruence.
    intros r' E. inversion E; subst. now split.
  - split; [|split; [|split]]; congruence.
  - split; [|split; [|split]]; congruence.
Qed.

(** * Further instances *)

(** X4, an instance: nobody answers the proposal of match 0. *)
Lemma expiry_penalises_the_silent_witness :
  In 0%nat (timers (run recommended proposal_events initial))
  /\ filter is_write
       (trace (step recommended (run recommended proposal_events initial)
                 (TimerFires env_free 16000 0%nat)))
     = [Call_addPenalty "A" 300 "Matchmaking abuse: timeout";
        Call_addPenalty "B" 300 "Matchmaking abuse: timeout"].
Proof.
  assert (H : In 0%nat (timers (run recommended proposal_events initial)))
    by (vm_compute; auto).
  split; [exact H|].
  destruct (expiry_penalises_the_silent recommended proposal_events env_free 16000 0%nat H)
    as (m & G & _ & _ & _ & T & _).
  rewrite T. vm_compute in G. inversion G; subst m. reflexivity.
Defined.

(** X5, an instance: the match proposed to "A" and "B". *)
Lemma ready_checks_stay_open_witness :
  In proposed_match (pendingMatches (run recommended proposal_events initial))
  /\ p_userId (player1 proposed_match) <> p_userId (player2 proposed_match)
  /\ ~ In "A" (waitingUsers (run recommended proposal_events initial)).
Proof.
  assert (H : In proposed_match (pendingMatches (run recommended proposal_events initial)))
    by (vm_compute; auto).
  split; [exact H|].
  destruct (ready_checks_stay_open recommended proposal_events proposed_match H)
    as (_ & _ & _ & U & _ & W & _).
  split; [exact U | exact W].
Defined.

(** X8, an instance: "A" has waited 20 s and its range goes from 1 to 2. *)
Lemma tick_only_expands_ranges_witness :
  In (expand recommended 20000 (createQueuedPlayer 0 "A" "sA" 1000 false))
     (activeQueue (step recommended (run recommended strangers_join initial) (Tick 20000)))
  /\ exists q,
       In q (activeQueue (run recommended strangers_join initial))
       /\ userId q = "A" /\ rangeFactor q <= 2.
Proof.
  assert (H : In (expand recommended 20000 (createQueuedPlayer 0 "A" "sA" 1000 false))
                (activeQueue (step recommended (run recommended strangers_join initial)
                                (Tick 20000))))
    by (vm_compute; auto).
  split; [exact H|].
  destruct (tick_only_expands_ranges recommended strangers_join 20000 _ H)
    as (q & Hq & _ & U & _ & _ & _ & _ & R & _).
  exists q. split; [exact Hq|]. split; [now rewrite <- U|].
  apply R. simpl. lia.
Defined.

(** X9, an instance: both ranges have been expanded once. *)
Lemma ranges_never_shrink_witness :
  0 <= EXPANSION_STEP recommended
  /\ Forall (fun p => 1 <= rangeFactor p)
            (activeQueue (run recommended strangers_wait initial)).
Proof.
  assert (H : 0 <= EXPANSION_STEP recommended) by (simpl; lia).
  split; [exact H|].
  eapply Forall_impl; [|apply (ranges_never_shrink recommended strangers_wait H)].
  intros p [Hp _]. exact Hp.
Defined.

(** X13, an instance: the first player joins. *)
Lemma addPlayer_success_witness :
  addPlayer env_free 0 "A" "sA" 1500 false initial
  = (Returned, snd (addPlayer env_free 0 "A" "sA" 1500 false initial))
  /\ waitingUsers (snd (addPlayer env_free 0 "A" "sA" 1500 false initial)) = ["A"].
Proof.
  assert (H : addPlayer env_free 0 "A" "sA" 1500 false initial
              = (Returned, snd (addPlayer env_free 0 "A" "sA" 1500 false initial)))
    by reflexivity.
  split; [exact H|].
  destruct (addPlayer_success _ _ _ _ _ _ _ _ H) as (_ & _ & _ & _ & Q & _).
  unfold waitingUsers. rewrite Q. reflexivity.
Defined.

(** X15, an instance: two joins and a tick without a server. *)
Lemma nothing_sent_without_server_witness :
  ~ In SetServer strangers_wait
  /\ filter is_emission (trace (run recommended strangers_wait initial)) = [].
Proof.
  assert (H : ~ In SetServer strangers_wait) by (simpl; intuition discriminate).
  split; [exact H|]. apply (nothing_sent_without_server recommended _ H).
Defined.

(** X19, an instance: the first player joins and leaves. *)
Lemma join_then_leave_restores_witness :
  addPlayer env_free 0 "A" "sA" 1500 false initial
  = (Returned, snd (addPlayer env_free 0 "A" "sA" 1500 false initial))
  /\ activeQueue (removePlayer "A" (snd (addPlayer env_free 0 "A" "sA" 1500 false initial)))
     = [].
Proof.
  assert (H : addPlayer env_free 0 "A" "sA" 1500 false initial
              = (Returned, snd (addPlayer env_free 0 "A" "sA" 1500 false initial)))
    by reflexivity.
  split; [exact H|].
  apply (proj1 (join_then_leave_restores _ _ _ _ _ _ _ _ H)).
Defined.

(** X21, an instance: "A" (1500) and "B" (1520) with the recommended
    constants. *)
Lemma compatible_newcomers_are_proposed_witness :
  getActivePenalty env_free "A" = None
  /\ getActivePenalty env_free "B" = None
  /\ "A" <> "B" /\ "sA" <> "sB"
  /\ 0 <= EXPANSION_STEP recommended
  /\ Z.abs (1500 - 1520) <= BASE_TOLERANCE recommended
  /\ pendingMatches (run recommended proposal_events initial) = [proposed_match].
Proof.
  assert (H1 : getActivePenalty env_free "A" = None) by reflexivity.
  assert (H2 : getActivePenalty env_free "B" = None) by reflexivity.
  assert (H3 : "A" <> "B") by discriminate.
  assert (H4 : "sA" <> "sB") by discriminate.
  assert (H5 : 0 <= EXPANSION_STEP recommended) by (simpl; lia).
  assert (H6 : Z.abs (1500 - 1520) <= BASE_TOLERANCE recommended) by (simpl; lia).
  repeat (split; [assumption|]).
  apply (proj2 (proj2 (proj2
    (compatible_newcomers_are_proposed recommended true env_free env_free 0 0 1000
       "A" "B" "sA" "sB" 1500 1520 H1 H2 H3 H4 H5 H6)))).
Defined.

(** X22, an instance: "B" declines and "A" is back in the queue. *)
Lemma banned_users_never_enter_witness :
  In "A" (waitingUsers (step recommended (run recommended proposal_events initial)
                          (DeclineMatch env_free 2000 "B" 0%nat)))
  /\ ~ In "A" (waitingUsers (run recommended proposal_events initial))
  /\ getActivePenalty env_free "A" = None.
Proof.
  assert (H1 : In "A" (waitingUsers (step recommended
                                       (run recommended proposal_events initial)
                                       (DeclineMatch env_free 2000 "B" 0%nat))))
    by (vm_compute; auto).
  assert (H2 : ~ In "A" (waitingUsers (run recommended proposal_events initial)))
    by (vm_compute; tauto).
  split; [exact H1|]. split; [exact H2|].
  destruct (banned_users_never_enter recommended proposal_events
              (DeclineMatch env_free 2000 "B" 0%nat) "A" H1 H2) as (env & E & P).
  inversion E; subst env. exact P.
Defined.

(** X23, the same instance: "A" was not waiting and comes back with
    priority, as the participant of match 0 who did not decline. *)
Lemma priority_only_by_requeue_witness :
  In (createQueuedPlayer 2000 "A" "sA" 1500 true)
     (activeQueue (step recommended (run recommended proposal_events initial)
                     (DeclineMatch env_free 2000 "B" 0%nat)))
  /\ exists m p,
       pending_get 0%nat (pendingMatches (run recommended proposal_events initial))
       = Some m
       /\ In p [player1 m; player2 m] /\ p_userId p <> "B"
       /\ createQueuedPlayer 2000 "A" "sA" 1500 true
          = createQueuedPlayer 2000 (p_userId p) (p_socketId p) (p_elo p) true.
Proof.
  assert (H1 : In (createQueuedPlayer 2000 "A" "sA" 1500 true)
                 (activeQueue (step recommended (run recommended proposal_events initial)
                                 (DeclineMatch env_free 2000 "B" 0%nat))))
    by (vm_compute; auto).
  split; [exact H1|].
  destruct (priority_only_by_requeue recommended proposal_events
              (DeclineMatch env_free 2000 "B" 0%nat) _ H1)
    as [(q0 & Hq0 & _) | [_ P]].
  - vm_compute in Hq0. contradiction.
  - exact P.
Defined.
